(** * littlecheck: directive compiler and stream matcher

    A shallow embedding of [littlecheck.py].  The program leans on
    Python's [re] module, so the development starts with a model of
    the part of [re] the program exercises ([Module Re]): an abstract
    syntax of patterns, a parser for pattern strings, and a
    backtracking matcher with capture groups that explores the
    alternatives in the order Python's engine does.  The program's own
    functions follow, each translated from the source.

    Text is modelled as [string] over 8-bit characters (the Latin-1
    range of Python's [str]). *)

From Stdlib Require Import String Ascii List Bool Arith Lia Sorted.
Import ListNotations.
Open Scope list_scope.
Open Scope string_scope.
Open Scope nat_scope.

Set Implicit Arguments.

(** ** Characters *)

Definition nl : ascii := "010"%char.
Definition code (c : ascii) : nat := nat_of_ascii c.
Definition in_range (lo hi : nat) (c : ascii) : bool :=
  (lo <=? code c) && (code c <=? hi).

(** [str.isspace] on one character, which is also what [\s] accepts. *)
Definition isspace_char (c : ascii) : bool :=
  in_range 9 13 c || in_range 28 32 c || (code c =? 133) || (code c =? 160).

Definition is_digit (c : ascii) : bool := in_range 48 57 c.
Definition is_ascii_letter (c : ascii) : bool :=
  in_range 65 90 c || in_range 97 122 c.

(** What [\w] accepts: alphanumerics and the underscore. *)
Definition is_word (c : ascii) : bool :=
  is_digit c || is_ascii_letter c || (code c =? 95)
  || (code c =? 170) || (code c =? 181) || (code c =? 186)
  || (code c =? 178) || (code c =? 179) || (code c =? 185)
  || in_range 188 190 c
  || in_range 192 214 c || in_range 216 246 c || in_range 248 255 c.

Fixpoint all_chars (p : ascii -> bool) (s : string) : bool :=
  match s with
  | EmptyString => true
  | String c t => p c && all_chars p t
  end.

(** [s[n:]] *)
Fixpoint drop (n : nat) (s : string) : string :=
  match n, s with
  | S n', String _ t => drop n' t
  | _, _ => s
  end.

(** [s[:n]] *)
Definition take (n : nat) (s : string) : string := substring 0 n s.

Module Re.

(** ** Pattern syntax *)

Inductive cclass := CSpace | CDigit | CWord.

Inductive setitem :=
| IChar (c : ascii)
| IRange (lo hi : ascii)
| IClass (neg : bool) (cl : cclass).

Inductive regex :=
| Eps
| Chr (c : ascii)
| Any
| In (neg : bool) (items : list setitem)
| Bol
| Eol
| Cat (a b : regex)
| Alt (a b : regex)
| Star (greedy : bool) (a : regex)
| Plus (greedy : bool) (a : regex)
| Opt (greedy : bool) (a : regex)
| Group (idx : nat) (name : option string) (a : regex)
| NGroup (a : regex).

Definition class_mem (cl : cclass) (c : ascii) : bool :=
  match cl with
  | CSpace => isspace_char c
  | CDigit => is_digit c
  | CWord => is_word c
  end.

Definition item_mem (c : ascii) (i : setitem) : bool :=
  match i with
  | IChar d => Ascii.eqb c d
  | IRange lo hi => (code lo <=? code c) && (code c <=? code hi)
  | IClass neg cl => xorb neg (class_mem cl c)
  end.

Definition set_mem (neg : bool) (items : list setitem) (c : ascii) : bool :=
  xorb neg (existsb (item_mem c) items).

(** ** Matching

    The matcher is written in continuation-passing style: [m r st k]
    tries to match [r] at [st] and hands every way of doing so to [k],
    in Python's order of preference (left alternative first, greedy
    quantifiers longest first, lazy ones shortest first); the first
    success wins.  An iteration of a starred pattern that consumes no
    character is cut, which changes neither whether a match exists
    nor, for the patterns of this program, what the groups capture. *)

Record mstate := MState {
  pos : nat;                     (* offset in the subject *)
  rest : string;                 (* subject from [pos] on *)
  caps : list (nat * string)     (* groups closed so far, newest first *)
}.

Definition cont := mstate -> option mstate.

Definition eat (p : ascii -> bool) (st : mstate) (k : cont) : option mstate :=
  match rest st with
  | String c t => if p c then k (MState (S (pos st)) t (caps st)) else None
  | EmptyString => None
  end.

Fixpoint star_loop (body : mstate -> cont -> option mstate) (greedy : bool)
    (n : nat) (st : mstate) (k : cont) {struct n} : option mstate :=
  match n with
  | 0 => k st
  | S n' =>
      if greedy then
        match body st (fun st' =>
                 if String.length (rest st') <? String.length (rest st)
                 then star_loop body greedy n' st' k else None) with
        | Some res => Some res
        | None => k st
        end
      else
        match k st with
        | Some res => Some res
        | None => body st (fun st' =>
                    if String.length (rest st') <? String.length (rest st)
                    then star_loop body greedy n' st' k else None)
        end
  end.

Definition close_group (idx : nat) (st st' : mstate) : mstate :=
  MState (pos st') (rest st')
         ((idx, take (pos st' - pos st) (rest st)) :: caps st').

Fixpoint m (r : regex) (st : mstate) (k : cont) {struct r} : option mstate :=
  match r with
  | Eps => k st
  | Chr c => eat (Ascii.eqb c) st k
  | Any => eat (fun d => negb (Ascii.eqb d nl)) st k
  | In neg items => eat (set_mem neg items) st k
  | Bol => if pos st =? 0 then k st else None
  | Eol =>
      match rest st with
      | EmptyString => k st
      | String c EmptyString => if Ascii.eqb c nl then k st else None
      | _ => None
      end
  | Cat a b => m a st (fun st' => m b st' k)
  | Alt a b =>
      match m a st k with
      | Some res => Some res
      | None => m b st k
      end
  | Star g a => star_loop (m a) g (String.length (rest st)) st k
  | Plus g a => m a st (fun st' => star_loop (m a) g (String.length (rest st')) st' k)
  | Opt g a =>
      if g then
        match m a st k with
        | Some res => Some res
        | None => k st
        end
      else
        match k st with
        | Some res => Some res
        | None => m a st k
        end
  | Group idx _ a => m a st (fun st' => k (close_group idx st st'))
  | NGroup a => m a st k
  end.

(** [pattern.match(s)]: a match of some prefix of [s], from offset 0. *)
Definition match_ (r : regex) (s : string) : option mstate :=
  m r (MState 0 s []) Some.

(** [m.group(i)] for a group that took part in the match. *)
Fixpoint group (i : nat) (cs : list (nat * string)) : option string :=
  match cs with
  | [] => None
  | (j, w) :: cs' => if i =? j then Some w else group i cs'
  end.

(** [pattern.search]: the leftmost offset at which a match starts, with
    the state the match ends in. *)
Fixpoint search_from (r : regex) (p : nat) (s : string) : option (nat * mstate) :=
  match m r (MState p s []) Some with
  | Some st => Some (p, st)
  | None =>
      match s with
      | EmptyString => None
      | String _ t => search_from r (S p) t
      end
  end.

(** The successive non-overlapping matches of a pattern in a subject,
    with the text between them: what [re.sub] and [re.split] iterate
    over.  After an empty match the scan moves one character on. *)
Inductive piece :=
| Gap (text : string)
| Hit (text : string) (groups : list (nat * string)).

Definition push_gap (c : ascii) (ps : list piece) : list piece :=
  match ps with
  | Gap t :: ps' => Gap (String c t) :: ps'
  | _ => Gap (String c EmptyString) :: ps
  end.

Fixpoint scan (fuel : nat) (r : regex) (p : nat) (s : string) : list piece :=
  match fuel with
  | 0 => [Gap s]
  | S fuel' =>
      match search_from r p s with
      | None => [Gap s]
      | Some (q, st) =>
          let hit := Hit (take (pos st - q) (drop (q - p) s)) (caps st) in
          if pos st =? q then
            match rest st with
            | EmptyString => [Gap (take (q - p) s); hit; Gap EmptyString]
            | String c t =>
                Gap (take (q - p) s) :: hit :: push_gap c (scan fuel' r (S q) t)
            end
          else Gap (take (q - p) s) :: hit :: scan fuel' r (pos st) (rest st)
      end
  end.

Definition finditer (r : regex) (s : string) : list piece :=
  scan (S (String.length s)) r 0 s.

(** [re.sub(pattern, repl, s)] with a function [repl] of the match,
    given here the match's captures. *)
Definition sub (r : regex) (repl : list (nat * string) -> string) (s : string) : string :=
  String.concat "" (map (fun p => match p with
                                  | Gap t => t
                                  | Hit _ cs => repl cs
                                  end) (finditer r s)).

(** [pattern.split(s)] for a pattern with one capturing group: the text
    between the matches, alternating with the group's captures. *)
Definition split (r : regex) (s : string) : list string :=
  map (fun p => match p with
                | Gap t => t
                | Hit _ cs => match group 1 cs with Some w => w | None => "" end
                end) (finditer r s).

(** ** Parsing pattern strings *)

Inductive re_error :=
| NothingToRepeat
| MultipleRepeat
| UnbalancedParen
| MissingParen
| BadEscape
| UnterminatedSet
| BadRange
| UnexpectedEnd
| BadGroupName
| RedefinedGroup (name : string).

(** [POk]: the pattern is accepted.  [PError]: [re.error] is raised.
    [PUnsupported]: valid or not, the construct is outside the modelled
    fragment.  [PFuel]: the recursion bound was reached. *)
Inductive presult (A : Type) :=
| POk (a : A)
| PError (e : re_error)
| PUnsupported
| PFuel.
Arguments PError {A} e.
Arguments PUnsupported {A}.
Arguments PFuel {A}.

Definition pbind {A B} (x : presult A) (f : A -> presult B) : presult B :=
  match x with
  | POk a => f a
  | PError e => PError e
  | PUnsupported => PUnsupported
  | PFuel => PFuel
  end.

Definition is_repeat_char (c : ascii) : bool :=
  match c with
  | "*"%char | "+"%char | "?"%char => true
  | _ => false
  end.

(** The whitespace verbose mode skips. *)
Definition is_re_ws (c : ascii) : bool :=
  match c with
  | " "%char | "009"%char | "010"%char | "013"%char | "011"%char | "012"%char => true
  | _ => false
  end.

Definition category (c : ascii) : option setitem :=
  match c with
  | "s"%char => Some (IClass false CSpace)
  | "S"%char => Some (IClass true CSpace)
  | "d"%char => Some (IClass false CDigit)
  | "D"%char => Some (IClass true CDigit)
  | "w"%char => Some (IClass false CWord)
  | "W"%char => Some (IClass true CWord)
  | _ => None
  end.

Definition control_escape (c : ascii) : option ascii :=
  match c with
  | "n"%char => Some "010"%char
  | "t"%char => Some "009"%char
  | "r"%char => Some "013"%char
  | "f"%char => Some "012"%char
  | "v"%char => Some "011"%char
  | "a"%char => Some "007"%char
  | _ => None
  end.

(** A backslash escape outside a set, given the character after the
    backslash. *)
Definition parse_escape (c : ascii) : presult regex :=
  match category c with
  | Some i => POk (In false [i])
  | None =>
      match control_escape c with
      | Some d => POk (Chr d)
      | None =>
          match c with
          | "b"%char | "B"%char | "A"%char | "Z"%char
          | "x"%char | "u"%char | "U"%char | "N"%char => PUnsupported
          | _ =>
              if is_digit c then PUnsupported
              else if is_ascii_letter c then PError BadEscape
              else POk (Chr c)
          end
      end
  end.

(** A backslash escape inside a set. *)
Definition class_escape (c : ascii) : presult setitem :=
  match category c with
  | Some i => POk i
  | None =>
      match control_escape c with
      | Some d => POk (IChar d)
      | None =>
          match c with
          | "b"%char => POk (IChar "008"%char)
          | "x"%char | "u"%char | "U"%char | "N"%char => PUnsupported
          | _ =>
              if is_digit c then PUnsupported
              else if is_ascii_letter c then PError BadEscape
              else POk (IChar c)
          end
      end
  end.

(** One member of a set: a character or an escape. *)
Definition set_atom (s : string) : presult (setitem * string) :=
  match s with
  | EmptyString => PError UnterminatedSet
  | String c t =>
      if Ascii.eqb c "\" then
        match t with
        | EmptyString => PError BadEscape
        | String e t' => pbind (class_escape e) (fun i => POk (i, t'))
        end
      else POk (IChar c, t)
  end.

Definition mk_range (i1 i2 : setitem) : presult setitem :=
  match i1, i2 with
  | IChar lo, IChar hi => if code lo <=? code hi then POk (IRange lo hi) else PError BadRange
  | _, _ => PError BadRange
  end.

Fixpoint parse_set_items (n : nat) (first : bool) (s : string)
    (acc : list setitem) {struct n} : presult (list setitem * string) :=
  match n with
  | 0 => PFuel
  | S n' =>
      match s with
      | EmptyString => PError UnterminatedSet
      | String c t =>
          if Ascii.eqb c "]" && negb first then POk (rev acc, t)
          else
            pbind (set_atom s) (fun '(i1, s1) =>
              match s1 with
              | String d s2 =>
                  if Ascii.eqb d "-" then
                    match s2 with
                    | EmptyString => PError UnterminatedSet
                    | String e s3 =>
                        if Ascii.eqb e "]" then POk (rev (IChar "-" :: i1 :: acc), s3)
                        else
                          pbind (set_atom s2) (fun '(i2, s4) =>
                            pbind (mk_range i1 i2) (fun i =>
                              parse_set_items n' false s4 (i :: acc)))
                    end
                  else parse_set_items n' false s1 (i1 :: acc)
              | EmptyString => parse_set_items n' false s1 (i1 :: acc)
              end)
      end
  end.

(** The text after the opening bracket of a set. *)
Definition parse_set (s : string) : presult (regex * string) :=
  match s with
  | String c t =>
      if Ascii.eqb c "^" then
        pbind (parse_set_items (S (String.length t)) true t [])
              (fun '(items, s') => POk (In true items, s'))
      else
        pbind (parse_set_items (S (String.length s)) true s [])
              (fun '(items, s') => POk (In false items, s'))
  | EmptyString => PError UnterminatedSet
  end.

(** An atom other than a group, given its first character [c] and the
    text [t] after it; the flag tells an anchor, which takes no
    quantifier. *)
Definition parse_simple (c : ascii) (t : string) : presult (regex * bool * string) :=
  if Ascii.eqb c "\" then
    match t with
    | EmptyString => PError BadEscape
    | String e t' => pbind (parse_escape e) (fun r => POk (r, false, t'))
    end
  else if Ascii.eqb c "[" then pbind (parse_set t) (fun '(r, t') => POk (r, false, t'))
  else if Ascii.eqb c "." then POk (Any, false, t)
  else if Ascii.eqb c "^" then POk (Bol, true, t)
  else if Ascii.eqb c "$" then POk (Eol, true, t)
  else if Ascii.eqb c "{" then PUnsupported
  else if is_repeat_char c then PError NothingToRepeat
  else POk (Chr c, false, t).

(** In verbose mode, whitespace and [#]-comments between the items of a
    pattern are dropped. *)
Fixpoint skip_verbose (in_comment : bool) (s : string) : string :=
  match s with
  | EmptyString => EmptyString
  | String c t =>
      if in_comment then skip_verbose (negb (Ascii.eqb c nl)) t
      else if is_re_ws c then skip_verbose false t
      else if Ascii.eqb c "#" then skip_verbose true t
      else s
  end.

Definition skipv (vb : bool) (s : string) : string :=
  if vb then skip_verbose false s else s.

Definition starts_with (p : ascii -> bool) (s : string) : bool :=
  match s with
  | String c _ => p c
  | EmptyString => false
  end.

Definition quantify (q : ascii) (greedy : bool) (a : regex) : regex :=
  if Ascii.eqb q "*" then Star greedy a
  else if Ascii.eqb q "+" then Plus greedy a
  else Opt greedy a.

(** A quantifier after the atom [a], if there is one. *)
Definition parse_repeat (vb anchor : bool) (a : regex) (s : string)
  : presult (regex * string) :=
  match skipv vb s with
  | String q t =>
      if is_repeat_char q then
        if anchor then PError NothingToRepeat
        else
          let lazy := starts_with (Ascii.eqb "?") t in
          let t1 := if lazy then drop 1 t else t in
          if starts_with (Ascii.eqb "+") t1 then
            if lazy then PError MultipleRepeat else PUnsupported
          else if starts_with is_repeat_char (skipv vb t1) then PError MultipleRepeat
          else POk (quantify q (negb lazy) a, t1)
      else POk (a, s)
  | EmptyString => POk (a, s)
  end.

Fixpoint read_name (s : string) : option (string * string) :=
  match s with
  | EmptyString => None
  | String c t =>
      if Ascii.eqb c ">" then Some (EmptyString, t)
      else match read_name t with
           | Some (name, t') => Some (String c name, t')
           | None => None
           end
  end.

Definition is_identifier (s : string) : bool :=
  match s with
  | EmptyString => false
  | String c t =>
      (is_ascii_letter c || Ascii.eqb c "_")
      && all_chars (fun d => is_ascii_letter d || is_digit d || Ascii.eqb d "_") t
  end.

Inductive gkind := GNon | GCap (name : option string).

(** Capturing groups get their numbers once the whole pattern is read. *)
Definition wrap (k : gkind) (r : regex) : regex :=
  match k with
  | GNon => NGroup r
  | GCap name => Group 0 name r
  end.

(** What follows an opening parenthesis: the kind of group and the
    text its body starts at. *)
Definition parse_group_header (t : string) : presult (gkind * string) :=
  match t with
  | String c1 t1 =>
      if Ascii.eqb c1 "?" then
        match t1 with
        | EmptyString => PError UnexpectedEnd
        | String c2 t2 =>
            if Ascii.eqb c2 ":" then POk (GNon, t2)
            else if Ascii.eqb c2 "P" && starts_with (Ascii.eqb "<") t2 then
              match read_name (drop 1 t2) with
              | None => PError BadGroupName
              | Some (name, t4) =>
                  if negb (all_chars (fun c => code c <? 128) name) then PUnsupported
                  else if negb (is_identifier name) then PError BadGroupName
                  else POk (GCap (Some name), t4)
              end
            else PUnsupported
        end
      else POk (GCap None, t)
  | EmptyString => POk (GCap None, t)
  end.

(** A group, given the parser [psub] for its body and the text after
    the opening parenthesis. *)
Definition parse_group (psub : string -> presult (regex * string)) (t : string)
  : presult (regex * bool * string) :=
  pbind (parse_group_header t) (fun '(k, t1) =>
    pbind (psub t1) (fun '(r, t2) =>
      if starts_with (Ascii.eqb ")") t2
      then POk (wrap k r, false, drop 1 t2)
      else PError MissingParen)).

Definition parse_atom (psub : string -> presult (regex * string)) (c : ascii)
    (t : string) : presult (regex * bool * string) :=
  if Ascii.eqb c "(" then parse_group psub t else parse_simple c t.

(** The alternatives of a pattern, up to the end of the text or to a
    closing parenthesis. *)
Definition parse_alt (psub pseq : string -> presult (regex * string)) (s : string)
  : presult (regex * string) :=
  pbind (pseq s) (fun '(r, s1) =>
    if starts_with (Ascii.eqb "|") s1 then
      pbind (psub (drop 1 s1)) (fun '(r2, s3) => POk (Alt r r2, s3))
    else POk (r, s1)).

(** The items of one alternative. *)
Definition parse_items (vb : bool) (psub pseq : string -> presult (regex * string))
    (s : string) : presult (regex * string) :=
  match skipv vb s with
  | EmptyString => POk (Eps, EmptyString)
  | String c t =>
      if Ascii.eqb c "|" || Ascii.eqb c ")" then POk (Eps, String c t)
      else
        pbind (parse_atom psub c t) (fun '(a, anchor, s1) =>
          pbind (parse_repeat vb anchor a s1) (fun '(a', s2) =>
            pbind (pseq s2) (fun '(r, s3) => POk (Cat a' r, s3))))
  end.

Fixpoint parse_sub (n : nat) (vb : bool) (s : string) {struct n}
  : presult (regex * string) :=
  match n with
  | 0 => PFuel
  | S n' => parse_alt (parse_sub n' vb) (parse_seq n' vb) s
  end
with parse_seq (n : nat) (vb : bool) (s : string) {struct n}
  : presult (regex * string) :=
  match n with
  | 0 => PFuel
  | S n' => parse_items vb (parse_sub n' vb) (parse_seq n' vb) s
  end.

(** The names of the named groups of a pattern, in the order the
    groups open. *)
Fixpoint group_names (r : regex) : list string :=
  match r with
  | Cat a b | Alt a b => group_names a ++ group_names b
  | Star _ a | Plus _ a | Opt _ a | NGroup a => group_names a
  | Group _ (Some name) a => name :: group_names a
  | Group _ None a => group_names a
  | _ => []
  end.

Fixpoint mem_name (x : string) (l : list string) : bool :=
  match l with
  | [] => false
  | y :: l' => String.eqb x y || mem_name x l'
  end.

(** The first name that is used a second time. *)
Fixpoint first_redefined (l seen : list string) : option string :=
  match l with
  | [] => None
  | x :: l' => if mem_name x seen then Some x else first_redefined l' (x :: seen)
  end.

(** Capturing groups are numbered from 1 in the order they open. *)
Fixpoint number (r : regex) (next : nat) : regex * nat :=
  match r with
  | Cat a b =>
      let '(a', n1) := number a next in
      let '(b', n2) := number b n1 in (Cat a' b', n2)
  | Alt a b =>
      let '(a', n1) := number a next in
      let '(b', n2) := number b n1 in (Alt a' b', n2)
  | Star g a => let '(a', n1) := number a next in (Star g a', n1)
  | Plus g a => let '(a', n1) := number a next in (Plus g a', n1)
  | Opt g a => let '(a', n1) := number a next in (Opt g a', n1)
  | Group _ name a => let '(a', n1) := number a (S next) in (Group next name a', n1)
  | NGroup a => let '(a', n1) := number a next in (NGroup a', n1)
  | _ => (r, next)
  end.

(** The text of a pattern read into its syntax, with fuel that is
    enough for any pattern of this length. *)
Definition parse (vb : bool) (p : string) : presult (regex * string) :=
  parse_sub (2 * String.length p + 2) vb p.

(** [re.compile(pattern)], optionally with [re.VERBOSE].  When a
    pattern has several defects the error given here may be another
    one than Python's, which reports the leftmost. *)
Definition compile_with (vb : bool) (p : string) : presult regex :=
  pbind (parse vb p) (fun '(r, s) =>
    match s with
    | EmptyString =>
        match first_redefined (group_names r) [] with
        | Some name => PError (RedefinedGroup name)
        | None => POk (fst (number r 1))
        end
    | _ => PError UnbalancedParen
    end).

Definition compile (p : string) : presult regex := compile_with false p.

(** [re.escape]: a backslash before every character that is special in
    a pattern. *)
Definition is_special (c : ascii) : bool :=
  match c with
  | "("%char | ")"%char | "["%char | "]"%char | "{"%char | "}"%char
  | "?"%char | "*"%char | "+"%char | "-"%char | "|"%char | "^"%char
  | "$"%char | "\"%char | "."%char | "&"%char | "~"%char | "#"%char
  | " "%char | "009"%char | "010"%char | "013"%char | "011"%char | "012"%char => true
  | _ => false
  end.

Fixpoint escape (s : string) : string :=
  match s with
  | EmptyString => EmptyString
  | String c t =>
      if is_special c then String "\" (String c (escape t)) else String c (escape t)
  end.

(** ** The language of a pattern

    [Lang r n w s'] : at offset [n] of a subject that goes on with
    [w ++ s'], the pattern [r] can match exactly [w].  The offset and
    the text after the match are what the anchors look at. *)

Inductive star_lang (L : nat -> string -> string -> Prop)
  : nat -> string -> string -> Prop :=
| star_nil n s' : star_lang L n "" s'
| star_cons n w1 w2 s' :
    w1 <> "" ->
    L n w1 (w2 ++ s') ->
    star_lang L (n + String.length w1) w2 s' ->
    star_lang L n (w1 ++ w2) s'.

Fixpoint Lang (r : regex) : nat -> string -> string -> Prop :=
  match r with
  | Eps => fun _ w _ => w = ""
  | Chr c => fun _ w _ => w = String c ""
  | Any => fun _ w _ => exists c, w = String c "" /\ Ascii.eqb c nl = false
  | In neg items => fun _ w _ => exists c, w = String c "" /\ set_mem neg items c = true
  | Bol => fun n w _ => w = "" /\ n = 0
  | Eol => fun _ w s' => w = "" /\ (s' = "" \/ s' = String nl "")
  | Cat a b => fun n w s' =>
      exists w1 w2, w = w1 ++ w2 /\ Lang a n w1 (w2 ++ s')
                    /\ Lang b (n + String.length w1) w2 s'
  | Alt a b => fun n w s' => Lang a n w s' \/ Lang b n w s'
  | Star _ a => star_lang (Lang a)
  | Plus _ a => fun n w s' =>
      exists w1 w2, w = w1 ++ w2 /\ Lang a n w1 (w2 ++ s')
                    /\ star_lang (Lang a) (n + String.length w1) w2 s'
  | Opt _ a => fun n w s' => w = "" \/ Lang a n w s'
  | Group _ _ a => Lang a
  | NGroup a => Lang a
  end.

(** What it means for a matcher in continuation-passing style to be
    sound and complete for a language. *)
Definition sound (f : mstate -> cont -> option mstate)
    (L : nat -> string -> string -> Prop) : Prop :=
  forall st k res, f st k = Some res ->
    exists w s' cs, rest st = w ++ s' /\ L (pos st) w s'
                    /\ k (MState (pos st + String.length w) s' cs) = Some res.

Definition complete (f : mstate -> cont -> option mstate)
    (L : nat -> string -> string -> Prop) : Prop :=
  forall n w s' cs k, L n w s' ->
    (forall cs', k (MState (n + String.length w) s' cs') <> None) ->
    f (MState n (w ++ s') cs) k <> None.

End Re.

(** ** Lines and escaping *)

Record Line := mkLine { text : string; number : nat; file : string }.

(** Exceptions the program raises or lets through. *)
Inductive exn :=
| CheckerError (message : string) (line : option Line)
| ReError (e : Re.re_error)        (* [re.error] out of [re.compile] *)
| IndexError
| ValueError                       (* out of [shlex.split] *)
| Unmodelled.                      (* a pattern outside the modelled fragment *)

Inductive result (A : Type) :=
| Ok (a : A)
| Raise (e : exn).
Arguments Raise {A} e.

Definition bind {A B} (x : result A) (f : A -> result B) : result B :=
  match x with
  | Ok a => f a
  | Raise e => Raise e
  end.

Notation "x <- c ;; k" := (bind c (fun x => k))
  (at level 61, c at next level, right associativity).

Fixpoint mapM {A B} (f : A -> result B) (l : list A) : result (list B) :=
  match l with
  | [] => Ok []
  | a :: l' => b <- f a ;; bs <- mapM f l' ;; Ok (b :: bs)
  end.

Definition hexdigit (n : nat) : ascii :=
  if n <? 10 then ascii_of_nat (48 + n) else ascii_of_nat (87 + n).

(** [unicodedata.category(m)[0] == "C"] in the Latin-1 range. *)
Definition is_control (c : ascii) : bool :=
  in_range 0 31 c || in_range 127 159 c || (code c =? 173).

Definition esc (c : ascii) : string :=
  match c with
  | "010"%char => "\n"
  | "\"%char => "\\"
  | "'"%char => "\'"
  | "034"%char => String "\" (String "034" "")
  | "007"%char => "\a"
  | "008"%char => "\b"
  | "012"%char => "\f"
  | "013"%char => "\r"
  | "009"%char => "\t"
  | "011"%char => "\v"
  | _ =>
      if is_control c
      then String "\" (String "x" (String (hexdigit (code c / 16))
                                     (String (hexdigit (code c mod 16)) "")))
      else String c ""
  end.

Fixpoint escape_string (s : string) : string :=
  match s with
  | EmptyString => ""
  | String c t => esc c ++ escape_string t
  end.

(** [s.rstrip("\n")] *)
Fixpoint rstrip_nl (s : string) : string :=
  match s with
  | EmptyString => ""
  | String c t =>
      match rstrip_nl t with
      | EmptyString => if Ascii.eqb c nl then "" else String c ""
      | t' => String c t'
      end
  end.

Definition subline (l : Line) (t : string) : Line := mkLine t (number l) (file l).

Fixpoint enumerate_lines (idx : nat) (texts : list string) (name : string) : list Line :=
  match texts with
  | [] => []
  | t :: ts => mkLine t (idx + 1) name :: enumerate_lines (S idx) ts name
  end.

(** [Line.readfile]: the file is given as the lines its iteration yields. *)
Definition readfile (f : list string) (name : string) : list Line :=
  enumerate_lines 0 f name.

Definition is_empty_space (l : Line) : bool := all_chars isspace_char (text l).

Definition escaped_text (l : Line) : string := escape_string (rstrip_nl (text l)).

(** ** shlex.split

    The POSIX word splitting of [shlex.split]: [None] stands for the
    [ValueError] of an unclosed quotation or a trailing backslash. *)

Inductive shstate := ShSkip | ShWord | ShSingle | ShDouble
                   | ShEsc (back : bool (* inside double quotes *)).

Definition is_sh_ws (c : ascii) : bool :=
  match c with
  | " "%char | "009"%char | "013"%char | "010"%char => true
  | _ => false
  end.

Fixpoint shlex_loop (s : string) (st : shstate) (tok : string) (acc : list string)
  : option (list string) :=
  match s with
  | EmptyString =>
      match st with
      | ShSkip => Some acc
      | ShWord => Some (acc ++ [tok])%list
      | _ => None
      end
  | String c t =>
      match st with
      | ShSkip =>
          if is_sh_ws c then shlex_loop t ShSkip "" acc
          else if Ascii.eqb c "'" then shlex_loop t ShSingle "" acc
          else if Ascii.eqb c "034" then shlex_loop t ShDouble "" acc
          else if Ascii.eqb c "\" then shlex_loop t (ShEsc false) "" acc
          else shlex_loop t ShWord (String c "") acc
      | ShWord =>
          if is_sh_ws c then shlex_loop t ShSkip "" (acc ++ [tok])%list
          else if Ascii.eqb c "'" then shlex_loop t ShSingle tok acc
          else if Ascii.eqb c "034" then shlex_loop t ShDouble tok acc
          else if Ascii.eqb c "\" then shlex_loop t (ShEsc false) tok acc
          else shlex_loop t ShWord (tok ++ String c "") acc
      | ShSingle =>
          if Ascii.eqb c "'" then shlex_loop t ShWord tok acc
          else shlex_loop t ShSingle (tok ++ String c "") acc
      | ShDouble =>
          if Ascii.eqb c "034" then shlex_loop t ShWord tok acc
          else if Ascii.eqb c "\" then shlex_loop t (ShEsc true) tok acc
          else shlex_loop t ShDouble (tok ++ String c "") acc
      | ShEsc true =>
          if Ascii.eqb c "034" || Ascii.eqb c "\"
          then shlex_loop t ShDouble (tok ++ String c "") acc
          else shlex_loop t ShDouble (tok ++ String "\" (String c "")) acc
      | ShEsc false => shlex_loop t ShWord (tok ++ String c "") acc
      end
  end.

Definition shlex_split (s : string) : option (list string) :=
  shlex_loop s ShSkip "" [].

(** ** Directives *)

Definition COMMENT_RE : string := "^(?:[^#].*)?#\s*".

Definition compiled (p : string) : Re.regex :=
  match Re.compile p with
  | Re.POk r => r
  | _ => Re.In false []
  end.

Definition RUN_RE : Re.regex := compiled (COMMENT_RE ++ "RUN:\s+(.*)\n").
Definition CHECK_STDOUT_RE : Re.regex := compiled (COMMENT_RE ++ "CHECK:\s+(.*)\n").
Definition CHECK_STDERR_RE : Re.regex := compiled (COMMENT_RE ++ "CHECKERR:\s+(.*)\n").

Record RunCmd := mkRunCmd { args : string; run_line : Line }.

Definition RunCmd_parse (line : Line) : result RunCmd :=
  match shlex_split (text line) with
  | None => Raise ValueError
  | Some [] => Raise (CheckerError "Invalid RUN command" (Some line))
  | Some _ => Ok (mkRunCmd (text line) line)
  end.

Record CheckCmd := mkCheckCmd {
  check_line : Line;
  check_type : string;
  regex : Re.regex
}.

(** ** Substitution *)

Definition subs_t := list (string * string).

(** An element goes before the first one whose key is no longer than
    its own, so that equal lengths keep their order: [sorted] with
    [reverse=True] is stable. *)
Fixpoint insert_by_len (x : string * string) (l : subs_t) : subs_t :=
  match l with
  | [] => [x]
  | y :: l' =>
      if String.length (fst y) <=? String.length (fst x) then x :: l
      else y :: insert_by_len x l'
  end.

Fixpoint sorted_by_len (l : subs_t) : subs_t :=
  match l with
  | [] => []
  | x :: l' => insert_by_len x (sorted_by_len l')
  end.

Fixpoint subber_loop (subs_ordered : subs_t) (t : string) : string :=
  match subs_ordered with
  | [] => t
  | (key, replacement) :: rest =>
      if String.prefix key t then replacement ++ drop (String.length key) t
      else subber_loop rest t
  end.

Definition TOKEN_RE : Re.regex := compiled "%(%|[a-zA-Z0-9_-]+)".

Definition group1 (cs : list (nat * string)) : string :=
  match Re.group 1 cs with
  | Some w => w
  | None => ""
  end.

Definition perform_substitution (input_str : string) (subs : subs_t) : string :=
  let subs_ordered := sorted_by_len subs in
  let subber := fun cs => subber_loop subs_ordered (group1 cs) in
  Re.sub TOKEN_RE subber input_str.

(** ** Compiling check patterns *)

Definition bracket_re_src : string := "
                \{\{   # Two open brackets
                (.*?)  # Nongreedy capture
                \}\}   # Two close brackets
            ".

Definition bracket_re : Re.regex :=
  match Re.compile_with true bracket_re_src with
  | Re.POk r => r
  | _ => Re.In false []
  end.

(** The loop over the pieces of a check line: literals at even
    positions are escaped, patterns at odd positions are verified. *)
Fixpoint parse_pieces (line : Line) (pieces : list string) (even : bool)
    (re_strings : list string) : result (list string) :=
  match pieces with
  | [] => Ok re_strings
  | piece :: pieces' =>
      if even then
        parse_pieces line pieces' (negb even) (re_strings ++ [Re.escape piece])%list
      else
        match Re.compile piece with
        | Re.POk _ =>
            parse_pieces line pieces' (negb even) (re_strings ++ [piece])%list
        | Re.PError _ =>
            Raise (CheckerError ("Invalid regular expression: '" ++ piece ++ "'")
                                (Some line))
        | _ => Raise Unmodelled
        end
  end.

(** The pattern text compiled for a check: each piece in a
    non-capturing group, between the two anchors. *)
Definition full_re_source (re_strings : list string) : string :=
  let re_strings := map (fun s => "(?:" ++ s ++ ")") re_strings in
  let re_strings := (["^\s*"] ++ re_strings ++ ["\s*\n?$"])%list in
  String.concat "" re_strings.

Definition CheckCmd_parse (line : Line) (checktype : string) : result CheckCmd :=
  let pieces := Re.split bracket_re (text line) in
  re_strings <- parse_pieces line pieces true [] ;;
  match Re.compile (full_re_source re_strings) with
  | Re.POk full_re => Ok (mkCheckCmd line checktype full_re)
  | Re.PError e => Raise (ReError e)
  | _ => Raise Unmodelled
  end.

(** ** The checker of a fixture *)

Record Checker := mkChecker {
  checker_name : string;
  runcmds : list RunCmd;
  outchecks : list CheckCmd;
  errchecks : list CheckCmd
}.

(** The sublines holding group 1 of every line the pattern matches. *)
Fixpoint group1s (re : Re.regex) (lines : list Line) : list Line :=
  match lines with
  | [] => []
  | line :: lines' =>
      match Re.match_ re (text line) with
      | Some st => subline line (group1 (Re.caps st)) :: group1s re lines'
      | None => group1s re lines'
      end
  end.

(** [s[2:-1]] *)
Definition slice_2_m1 (s : string) : string :=
  take (String.length s - 1 - 2) (drop 2 s).

Definition Checker_init (name : string) (lines : list Line) : result Checker :=
  runcmds <- mapM RunCmd_parse (group1s RUN_RE lines) ;;
  runcmds <-
    match runcmds with
    | [] =>
        match lines with
        | [] => Raise IndexError
        | line0 :: _ =>
            if String.prefix "#!" (text line0)
            then Ok [mkRunCmd (slice_2_m1 (text line0) ++ " %s") line0]
            else Raise (CheckerError "No runlines ('# RUN') found" None)
        end
    | _ => Ok runcmds
    end ;;
  outchecks <- mapM (fun sl => CheckCmd_parse sl "CHECK")
                    (group1s CHECK_STDOUT_RE lines) ;;
  errchecks <- mapM (fun sl => CheckCmd_parse sl "CHECKERR")
                    (group1s CHECK_STDERR_RE lines) ;;
  Ok (mkChecker name runcmds outchecks errchecks).

(** ** Running a command and matching its output *)

Record Config := mkConfig { verbose : bool; colorize : bool; progress : bool }.

Record TestRun := mkTestRun {
  name : string;
  runcmd : RunCmd;
  subbed_command : string;
  checker : Checker;
  subs : subs_t;
  config : Config
}.

Definition TestRun_init (name : string) (runcmd : RunCmd) (checker : Checker)
    (subs : subs_t) (config : Config) : TestRun :=
  mkTestRun name runcmd (perform_substitution (args runcmd) subs) checker subs config.

(** The [diff] field holds the two sequences handed to [SequenceMatcher]. *)
Record TestFailure := mkTestFailure {
  fail_line : option Line;
  fail_check : option CheckCmd;
  testrun : TestRun;
  error_annotation_lines : option (list Line);
  diff : list string * list string;
  fail_lines : list Line;
  fail_checks : list CheckCmd
}.

Record check_acc := mkAcc {
  usedlines : list Line;
  usedchecks : list CheckCmd;
  text1 : list string;
  text2 : list string;
  mismatches : list (Line * CheckCmd)
}.

Definition matches (check : CheckCmd) (line : Line) : bool :=
  match Re.match_ (regex check) (text line) with
  | Some _ => true
  | None => false
  end.

(** The main loop of [TestRun.check].  The queues [lineq] and [checkq]
    are kept in document order, their head being the element the source
    finds at the end of its reversed list. *)
Fixpoint check_loop (lineq : list Line) (checkq : list CheckCmd) (a : check_acc)
    {struct lineq} : list Line * list CheckCmd * check_acc :=
  match lineq, checkq with
  | line :: lineq', check :: checkq' =>
      if matches check line then
        check_loop lineq' checkq'
          (mkAcc (usedlines a ++ [line]) (usedchecks a ++ [check])
                 (text1 a ++ [escaped_text line]) (text2 a ++ [escaped_text line])
                 (mismatches a))%list
      else if is_empty_space line then
        check_loop lineq' checkq a
      else
        let etext := escaped_text (check_line check) in
        check_loop lineq' checkq'
          (mkAcc (usedlines a ++ [line]) (usedchecks a ++ [check])
                 (text1 a ++ [escaped_text line])
                 (text2 a ++ [if negb (String.eqb etext (escaped_text line))
                              then etext else (" " ++ etext)%string])
                 (mismatches a ++ [(line, check)]))%list
  | _, _ => (lineq, checkq, a)
  end.

Fixpoint drain_empties (lineq : list Line) : list Line :=
  match lineq with
  | line :: lineq' => if is_empty_space line then drain_empties lineq' else lineq
  | [] => []
  end.

(** What [TestRun.check] does once the main loop is over. *)
Definition check_finish (self : TestRun)
    (r : list Line * list CheckCmd * check_acc) : option TestFailure :=
  let '(lineq, checkq, a) := r in
  let lineq := drain_empties lineq in
  let rest_lines := filter (fun i => negb (is_empty_space i)) lineq in
  let text1 := (text1 a ++ map escaped_text rest_lines)%list in
  let usedlines := (usedlines a ++ rest_lines)%list in
  let text2 := (text2 a ++ map (fun i => escaped_text (check_line i)) checkq)%list in
  let usedchecks := (usedchecks a ++ checkq)%list in
  let diff := (text1, text2) in
  match mismatches a, lineq, checkq with
  | (line, check) :: _, _, _ =>
      Some (mkTestFailure (Some line) (Some check) self None diff usedlines usedchecks)
  | [], line :: _, _ =>
      Some (mkTestFailure (Some line) None self None diff usedlines usedchecks)
  | [], [], check :: _ =>
      Some (mkTestFailure None (Some check) self None diff usedlines usedchecks)
  | [], [], [] => None
  end.

Definition TestRun_check (self : TestRun) (lines : list Line) (checks : list CheckCmd)
  : option TestFailure :=
  check_finish self (check_loop lines checks (mkAcc [] [] [] [] [])).

(** [s.split("\n")] *)
Fixpoint split_nl (s : string) (cur : string) : list string :=
  match s with
  | EmptyString => [cur]
  | String c t =>
      if Ascii.eqb c nl then cur :: split_nl t "" else split_nl t (cur ++ String c "")
  end.

Definition split_by_newlines (s : string) : list string :=
  map (fun s => s ++ String nl "") (split_nl s "").

(** What a spawned process leaves behind. *)
Record proc := mkProc { proc_stdout : string; proc_stderr : string; returncode : nat }.

Fixpoint last_text (l : list Line) : option string :=
  match l with
  | [] => None
  | [x] => Some (text x)
  | _ :: l' => last_text l'
  end.

Definition annotate (outfail errfail : TestFailure) (errlines : list Line)
  : result TestFailure :=
  match fail_line errfail with
  | Some eline =>
      let ann := skipn (number eline - 1) errlines in
      match last_text ann with
      | None => Raise IndexError
      | Some t =>
          let ann := if String.eqb t (String nl "") then removelast ann else ann in
          Ok (mkTestFailure (fail_line outfail) (fail_check outfail) (testrun outfail)
                            (Some ann) (diff outfail) (fail_lines outfail)
                            (fail_checks outfail))
      end
  | None => Ok outfail
  end.

(** [TestRun.run], given what the spawned process produced. *)
Definition TestRun_run (self : TestRun) (p : proc) : result (option TestFailure) :=
  if returncode p =? 127 then
    Raise (CheckerError ("Command could not be found: " ++ subbed_command self) None)
  else
    let outlines := enumerate_lines 0 (split_by_newlines (proc_stdout p)) "stdout" in
    let errlines := enumerate_lines 0 (split_by_newlines (proc_stderr p)) "stderr" in
    let outfail := TestRun_check self outlines (outchecks (checker self)) in
    let errfail := TestRun_check self errlines (errchecks (checker self)) in
    match outfail, errfail with
    | Some o, Some e => o' <- annotate o e errlines ;; Ok (Some o')
    | Some o, None => Ok (Some o)
    | None, _ => Ok errfail
    end.

(** ** Checking a file

    The world the commands run in is a state [W] with a transition
    [spawn] for [subprocess.Popen] followed by [communicate].  The
    failure handler's calls are collected in order. *)
Section CheckFile.
Variable W : Type.
Variable spawn : W -> string -> proc * W.

Fixpoint run_all (name : string) (checker : Checker) (subs : subs_t)
    (config : Config) (cmds : list RunCmd) (w : W) (success : bool)
    (handled : list TestFailure) : result (bool * list TestFailure) * W :=
  match cmds with
  | [] => (Ok (success, handled), w)
  | runcmd :: cmds' =>
      let self := TestRun_init name runcmd checker subs config in
      let '(p, w') := spawn w (subbed_command self) in
      match TestRun_run self p with
      | Raise e => (Raise e, w')
      | Ok (Some failure) =>
          run_all name checker subs config cmds' w' false (handled ++ [failure])%list
      | Ok None => run_all name checker subs config cmds' w' success handled
      end
  end.

Definition check_file (input_file : list string) (name : string) (subs : subs_t)
    (config : Config) (w : W) : result (bool * list TestFailure) * W :=
  let lines := readfile input_file name in
  match Checker_init name lines with
  | Raise e => (Raise e, w)
  | Ok checker => run_all name checker subs config (runcmds checker) w true []
  end.
End CheckFile.

(** ** The matching algorithm in the words of the specification

    The specification describes the matcher as repeatedly inspecting
    the earliest unconsumed line and the earliest unconsumed pattern.
    [spec_step] is one such inspection on a configuration of remaining
    lines, remaining patterns and the first mismatch recorded so far;
    [spec_outcome] is the verdict on the configuration the inspections
    end in. *)

Definition spec_config : Type := list Line * list CheckCmd * option (Line * CheckCmd).

Inductive spec_step : spec_config -> spec_config -> Prop :=
| step_match line lines check checks fm :
    matches check line = true ->
    spec_step (line :: lines, check :: checks, fm) (lines, checks, fm)
| step_blank line lines check checks fm :
    matches check line = false ->
    is_empty_space line = true ->
    spec_step (line :: lines, check :: checks, fm) (lines, check :: checks, fm)
| step_mismatch line lines check checks fm :
    matches check line = false ->
    is_empty_space line = false ->
    spec_step (line :: lines, check :: checks, fm)
              (lines, checks, match fm with
                              | None => Some (line, check)
                              | Some first => Some first
                              end).

Inductive spec_steps : spec_config -> spec_config -> Prop :=
| steps_refl c : spec_steps c c
| steps_step c1 c2 c3 : spec_step c1 c2 -> spec_steps c2 c3 -> spec_steps c1 c3.

(** The loop stops when the lines or the patterns run out. *)
Definition spec_final (c : spec_config) : Prop :=
  fst (fst c) = [] \/ snd (fst c) = [].

Inductive MatchOutcome :=
| Success
| Failure (line : option Line) (check : option CheckCmd).

(** Blank lines are no content to match: the leftover lines are the
    unconsumed lines that are not blank. *)
Definition leftover_lines (lines : list Line) : list Line :=
  filter (fun l => negb (is_empty_space l)) lines.

Definition spec_outcome (c : spec_config) : MatchOutcome :=
  let '(lines, checks, fm) := c in
  match fm with
  | Some (line, check) => Failure (Some line) (Some check)
  | None =>
      match leftover_lines lines with
      | line :: _ => Failure (Some line) None
      | [] =>
          match checks with
          | check :: _ => Failure None (Some check)
          | [] => Success
          end
      end
  end.

(** What a result of [TestRun.check] is anchored at. *)
Definition anchoring (r : option TestFailure) : MatchOutcome :=
  match r with
  | None => Success
  | Some f => Failure (fail_line f) (fail_check f)
  end.

(** ** Auxiliary notions for the statements *)

(** The lines the iteration of a text file yields: each runs up to and
    including its newline; the last one may lack it. *)
Fixpoint file_iter_from (s : string) (cur : string) : list string :=
  match s with
  | EmptyString => match cur with EmptyString => [] | _ => [cur] end
  | String c t =>
      if Ascii.eqb c nl then (cur ++ String nl "") :: file_iter_from t ""
      else file_iter_from t (cur ++ String c "")
  end.

Definition file_iter (content : string) : list string := file_iter_from content "".

Fixpoint ends_with_nl (s : string) : bool :=
  match s with
  | EmptyString => false
  | String c EmptyString => Ascii.eqb c nl
  | String _ t => ends_with_nl t
  end.

(** A world that keeps a record of the commands it ran and of what
    they produced. *)
Definition logged (W : Type) (spawn : W -> string -> proc * W)
  : W * list (string * proc) -> string -> proc * (W * list (string * proc)) :=
  fun '(w, log) cmd =>
    let '(p, w') := spawn w cmd in (p, (w', (log ++ [(cmd, p)])%list)).

(** ** Data for the examples *)

Definition example_config : Config := mkConfig false false false.
Definition example_checker : Checker := mkChecker "f" [] [] [].
Definition example_run : TestRun :=
  TestRun_init "f" (mkRunCmd "true" (mkLine "true" 1 "f")) example_checker
               [("%", "%")] example_config.

(** The check compiled from a payload found on line [n] of a fixture. *)
Definition check_of (payload : string) (n : nat) : CheckCmd :=
  match CheckCmd_parse (mkLine payload n "f") "CHECK" with
  | Ok c => c
  | Raise _ => mkCheckCmd (mkLine payload n "f") "CHECK" (Re.In false [])
  end.

(** Line [n] of a command's output. *)
Definition out_line (t : string) (n : nat) : Line :=
  mkLine (t ++ String nl "") n "stdout".

(** A blank line that no check of a list accepts. *)
Definition unmatched_blank (checks : list CheckCmd) (l : Line) : Prop :=
  is_empty_space l = true /\ forall c, In c checks -> matches c l = false.

(** The blank-skip property as the specification words it. *)
Definition blank_skip_claim : Prop :=
  forall (self : TestRun) (before blanks after : list Line) (checks : list CheckCmd),
    before <> [] -> after <> [] ->
    Forall (fun l => is_empty_space l = true) blanks ->
    anchoring (TestRun_check self (before ++ blanks ++ after) checks)
    = anchoring (TestRun_check self (before ++ after) checks).

(** Whether the check compiled from a payload accepts a line. *)
Definition accepts (c : CheckCmd) (t : string) : bool :=
  match Re.match_ (regex c) t with
  | Some _ => true
  | None => false
  end.

(** The non-bleed property as the specification words it. *)
Definition non_bleed_claim : Prop :=
  forall c, CheckCmd_parse (mkLine "{{b|c}}d" 1 "f") "CHECK" = Ok c ->
    accepts c "b" = true /\ accepts c "cd" = true /\ accepts c "bd" = false.

(** The failures among the outcomes of the runs of a fixture, given
    the commands and what the world recorded for each. *)
Definition run_outcome (name : string) (checker : Checker) (subs : subs_t)
    (config : Config) (rc : RunCmd) (entry : string * proc)
  : result (option TestFailure) :=
  TestRun_run (TestRun_init name rc checker subs config) (snd entry).

Definition failures_of (name : string) (checker : Checker) (subs : subs_t)
    (config : Config) (cmds : list RunCmd) (log : list (string * proc))
  : list TestFailure :=
  flat_map (fun '(rc, entry) =>
              match run_outcome name checker subs config rc entry with
              | Ok (Some f) => [f]
              | _ => []
              end) (combine cmds log).

Definition const_world (p : proc) : unit -> string -> proc * unit :=
  fun _ _ => (p, tt).

Definition example_fixture : list string :=
  ["# RUN: echo x" ++ String nl "";
   "true # RUN: echo %s" ++ String nl "";
   "# CHECK: y" ++ String nl ""].

Fixpoint contains_nl (s : string) : bool :=
  match s with
  | EmptyString => false
  | String c t => Ascii.eqb c nl || contains_nl t
  end.

(** A syntactic check that every match of a pattern contains a newline. *)
Fixpoint needs_nl (r : Re.regex) : bool :=
  match r with
  | Re.Chr c => Ascii.eqb c nl
  | Re.Cat a b => needs_nl a || needs_nl b
  | Re.Alt a b => needs_nl a && needs_nl b
  | Re.Plus _ a | Re.Group _ _ a | Re.NGroup a => needs_nl a
  | _ => false
  end.

(** The patterns found between the braces of a check line: the pieces
    at odd positions. *)
Fixpoint spans_of (pieces : list string) (even : bool) : list string :=
  match pieces with
  | [] => []
  | piece :: pieces' =>
      if even then spans_of pieces' (negb even)
      else piece :: spans_of pieces' (negb even)
  end.

Definition parses (p : string) : Prop := exists r, Re.compile p = Re.POk r.
Definition invalid (p : string) : Prop := exists e, Re.compile p = Re.PError e.

(** The identifier characters of a substitution token. *)
Definition ident_items : list Re.setitem :=
  [Re.IRange "a" "z"; Re.IRange "A" "Z"; Re.IRange "0" "9"; Re.IChar "_"; Re.IChar "-"].

Definition is_ident_char (c : ascii) : bool := Re.set_mem false ident_items c.

(** A run of identifier characters: what [[a-zA-Z0-9_-]+] captures. *)
Definition is_ident_run (s : string) : bool :=
  match s with
  | EmptyString => false
  | _ => all_chars is_ident_char s
  end.

(** The text [re.sub] puts in the place of a piece of the template. *)
Definition emitted (subs : subs_t) (p : Re.piece) : string :=
  match p with
  | Re.Gap t => t
  | Re.Hit _ cs => subber_loop (sorted_by_len subs) (group1 cs)
  end.

(** The claim on unregistered tokens as the specification words it, on
    the template that is just the token. *)
Definition unsubstituted_claim : Prop :=
  forall (subs : subs_t) (ident : string),
    is_ident_run ident = true ->
    (forall k v, In (k, v) subs -> String.prefix k ident = false) ->
    perform_substitution ("%" ++ ident) subs = "%" ++ ident.

(** Keys in the order [subber] tries them: no key is longer than one
    before it. *)
Definition longer_first (x y : string * string) : Prop :=
  String.length (fst y) <= String.length (fst x).

(** A text that may follow a piece of a pattern inside a group: the
    closing parenthesis and what comes after it, or nothing. *)
Definition ok_tail (t : string) : Prop :=
  match t with
  | EmptyString => True
  | String c _ => c = ")"%char
  end.

(** A parser that reads [s ++ t] as it reads [s], whatever the
    admissible text [t]. *)
Definition extends (f g : string -> Re.presult (Re.regex * string)) : Prop :=
  forall s r s1, f s = Re.POk (r, s1) ->
    forall t, ok_tail t -> g (s ++ t) = Re.POk (r, s1 ++ t).

(** The pattern of a literal text: its characters one after the other. *)
Fixpoint lits (t : string) : Re.regex :=
  match t with
  | EmptyString => Re.Eps
  | String c t' => Re.Cat (Re.Chr c) (lits t')
  end.

(** The shape of a compiled check: the pieces [rs], each in its group,
    between the whitespace and the anchors. *)
Definition WS : Re.regex := Re.In false [Re.IClass false Re.CSpace].

Definition tail_re : Re.regex :=
  Re.Cat (Re.Star true WS) (Re.Cat (Re.Opt true (Re.Chr nl)) (Re.Cat Re.Eol Re.Eps)).

Definition groups (rs : list Re.regex) (rest : Re.regex) : Re.regex :=
  fold_right (fun r acc => Re.Cat (Re.NGroup r) acc) rest rs.

Definition skeleton (rs : list Re.regex) : Re.regex :=
  Re.Cat Re.Bol (Re.Cat (Re.Star true WS) (groups rs tail_re)).

(** A pattern text that is read to its end as [r]. *)
Definition reads_as (s : string) (r : Re.regex) : Prop :=
  Re.parse false s = Re.POk (r, "").

(** The patterns [rs] of the pieces of a check line: the pattern of
    its characters for a literal piece, what the text is read as for a
    piece found between braces. *)
Fixpoint pieces_read (pieces : list string) (even : bool) (rs : list Re.regex) : Prop :=
  match pieces, rs with
  | [], [] => True
  | piece :: pieces', r :: rs' =>
      (if even then r = lits piece else reads_as piece r)
      /\ pieces_read pieces' (negb even) rs'
  | _, _ => False
  end.

(** The pattern text of a check after its opening anchor. *)
Definition wrapped (re_strings : list string) : string :=
  String.concat "" (map (fun s => "(?:" ++ s ++ ")") re_strings) ++ "\s*\n?$".

(** A parsing step on [s] that did not run out of fuel and, when it
    succeeds, leaves a text no longer than [s]. *)
Definition good {A : Type} (x : Re.presult (A * string)) (s : string) : Prop :=
  x <> Re.PFuel
  /\ forall a s1, x = Re.POk (a, s1) -> String.length s1 <= String.length s.

(** The same with a text strictly shorter than [s]. *)
Definition good_lt {A : Type} (x : Re.presult (A * string)) (s : string) : Prop :=
  x <> Re.PFuel
  /\ forall a s1, x = Re.POk (a, s1) -> String.length s1 < String.length s.

(** ** The command line *)

(** [s.split("=", 1)] for a text that holds an equal sign: the text
    before the first one and the text after it.  [None] stands for a
    text without an equal sign: the split then has one element, and
    unpacking it into a key and a value raises [ValueError]. *)
Fixpoint split_eq (s : string) : option (string * string) :=
  match s with
  | EmptyString => None
  | String c t =>
      if Ascii.eqb c "=" then Some ("", t)
      else match split_eq t with
           | Some (key, val) => Some (String c key, val)
           | None => None
           end
  end.

(** [d[key] = val] on a dict, kept as the list of its items in the
    order of insertion: the value of a key that is present is replaced
    where it stands. *)
Fixpoint dict_set (d : subs_t) (key val : string) : subs_t :=
  match d with
  | [] => [(key, val)]
  | (k, v) :: d' =>
      if String.eqb k key then (k, val) :: d' else (k, v) :: dict_set d' key val
  end.

(** [d.update(other)] *)
Definition dict_update (d other : subs_t) : subs_t :=
  fold_left (fun d kv => dict_set d (fst kv) (snd kv)) other d.

(** What a function that may call [sys.exit] comes to: the value it
    returns, or the exit with its status, after the text it printed. *)
Inductive exits (A : Type) :=
| Returns (a : A)
| SysExit (status : nat) (printed : string).
Arguments SysExit {A} status printed.

Fixpoint parse_subs_loop (subs : list string) (result : subs_t) : exits subs_t :=
  match subs with
  | [] => Returns result
  | sub :: subs' =>
      match split_eq sub with
      | Some (key, val) =>
          if String.eqb key "" then
            SysExit 1 ("Invalid substitution " ++ sub ++ ": empty key" ++ String nl "")
          else if String.eqb val "" then
            SysExit 1 ("Invalid substitution " ++ sub ++ ": empty value" ++ String nl "")
          else parse_subs_loop subs' (dict_set result key val)
      | None =>
          SysExit 1 ("Invalid substitution " ++ sub ++ ": equal sign not found"
                     ++ String nl "")
      end
  end.

Definition parse_subs (subs : list string) : exits subs_t :=
  parse_subs_loop subs [].

(** The arguments [get_argparse] hands to [main]. *)
Record Args := mkArgs {
  arg_substitute : list string;
  arg_progress : bool;
  arg_file : list string
}.

(** How [main] ends: [sys.exit] with the number of failures, the exit
    out of [parse_subs], an exception nobody catches, or a fixture
    that cannot be opened. *)
Inductive main_result :=
| Exited (status : nat)
| BadSubstitution (status : nat) (printed : string)
| Uncaught (e : exn)
| OpenFailed (path : string).

(** The substitutions for the fixture at [path]: a copy of the
    defaults in which [s] stands for the path. *)
Definition file_subs (def_subs : subs_t) (path : string) : subs_t :=
  dict_set def_subs "s" path.

(** [main], with [TestFailure.print_message] as the failure handler:
    the failures it is called with are collected in order, those of a
    fixture that ends in an exception left aside.  [open_] gives the
    lines of the file at a path, if it can be opened; what is printed
    about the progress is not modelled. *)
Section Main.
Variable W : Type.
Variable spawn : W -> string -> proc * W.
Variable open_ : W -> string -> option (list string).

Definition check_path (path : string) (subs : subs_t) (config : Config) (w : W)
  : option (result (bool * list TestFailure) * W) :=
  match open_ w path with
  | Some fd => Some (check_file spawn fd path subs config w)
  | None => None
  end.

Fixpoint main_loop (def_subs : subs_t) (config : Config) (paths : list string)
    (w : W) (failure_count : nat) (reported : list TestFailure)
  : main_result * list TestFailure * W :=
  match paths with
  | [] => (Exited failure_count, reported, w)
  | path :: paths' =>
      let subs := file_subs def_subs path in
      match check_path path subs config w with
      | None => (OpenFailed path, reported, w)
      | Some (Raise e, w') => (Uncaught e, reported, w')
      | Some (Ok (success, handled), w') =>
          main_loop def_subs config paths' w'
                    (if success then failure_count else S failure_count)
                    (reported ++ handled)%list
      end
  end.

Definition main (args : Args) (isatty : bool) (w : W)
  : main_result * list TestFailure * W :=
  match parse_subs (arg_substitute args) with
  | SysExit status printed => (BadSubstitution status printed, [], w)
  | Returns user =>
      let def_subs := dict_update [("%", "%")] user in
      let config := mkConfig false isatty (arg_progress args) in
      main_loop def_subs config (arg_file args) w 0 []
  end.
End Main.

(** ** Further notions for the statements *)

(** An alignment of output lines with checks: every check is matched
    by a line of its own, in order, and every other line is blank. *)
Inductive aligned : list Line -> list CheckCmd -> Prop :=
| aligned_done lines :
    Forall (fun l => is_empty_space l = true) lines -> aligned lines []
| aligned_match l lines c checks :
    matches c l = true -> aligned lines checks -> aligned (l :: lines) (c :: checks)
| aligned_blank l lines checks :
    is_empty_space l = true -> aligned lines checks -> aligned (l :: lines) checks.

(** What a failure may be anchored at, among the lines and the checks
    that were compared. *)
Definition anchored_in (lines : list Line) (checks : list CheckCmd) (f : TestFailure)
  : Prop :=
  match fail_line f, fail_check f with
  | Some l, Some c =>
      In l lines /\ In c checks /\ matches c l = false /\ is_empty_space l = false
  | Some l, None => In l lines /\ is_empty_space l = false
  | None, Some c => In c checks
  | None, None => False
  end.

(** A check compiled from a check line that holds no pattern span, and
    an output line that is the text of this check line. *)
Definition literal_pair (c : CheckCmd) (l : Line) : Prop :=
  exists line checktype,
    CheckCmd_parse line checktype = Ok c
    /\ Re.split bracket_re (text line) = [text line]
    /\ text l = text line ++ String nl "".

(** The lines [TestRun.run] makes of the two outputs of a process. *)
Definition outlines_of (p : proc) : list Line :=
  enumerate_lines 0 (split_by_newlines (proc_stdout p)) "stdout".

Definition errlines_of (p : proc) : list Line :=
  enumerate_lines 0 (split_by_newlines (proc_stderr p)) "stderr".

(** The number of newlines of a text. *)
Fixpoint count_nl (s : string) : nat :=
  match s with
  | EmptyString => 0
  | String c t => (if Ascii.eqb c nl then 1 else 0) + count_nl t
  end.

(** Two failures that differ at most in the annotation. *)
Definition same_report (f o : TestFailure) : Prop :=
  fail_line f = fail_line o /\ fail_check f = fail_check o
  /\ testrun f = testrun o /\ diff f = diff o
  /\ fail_lines f = fail_lines o /\ fail_checks f = fail_checks o.

(** A check compiled from a check line that holds no pattern span and
    whose text is [t]. *)
Definition literal_check (c : CheckCmd) (t : string) : Prop :=
  exists line checktype,
    CheckCmd_parse line checktype = Ok c
    /\ Re.split bracket_re (text line) = [text line]
    /\ text line = t.

(** A run with a check on each output, a process that satisfies
    neither, and the failure [TestRun.run] returns for them. *)
Definition example_checked_run : TestRun :=
  TestRun_init "f" (mkRunCmd "true" (mkLine "true" 1 "f"))
               (mkChecker "f" [] [check_of "a" 2] [check_of "b" 3])
               [("%", "%")] example_config.

Definition example_proc : proc :=
  mkProc ("x" ++ String nl "") ("b" ++ String nl "oops" ++ String nl "") 1.

Definition example_annotated : TestFailure :=
  mkTestFailure (Some (mkLine ("x" ++ String nl "") 1 "stdout"))
                (Some (check_of "a" 2)) example_checked_run
                (Some [mkLine ("oops" ++ String nl "") 2 "stderr"])
                (["x"], ["a"]) [mkLine ("x" ++ String nl "") 1 "stdout"]
                [check_of "a" 2].

(** A text without a percent sign. *)
Definition no_percent (s : string) : bool :=
  all_chars (fun c => negb (Ascii.eqb c "%")) s.

(** The longest prefix of a text whose characters satisfy a test. *)
Fixpoint span (p : ascii -> bool) (s : string) : string :=
  match s with
  | String c t => if p c then String c (span p t) else ""
  | EmptyString => ""
  end.

(** A text before which an identifier ends: it is empty or starts with
    a character that is not an identifier character. *)
Definition delimited (b : string) : bool :=
  match b with
  | EmptyString => true
  | String c _ => negb (is_ident_char c)
  end.



(** A character that is not a control character ([unicodedata]'s
    categories that start with C). *)
Definition printable (c : ascii) : bool := negb (is_control c).

(** The pattern of a directive with keyword [kw], as the compiler
    reads [COMMENT_RE] followed by the keyword and the payload. *)
Fixpoint chars_then (kw : string) (rest : Re.regex) : Re.regex :=
  match kw with
  | EmptyString => rest
  | String c kw' => Re.Cat (Re.Chr c) (chars_then kw' rest)
  end.

Definition payload_re : Re.regex :=
  Re.Cat (Re.Group 1 None (Re.Cat (Re.Star true Re.Any) Re.Eps))
         (Re.Cat (Re.Chr nl) Re.Eps).

Definition directive_re (kw : string) : Re.regex :=
  Re.Cat Re.Bol
    (Re.Cat (Re.Opt true
               (Re.NGroup (Re.Cat (Re.In true [Re.IChar "#"])
                                  (Re.Cat (Re.Star true Re.Any) Re.Eps))))
       (Re.Cat (Re.Chr "#")
          (Re.Cat (Re.Star true WS)
             (chars_then kw (Re.Cat (Re.Plus true WS) payload_re))))).

(** A text that starts with a character that is not whitespace. *)
Definition starts_nonspace (p : string) : bool :=
  match p with
  | EmptyString => false
  | String c _ => negb (isspace_char c)
  end.

(** A line that is a directive from its first character on: a number
    sign, whitespace or none, the keyword, whitespace, the payload. *)
Definition directive_line (kw ws1 ws2 p : string) (n : nat) (f : string) : Line :=
  mkLine ("#" ++ ws1 ++ kw ++ ws2 ++ p ++ String nl "") n f.

(** The checker of the example fixture. *)
Definition example_parsed : Checker :=
  match Checker_init "f" (readfile example_fixture "f") with
  | Ok ck => ck
  | Raise _ => example_checker
  end.

(** What may stand before the number sign of a directive: nothing, or
    a character that is not a number sign followed by anything but a
    newline. *)
Definition comment_prefix (pre : string) : bool :=
  match pre with
  | EmptyString => true
  | String c pre' => negb (Ascii.eqb c "#") && negb (contains_nl pre')
  end.

(** A text that carries a directive with keyword [kw]. *)
Definition carries (kw t : string) : Prop :=
  exists pre ws1 ws2 p rest,
    t = pre ++ "#" ++ ws1 ++ kw ++ ws2 ++ p ++ String nl rest
    /\ comment_prefix pre = true
    /\ all_chars isspace_char ws1 = true
    /\ ws2 <> "" /\ all_chars isspace_char ws2 = true
    /\ contains_nl p = false.

(** A text without an equal sign. *)
Definition no_equal (s : string) : bool :=
  all_chars (fun c => negb (Ascii.eqb c "=")) s.

(** A substitution argument that [parse_subs] accepts: a key without
    an equal sign, an equal sign and a value, neither of them empty. *)
Definition well_formed_sub (s : string) : Prop :=
  exists key val,
    s = key ++ "=" ++ val /\ no_equal key = true /\ key <> "" /\ val <> "".

(** The key of a substitution argument. *)
Definition key_of (s : string) : option string :=
  match split_eq s with
  | Some (key, _) => Some key
  | None => None
  end.

(** A world in which every command prints [x] and every path opens
    the example fixture. *)
Definition example_open : unit -> string -> option (list string) :=
  fun _ _ => Some example_fixture.

(** A command line with one substitution and two fixtures, in a world
    where every command prints [x] and every path opens the example
    fixture; and how [main] ends there. *)
Definition example_args : Args := mkArgs ["sh=/bin/sh"] false ["f"; "g"].

Definition example_main : main_result * list TestFailure * unit :=
  main (const_world (mkProc ("x" ++ String nl "") "" 0)) example_open
       example_args false tt.

Definition example_status : nat :=
  match fst (fst example_main) with
  | Exited n => n
  | _ => 0
  end.

Definition example_reported : list TestFailure := snd (fst example_main).

(** The checker of a fixture that starts with a shebang line. *)
Definition example_shebang_checker : Checker :=
  match Checker_init "f" (readfile ["#!/bin/sh -e" ++ String nl "";
                                    "echo a" ++ String nl "";
                                    "# CHECK: a" ++ String nl ""] "f") with
  | Ok ck => ck
  | Raise _ => example_checker
  end.

(** The failure of a check in which the second line does not match
    the second check. *)
Definition example_mismatch : TestFailure :=
  mkTestFailure (Some (out_line "x" 2)) (Some (check_of "b" 2)) example_run None
                (["a"; "x"], ["a"; "b"]) [out_line "a" 1; out_line "x" 2]
                [check_of "a" 1; check_of "b" 2].

(** * Properties *)

(** ** Strings *)

Lemma sapp_nil_r (s : string) : s ++ "" = s.
Proof. induction s; simpl; congruence. Qed.

Lemma sapp_assoc (a b c : string) : (a ++ b) ++ c = a ++ (b ++ c).
Proof. induction a; simpl; congruence. Qed.

Lemma slength_app (a b : string) :
  String.length (a ++ b) = String.length a + String.length b.
Proof. induction a; simpl; congruence. Qed.

Lemma slength_zero (s : string) : String.length s = 0 -> s = "".
Proof. destruct s; simpl; [reflexivity | discriminate]. Qed.

Lemma sapp_inv_head (a b c : string) : a ++ b = a ++ c -> b = c.
Proof. induction a; simpl; intros H; [assumption | injection H; auto]. Qed.

Lemma take_app (a b : string) : take (String.length a) (a ++ b) = a.
Proof.
  unfold take. induction a; simpl.
  - destruct b; reflexivity.
  - now rewrite IHa.
Qed.

Lemma drop_app (a b : string) : drop (String.length a) (a ++ b) = b.
Proof. induction a; simpl; [destruct b; reflexivity | assumption]. Qed.

Module ReFacts.
Import Re.

Lemma eat_sound (p : ascii -> bool) :
  sound (eat p) (fun _ w _ => exists c, w = String c "" /\ p c = true).
Proof.
  intros [n s cs] k res. unfold eat; simpl.
  destruct s as [|c t]; [discriminate|].
  destruct (p c) eqn:Hp; [|discriminate].
  intros H. exists (String c ""), t, cs. simpl.
  repeat split; eauto. now rewrite Nat.add_1_r.
Qed.

Lemma eat_complete (p : ascii -> bool) :
  complete (eat p) (fun _ w _ => exists c, w = String c "" /\ p c = true).
Proof.
  intros n w s' cs k (c & -> & Hp) Hk. unfold eat; simpl. rewrite Hp.
  specialize (Hk cs). simpl in Hk. now rewrite Nat.add_1_r in Hk.
Qed.

Lemma star_loop_sound body L g :
  sound body L -> forall n, sound (star_loop body g n) (star_lang L).
Proof.
  intros Hb n. induction n as [|n IH]; intros st k res H.
  - simpl in H. exists "", (rest st), (caps st). simpl.
    rewrite Nat.add_0_r. destruct st; simpl in *. auto using star_nil.
  - simpl in H.
    assert (Hstop : k st = Some res ->
            exists w s' cs, rest st = w ++ s' /\ star_lang L (pos st) w s'
                            /\ k (MState (pos st + String.length w) s' cs) = Some res).
    { intros Hk. exists "", (rest st), (caps st). simpl.
      rewrite Nat.add_0_r. destruct st; simpl in *. auto using star_nil. }
    assert (Hiter : body st (fun st' =>
                 if String.length (rest st') <? String.length (rest st)
                 then star_loop body g n st' k else None) = Some res ->
            exists w s' cs, rest st = w ++ s' /\ star_lang L (pos st) w s'
                            /\ k (MState (pos st + String.length w) s' cs) = Some res).
    { intros Hi. apply Hb in Hi. destruct Hi as (w1 & s1 & cs1 & E1 & L1 & K1).
      simpl in K1. destruct (String.length s1 <? String.length (rest st)) eqn:Hlt;
        [|discriminate].
      apply IH in K1. destruct K1 as (w2 & s2 & cs2 & E2 & L2 & K2). simpl in *.
      subst s1. exists (w1 ++ w2), s2, cs2. repeat split.
      - now rewrite E1, sapp_assoc.
      - apply star_cons; auto.
        intros ->. apply Nat.ltb_lt in Hlt. rewrite E1 in Hlt. simpl in Hlt. lia.
      - now rewrite slength_app, Nat.add_assoc. }
    destruct g.
    + destruct (body st _) eqn:Hi.
      * injection H as <-. now apply Hiter.
      * now apply Hstop.
    + destruct (k st) eqn:Hk.
      * injection H as <-. now apply Hstop.
      * now apply Hiter.
Qed.

Lemma star_loop_complete body L g :
  complete body L ->
  forall n w s', star_lang L n w s' ->
  forall fuel cs k, String.length (w ++ s') <= fuel ->
    (forall cs', k (MState (n + String.length w) s' cs') <> None) ->
    star_loop body g fuel (MState n (w ++ s') cs) k <> None.
Proof.
  intros Hb n w s' HL. induction HL as [n s'|n w1 w2 s' Hne H1 H2 IH];
    intros fuel cs k Hfuel Hk.
  - specialize (Hk cs). simpl in Hk. rewrite Nat.add_0_r in Hk. simpl.
    destruct fuel; simpl; [assumption|].
    destruct g.
    + destruct (body _ _); [discriminate | assumption].
    + destruct (k _); [discriminate | contradiction].
  - destruct fuel as [|fuel].
    { rewrite !slength_app in Hfuel. destruct w1; [congruence | simpl in Hfuel; lia]. }
    assert (Hiter : body (MState n ((w1 ++ w2) ++ s') cs) (fun st' =>
                 if String.length (rest st') <? String.length ((w1 ++ w2) ++ s')
                 then star_loop body g fuel st' k else None) <> None).
    { rewrite sapp_assoc. apply Hb; [assumption|]. intros cs'. simpl.
      replace (String.length (w2 ++ s') <? String.length (w1 ++ w2 ++ s')) with true.
      - apply IH.
        + rewrite sapp_assoc, slength_app in Hfuel.
          destruct w1; [congruence | simpl in Hfuel; lia].
        + intros cs''. rewrite <- Nat.add_assoc, <- slength_app. apply Hk.
      - symmetry. apply Nat.ltb_lt. rewrite (slength_app w1).
        destruct w1; [congruence | simpl; lia]. }
    simpl. destruct g.
    + destruct (body _ _); [discriminate | contradiction].
    + destruct (k _); [discriminate | assumption].
Qed.

Theorem m_sound (r : regex) : sound (m r) (Lang r).
Proof.
  induction r; intros st k res H; simpl in H.
  - exists "", (rest st), (caps st). simpl. rewrite Nat.add_0_r.
    destruct st; auto.
  - apply eat_sound in H. destruct H as (w & s' & cs & E & (d & -> & Hd) & K).
    apply Ascii.eqb_eq in Hd. subst d. exists (String c ""), s', cs. simpl; auto.
  - apply eat_sound in H. destruct H as (w & s' & cs & E & (d & -> & Hd) & K).
    apply negb_true_iff in Hd. exists (String d ""), s', cs. simpl; eauto 6.
  - apply eat_sound in H. destruct H as (w & s' & cs & E & (d & -> & Hd) & K).
    exists (String d ""), s', cs. simpl; eauto 6.
  - destruct (pos st =? 0) eqn:E; [|discriminate]. apply Nat.eqb_eq in E.
    exists "", (rest st), (caps st). simpl. rewrite Nat.add_0_r.
    destruct st; auto.
  - assert (Hk : k st = Some res /\ (rest st = "" \/ rest st = String nl "")).
    { destruct (rest st) as [|c [|d t]]; auto; try discriminate.
      destruct (Ascii.eqb c nl) eqn:E; [|discriminate].
      apply Ascii.eqb_eq in E. subst c. auto. }
    destruct Hk as [Hk Hr].
    exists "", (rest st), (caps st). simpl. rewrite Nat.add_0_r.
    destruct st; auto.
  - apply IHr1 in H. destruct H as (w1 & s1 & cs1 & E1 & L1 & K1).
    apply IHr2 in K1. destruct K1 as (w2 & s2 & cs2 & E2 & L2 & K2). simpl in *.
    subst s1. exists (w1 ++ w2), s2, cs2. repeat split.
    + now rewrite E1, sapp_assoc.
    + eauto.
    + now rewrite slength_app, Nat.add_assoc.
  - destruct (m r1 st k) eqn:H1.
    + injection H as <-. apply IHr1 in H1.
      destruct H1 as (w & s' & cs & ? & ? & ?). exists w, s', cs. simpl; auto.
    + apply IHr2 in H.
      destruct H as (w & s' & cs & ? & ? & ?). exists w, s', cs. simpl; auto.
  - eapply star_loop_sound in H; eauto.
  - apply IHr in H. destruct H as (w1 & s1 & cs1 & E1 & L1 & K1).
    eapply star_loop_sound in K1; eauto.
    destruct K1 as (w2 & s2 & cs2 & E2 & L2 & K2). simpl in *.
    subst s1. exists (w1 ++ w2), s2, cs2. repeat split.
    + now rewrite E1, sapp_assoc.
    + eauto.
    + now rewrite slength_app, Nat.add_assoc.
  - assert (Hstop : k st = Some res ->
            exists w s' cs, rest st = w ++ s' /\ Lang (Opt greedy r) (pos st) w s'
                            /\ k (MState (pos st + String.length w) s' cs) = Some res).
    { intros Hk. exists "", (rest st), (caps st). simpl.
      rewrite Nat.add_0_r. destruct st; simpl in *. auto. }
    assert (Hone : m r st k = Some res ->
            exists w s' cs, rest st = w ++ s' /\ Lang (Opt greedy r) (pos st) w s'
                            /\ k (MState (pos st + String.length w) s' cs) = Some res).
    { intros H1. apply IHr in H1.
      destruct H1 as (w & s' & cs & ? & ? & ?). exists w, s', cs. simpl; auto. }
    destruct greedy.
    + destruct (m r st k) eqn:H1; [injection H as <-|]; auto.
    + destruct (k st) eqn:H1; [injection H as <-|]; auto.
  - apply IHr in H. destruct H as (w & s' & cs & E & L & K).
    unfold close_group in K. simpl in K. exists w, s'. eexists. simpl. eauto.
  - apply IHr in H. exact H.
Qed.

Theorem m_complete (r : regex) : complete (m r) (Lang r).
Proof.
  induction r; intros n w s' cs k HL Hk; simpl in HL |- *.
  - subst w. specialize (Hk cs). simpl in Hk. now rewrite Nat.add_0_r in Hk.
  - subst w. apply eat_complete; [|assumption].
    exists c. split; [reflexivity | apply Ascii.eqb_refl].
  - destruct HL as (c & -> & Hc). apply eat_complete; [|assumption].
    exists c. now rewrite Hc.
  - destruct HL as (c & -> & Hc). apply eat_complete; [|assumption]. eauto.
  - destruct HL as [-> ->]. simpl. specialize (Hk cs). simpl in Hk. exact Hk.
  - destruct HL as [-> Hs]. simpl. specialize (Hk cs). simpl in Hk.
    rewrite Nat.add_0_r in Hk. destruct Hs as [-> | ->]; simpl; assumption.
  - destruct HL as (w1 & w2 & -> & L1 & L2). rewrite sapp_assoc.
    apply IHr1; [assumption|]. intros cs'. apply IHr2; [assumption|].
    intros cs''. rewrite <- Nat.add_assoc, <- slength_app. apply Hk.
  - destruct HL as [HL | HL].
    + specialize (IHr1 _ _ _ cs _ HL Hk). destruct (m r1 _ _); [discriminate | contradiction].
    + specialize (IHr2 _ _ _ cs _ HL Hk). destruct (m r1 _ _); [discriminate | assumption].
  - eapply star_loop_complete; eauto.
  - destruct HL as (w1 & w2 & -> & L1 & L2). rewrite sapp_assoc.
    apply IHr; [assumption|]. intros cs'. simpl.
    eapply star_loop_complete; eauto.
    intros cs''. rewrite <- Nat.add_assoc, <- slength_app. apply Hk.
  - destruct greedy.
    + destruct HL as [-> | HL].
      * specialize (Hk cs). simpl in Hk. rewrite Nat.add_0_r in Hk. simpl.
        destruct (m r _ _); [discriminate | assumption].
      * specialize (IHr _ _ _ cs _ HL Hk).
        destruct (m r _ _); [discriminate | contradiction].
    + destruct HL as [-> | HL].
      * specialize (Hk cs). simpl in Hk. rewrite Nat.add_0_r in Hk. simpl.
        destruct (k _); [discriminate | contradiction].
      * specialize (IHr _ _ _ cs _ HL Hk).
        destruct (k _); [discriminate | assumption].
  - apply IHr; [assumption|]. intros cs'. unfold close_group. simpl. apply Hk.
  - now apply IHr.
Qed.

(** [pattern.match(s)] finds a match exactly when some prefix of [s] is
    in the language of the pattern at offset 0. *)
Theorem match_iff (r : regex) (s : string) :
  match_ r s <> None <-> exists w s', s = w ++ s' /\ Lang r 0 w s'.
Proof.
  unfold match_. split.
  - destruct (m r _ _) eqn:H; [|congruence]. intros _.
    apply m_sound in H. destruct H as (w & s' & cs & E & L & _). eauto.
  - intros (w & s' & -> & L). eapply m_complete; eauto. discriminate.
Qed.

End ReFacts.

(** ** The stream matcher *)

Lemma hd_error_snoc (A : Type) (l : list A) (x : A) :
  hd_error (l ++ [x]) = match hd_error l with None => Some x | Some y => Some y end.
Proof. destruct l; reflexivity. Qed.

(** The loop of the source runs the inspections of the specification
    to a final configuration. *)
Lemma check_loop_steps (lines : list Line) :
  forall checks a,
    let '(lq, cq, a') := check_loop lines checks a in
    spec_steps (lines, checks, hd_error (mismatches a)) (lq, cq, hd_error (mismatches a'))
    /\ spec_final (lq, cq, hd_error (mismatches a')).
Proof.
  induction lines as [|line lines IH]; intros checks a.
  - simpl. split; [apply steps_refl | left; reflexivity].
  - destruct checks as [|check checks].
    + simpl. split; [apply steps_refl | right; reflexivity].
    + simpl. destruct (matches check line) eqn:Hm.
      * specialize (IH checks
          (mkAcc (usedlines a ++ [line]) (usedchecks a ++ [check])
                 (text1 a ++ [escaped_text line]) (text2 a ++ [escaped_text line])
                 (mismatches a))).
        destruct (check_loop lines checks _) as [[lq cq] a']. simpl in IH.
        destruct IH as [IH1 IH2]. split; [|assumption].
        eapply steps_step; [apply step_match; assumption | exact IH1].
      * destruct (is_empty_space line) eqn:He.
        -- specialize (IH (check :: checks) a).
           destruct (check_loop lines (check :: checks) a) as [[lq cq] a'].
           destruct IH as [IH1 IH2]. split; [|assumption].
           eapply steps_step; [apply step_blank; assumption | exact IH1].
        -- match goal with |- context [check_loop lines checks ?acc] =>
             specialize (IH checks acc); destruct (check_loop lines checks acc)
               as [[lq cq] a'] end.
           simpl in IH. rewrite hd_error_snoc in IH.
           destruct IH as [IH1 IH2]. split; [|assumption].
           eapply steps_step; [apply step_mismatch; assumption | exact IH1].
Qed.

Lemma drain_empties_hd (lines : list Line) :
  hd_error (drain_empties lines) = hd_error (leftover_lines lines).
Proof.
  induction lines as [|l lines IH]; simpl; [reflexivity|].
  destruct (is_empty_space l); simpl; auto.
Qed.

Lemma drain_empties_leftover (lines : list Line) :
  leftover_lines (drain_empties lines) = leftover_lines lines.
Proof.
  induction lines as [|l lines IH]; simpl; [reflexivity|].
  destruct (is_empty_space l) eqn:E; simpl; [assumption | now rewrite E].
Qed.

Lemma check_finish_anchoring self lq cq a :
  anchoring (check_finish self (lq, cq, a)) = spec_outcome (lq, cq, hd_error (mismatches a)).
Proof.
  unfold check_finish, spec_outcome.
  pose proof (drain_empties_hd lq) as Hd.
  destruct (mismatches a) as [|[l c] ms]; simpl.
  - destruct (drain_empties lq) as [|l' lq'], (leftover_lines lq) as [|l'' lo];
      simpl in Hd; try discriminate.
    + destruct cq; reflexivity.
    + injection Hd as ->. reflexivity.
  - reflexivity.
Qed.

(** C1.  [TestRun.check] is the greedy matcher of the specification:
    from the given lines and patterns, with no mismatch recorded, the
    inspections (a match consumes the line and the pattern, a blank
    line that does not match is dropped alone, anything else is
    recorded as a mismatch and consumes both) reach a configuration
    in which the lines or the patterns have run out, and the result
    is anchored at the first recorded mismatch if there is one, else at
    the first leftover line, else at the first leftover pattern, and is
    a success otherwise. *)
Theorem check_is_greedy_matcher (self : TestRun) (lines : list Line)
    (checks : list CheckCmd) :
  exists final,
    spec_steps (lines, checks, None) final
    /\ spec_final final
    /\ anchoring (TestRun_check self lines checks) = spec_outcome final.
Proof.
  unfold TestRun_check.
  pose proof (check_loop_steps lines checks (mkAcc [] [] [] [] [])) as H.
  destruct (check_loop lines checks _) as [[lq cq] a'].
  destruct H as [H1 H2].
  exists (lq, cq, hd_error (mismatches a')). repeat split; try assumption.
  apply check_finish_anchoring.
Qed.

(** The inspections are deterministic, so the final configuration of
    the theorem above is the only one. *)
Lemma spec_step_deterministic c c1 c2 :
  spec_step c c1 -> spec_step c c2 -> c1 = c2.
Proof.
  intros H1 H2; inversion H1; subst; inversion H2; subst; congruence.
Qed.

Lemma spec_final_no_step c c' : spec_final c -> ~ spec_step c c'.
Proof.
  intros [H | H] S; inversion S; subst; simpl in H; discriminate.
Qed.

Lemma spec_steps_deterministic c c1 c2 :
  spec_steps c c1 -> spec_final c1 ->
  spec_steps c c2 -> spec_final c2 -> c1 = c2.
Proof.
  intros H1. revert c2. induction H1 as [c|c c' c1 S _ IH]; intros c2 F1 H2 F2.
  - inversion H2 as [|? c'' ? S' _]; subst; [reflexivity|].
    exfalso. exact (spec_final_no_step F1 S').
  - inversion H2 as [|? c'' ? S' H2']; subst.
    + exfalso. exact (spec_final_no_step F2 S).
    + rewrite (spec_step_deterministic S S') in *. auto.
Qed.

(** ** Blank lines *)

Lemma check_loop_no_checks (lines : list Line) (a : check_acc) :
  check_loop lines [] a = (lines, [], a).
Proof. destruct lines; reflexivity. Qed.

Lemma check_finish_leftover self (l1 l2 : list Line) cq a :
  leftover_lines l1 = leftover_lines l2 ->
  check_finish self (l1, cq, a) = check_finish self (l2, cq, a).
Proof.
  intros H. unfold check_finish.
  pose proof (drain_empties_hd l1) as H1. pose proof (drain_empties_hd l2) as H2.
  pose proof (drain_empties_leftover l1) as F1.
  pose proof (drain_empties_leftover l2) as F2.
  unfold leftover_lines in *. rewrite F1, F2, H. rewrite H in H1.
  destruct (drain_empties l1) as [|x l1'], (drain_empties l2) as [|y l2'];
    simpl in H1, H2; try reflexivity.
  - rewrite <- H1 in H2. discriminate.
  - rewrite <- H2 in H1. discriminate.
  - rewrite <- H1 in H2. injection H2 as ->. reflexivity.
Qed.

Lemma leftover_blanks (blanks : list Line) :
  Forall (fun l => is_empty_space l = true) blanks -> leftover_lines blanks = [].
Proof.
  induction 1 as [|b blanks Hb _ IH]; simpl; [reflexivity|]. now rewrite Hb.
Qed.

Lemma leftover_insert (before blanks after : list Line) :
  Forall (fun l => is_empty_space l = true) blanks ->
  leftover_lines (before ++ blanks ++ after) = leftover_lines (before ++ after).
Proof.
  intros H. unfold leftover_lines. rewrite !filter_app.
  fold (leftover_lines blanks). now rewrite (leftover_blanks H).
Qed.

Lemma unmatched_blank_tail c checks l :
  unmatched_blank (c :: checks) l -> unmatched_blank checks l.
Proof. intros [H1 H2]. split; [assumption|]. intros; apply H2; now right. Qed.

Lemma unmatched_blanks_are_blank checks blanks :
  Forall (unmatched_blank checks) blanks ->
  Forall (fun l => is_empty_space l = true) blanks.
Proof. apply Forall_impl. now intros l [H _]. Qed.

Lemma check_loop_skip_blanks self (blanks after : list Line) :
  forall checks a,
    Forall (unmatched_blank checks) blanks ->
    check_finish self (check_loop (blanks ++ after) checks a)
    = check_finish self (check_loop after checks a).
Proof.
  induction blanks as [|b blanks IH]; intros checks a H; [reflexivity|].
  destruct (Forall_inv H) as [Hb Hm]. pose proof (Forall_inv_tail H) as H'.
  destruct checks as [|c checks].
  - rewrite !check_loop_no_checks. apply check_finish_leftover.
    exact (leftover_insert [] after (unmatched_blanks_are_blank H)).
  - simpl. rewrite (Hm c (or_introl eq_refl)), Hb. now apply IH.
Qed.

Lemma check_loop_insert self (before blanks after : list Line) :
  forall checks a,
    Forall (unmatched_blank checks) blanks ->
    check_finish self (check_loop (before ++ blanks ++ after) checks a)
    = check_finish self (check_loop (before ++ after) checks a).
Proof.
  induction before as [|l before IH]; intros checks a H.
  - simpl. now apply check_loop_skip_blanks.
  - destruct checks as [|c checks].
    + rewrite !check_loop_no_checks. apply check_finish_leftover.
      exact (leftover_insert (l :: before) after (unmatched_blanks_are_blank H)).
    + assert (H' : Forall (unmatched_blank checks) blanks).
      { eapply Forall_impl; [|exact H]. apply unmatched_blank_tail. }
      simpl. destruct (matches c l); [now apply IH|].
      destruct (is_empty_space l); now apply IH.
Qed.

(** C3, as the code has it.  Blank lines inserted anywhere into the
    output leave the whole result of [TestRun.check] unchanged (the
    anchoring and the context kept for the report), provided no
    pattern accepts an inserted line: a pattern is tried on a line
    before the line is looked at for blankness. *)
Theorem blank_skip_unmatched (self : TestRun) (before blanks after : list Line)
    (checks : list CheckCmd) :
  Forall (fun l => is_empty_space l = true
                   /\ forall c, In c checks -> matches c l = false) blanks ->
  TestRun_check self (before ++ blanks ++ after) checks
  = TestRun_check self (before ++ after) checks.
Proof. intros H. unfold TestRun_check. now apply check_loop_insert. Qed.

Lemma blank_skip_unmatched_witness :
  TestRun_check example_run
    ([out_line "a" 1] ++ [out_line "" 2; out_line "  " 3] ++ [out_line "b" 4])
    [check_of "a" 1; check_of "b" 2]
  = TestRun_check example_run ([out_line "a" 1] ++ [out_line "b" 4])
      [check_of "a" 1; check_of "b" 2].
Proof.
  apply blank_skip_unmatched.
  repeat constructor; intros c [<- | [<- | []]]; vm_compute; reflexivity.
Defined.

(** C3, as the specification words it, fails: the pattern [{{.*}}]
    accepts a blank line, so a blank line inserted between [a] and [b]
    is consumed by it and [b] is left over. *)
Lemma blank_skip_counterexample : ~ blank_skip_claim.
Proof.
  intros H.
  specialize (H example_run [out_line "a" 1] [out_line "" 2] [out_line "b" 3]
                [check_of "a" 1; check_of "{{.*}}" 2]).
  assert (Hne : forall l : Line, [l] <> []) by discriminate.
  specialize (H (Hne _) (Hne _)).
  assert (Hb : Forall (fun l => is_empty_space l = true) [out_line "" 2]).
  { repeat constructor. }
  specialize (H Hb). vm_compute in H. discriminate H.
Qed.

(** ** Grouping of the pieces *)

(** C6, as the code has it.  Every piece is wrapped in a non-capturing
    group, so [{{b|c}}d] is compiled from [^\s*(?:)(?:b|c)(?:d)\s*\n?$]:
    an alternative of [b] and [c], then [d].  It accepts the lines
    [bd] and [cd] and rejects the line [b]. *)
Theorem non_bleed_grouping (n : nat) (f checktype : string) :
  full_re_source [Re.escape ""; "b|c"; Re.escape "d"] = "^\s*(?:)(?:b|c)(?:d)\s*\n?$"
  /\ exists c,
       CheckCmd_parse (mkLine "{{b|c}}d" n f) checktype = Ok c
       /\ Re.compile "^\s*(?:)(?:b|c)(?:d)\s*\n?$" = Re.POk (regex c)
       /\ accepts c "bd" = true /\ accepts c "cd" = true /\ accepts c "b" = false
       /\ accepts c ("bd" ++ String nl "") = true
       /\ accepts c ("cd" ++ String nl "") = true
       /\ accepts c ("b" ++ String nl "") = false.
Proof.
  split; [reflexivity|]. eexists. split; [vm_compute; reflexivity|].
  repeat split; vm_compute; reflexivity.
Qed.

(** C6, as the specification words it, fails: the line [b] is
    rejected and the line [bd] is accepted. *)
Lemma non_bleed_counterexample : ~ non_bleed_claim.
Proof.
  intros H. destruct (non_bleed_grouping 1 "f" "CHECK") as (_ & c & Hc & _ & Hbd & _).
  destruct (H c Hc) as (_ & _ & Hbd'). congruence.
Qed.

(** ** Checking a file *)

Section RunAll.
Variable W : Type.
Variable spawn : W -> string -> proc * W.
Variables (name : string) (checker : Checker) (subs : subs_t) (config : Config).

Lemma failures_of_cons rc cmds e entries :
  failures_of name checker subs config (rc :: cmds) (e :: entries)
  = (match run_outcome name checker subs config rc e with
     | Ok (Some f) => [f]
     | _ => []
     end ++ failures_of name checker subs config cmds entries)%list.
Proof. reflexivity. Qed.

Lemma run_all_logged (cmds : list RunCmd) :
  forall w log success handled success' handled' w' log',
    run_all (logged spawn) name checker subs config cmds (w, log) success handled
    = (Ok (success', handled'), (w', log')) ->
    exists entries,
      log' = (log ++ entries)%list
      /\ map fst entries
         = map (fun rc => perform_substitution (args rc) subs) cmds
      /\ handled' = (handled ++ failures_of name checker subs config cmds entries)%list
      /\ success' = success
                    && match failures_of name checker subs config cmds entries with
                       | [] => true
                       | _ => false
                       end.
Proof.
  induction cmds as [|rc cmds IH]; intros w log success handled success' handled' w' log' H.
  - simpl in H. injection H as <- <- <- <-. exists []. simpl.
    rewrite !app_nil_r, andb_true_r. auto.
  - simpl in H.
    destruct (spawn w (perform_substitution (args rc) subs)) as [p w1] eqn:Hs.
    destruct (TestRun_run _ p) as [[f|]|e] eqn:Hr; [| |discriminate].
    + apply IH in H. destruct H as (entries & -> & Hm & -> & ->).
      exists ((perform_substitution (args rc) subs, p) :: entries).
      rewrite failures_of_cons. unfold run_outcome at 1 2. simpl. rewrite Hr.
      rewrite <- !app_assoc. simpl. rewrite Hm, andb_false_r. auto.
    + apply IH in H. destruct H as (entries & -> & Hm & -> & ->).
      exists ((perform_substitution (args rc) subs, p) :: entries).
      rewrite failures_of_cons. unfold run_outcome at 1 2. simpl. rewrite Hr.
      rewrite <- !app_assoc. simpl. rewrite Hm. auto.
Qed.
End RunAll.

(** *** When [check_file] returns

    [check_file] raises only what [Checker] raises, or the error of a
    command that is not found: matching and annotating never fail. *)

Lemma check_loop_members (lines : list Line) :
  forall checks a,
    let '(lq, cq, a') := check_loop lines checks a in
    (forall l, In l lq -> In l lines)
    /\ (forall l c, In (l, c) (mismatches a') ->
                    In (l, c) (mismatches a) \/ In l lines).
Proof.
  induction lines as [|line lines IH]; intros checks a.
  - simpl. auto.
  - destruct checks as [|check checks]; [simpl; auto|]. simpl.
    destruct (matches check line).
    + match goal with |- context [check_loop lines checks ?acc] =>
        specialize (IH checks acc); destruct (check_loop lines checks acc)
          as [[lq cq] a'] end.
      simpl in IH. destruct IH as [H1 H2]. split; [auto|].
      intros l c H. destruct (H2 l c H); auto.
    + destruct (is_empty_space line).
      * specialize (IH (check :: checks) a).
        destruct (check_loop lines (check :: checks) a) as [[lq cq] a'].
        destruct IH as [H1 H2]. split; [auto|].
        intros l c H. destruct (H2 l c H); auto.
      * match goal with |- context [check_loop lines checks ?acc] =>
          specialize (IH checks acc); destruct (check_loop lines checks acc)
            as [[lq cq] a'] end.
        simpl in IH. destruct IH as [H1 H2]. split; [auto|].
        intros l c H. destruct (H2 l c H) as [H' | H']; auto.
        apply in_app_or in H'. destruct H' as [H' | [[= <- <-] | []]]; auto.
Qed.

Lemma drain_empties_members (lines : list Line) (l : Line) :
  In l (drain_empties lines) -> In l lines.
Proof.
  induction lines as [|x lines IH]; simpl; [auto|].
  destruct (is_empty_space x); auto.
Qed.

(** The line a failure is anchored at is one of the lines checked. *)
Lemma fail_line_member self lines checks f l :
  TestRun_check self lines checks = Some f -> fail_line f = Some l -> In l lines.
Proof.
  unfold TestRun_check. pose proof (check_loop_members lines checks (mkAcc [] [] [] [] [])) as H.
  destruct (check_loop lines checks _) as [[lq cq] a']. destruct H as [H1 H2].
  unfold check_finish. destruct (mismatches a') as [|[l0 c0] ms] eqn:Hm.
  - destruct (drain_empties lq) as [|l1 lq'] eqn:Hd.
    + destruct cq; [discriminate|]. intros [= <-]. discriminate.
    + intros [= <-] [= <-]. apply H1. apply drain_empties_members.
      rewrite Hd. now left.
  - intros [= <-] [= <-]. destruct (H2 l0 c0 (or_introl eq_refl)) as [[] | H]. exact H.
Qed.

Lemma enumerate_lines_number (ts : list string) (nm : string) (l : Line) :
  forall idx, In l (enumerate_lines idx ts nm) ->
    idx < number l <= idx + List.length ts.
Proof.
  induction ts as [|t ts IH]; intros idx H; simpl in H; [contradiction|].
  destruct H as [<- | H]; simpl; [lia|]. apply IH in H. lia.
Qed.

Lemma enumerate_lines_length (ts : list string) (nm : string) (idx : nat) :
  List.length (enumerate_lines idx ts nm) = List.length ts.
Proof. revert idx. induction ts; intros idx; simpl; auto. Qed.

Lemma last_text_some (l : list Line) : l <> [] -> exists t, last_text l = Some t.
Proof.
  induction l as [|x l IH]; intros H; [congruence|].
  destruct l as [|y l]; [simpl; eauto|]. apply IH. discriminate.
Qed.

Lemma TestRun_run_returns (self : TestRun) (p : proc) :
  returncode p <> 127 -> exists r, TestRun_run self p = Ok r.
Proof.
  intros H. unfold TestRun_run. apply Nat.eqb_neq in H. rewrite H.
  destruct (TestRun_check self _ (outchecks _)) as [o|]; [|eauto].
  destruct (TestRun_check self _ (errchecks _)) as [e|] eqn:He; [|eauto].
  unfold annotate. destruct (fail_line e) as [eline|] eqn:Hl; [|simpl; eauto].
  pose proof (fail_line_member _ _ _ He Hl) as Hin.
  apply enumerate_lines_number in Hin.
  set (errlines := enumerate_lines 0 _ "stderr") in *.
  destruct (@last_text_some (skipn (number eline - 1) errlines)) as [t ->].
  - intros E. apply (f_equal (@List.length Line)) in E.
    rewrite length_skipn in E. unfold errlines in E.
    rewrite enumerate_lines_length in E. simpl in E. lia.
  - simpl. eauto.
Qed.

Lemma run_all_returns (W : Type) (spawn : W -> string -> proc * W)
    (name : string) (checker : Checker) (subs : subs_t) (config : Config)
    (cmds : list RunCmd) :
  (forall w cmd, returncode (fst (spawn w cmd)) <> 127) ->
  forall w success handled,
    exists r w', run_all spawn name checker subs config cmds w success handled
                 = (Ok r, w').
Proof.
  intros H. induction cmds as [|rc cmds IH]; intros w success handled; simpl; [eauto|].
  specialize (H w (perform_substitution (args rc) subs)).
  destruct (spawn w _) as [p w1]. simpl in H.
  destruct (@TestRun_run_returns (TestRun_init name rc checker subs config) p H)
    as [[f|] ->]; apply IH.
Qed.

(** A fixture whose directives are well formed and whose commands are
    all found is checked to the end. *)
Lemma check_file_returns (W : Type) (spawn : W -> string -> proc * W)
    (input_file : list string) (name : string) (subs : subs_t) (config : Config)
    (w : W) (checker : Checker) :
  Checker_init name (readfile input_file name) = Ok checker ->
  (forall w cmd, returncode (fst (spawn w cmd)) <> 127) ->
  exists r w', check_file spawn input_file name subs config w = (Ok r, w').
Proof.
  intros Hc H. unfold check_file. rewrite Hc. now apply run_all_returns.
Qed.

(** C9.  When [check_file] returns, every RUN directive of the fixture
    was executed, in order, whatever the earlier ones produced; every
    failure a run produced went to the failure handler; and the file
    is reported failed exactly when some run produced a failure. *)
Theorem check_file_runs_all (W : Type) (spawn : W -> string -> proc * W)
    (input_file : list string) (name : string) (subs : subs_t) (config : Config)
    (w w' : W) (success : bool) (handled : list TestFailure)
    (log : list (string * proc)) :
  check_file (logged spawn) input_file name subs config (w, [])
  = (Ok (success, handled), (w', log)) ->
  exists checker,
    Checker_init name (readfile input_file name) = Ok checker
    /\ map fst log = map (fun rc => perform_substitution (args rc) subs) (runcmds checker)
    /\ handled = failures_of name checker subs config (runcmds checker) log
    /\ (success = false <->
        exists rc entry f,
          In (rc, entry) (combine (runcmds checker) log)
          /\ run_outcome name checker subs config rc entry = Ok (Some f)).
Proof.
  unfold check_file. intros H.
  destruct (Checker_init name (readfile input_file name)) as [checker|e]; [|discriminate].
  exists checker. split; [reflexivity|].
  apply run_all_logged in H. destruct H as (entries & Hl & Hm & Hh & Hs).
  simpl in Hl, Hh, Hs. subst log. repeat split; try assumption.
  - intros ->. unfold failures_of in Hs.
    destruct (flat_map _ _) as [|f fs] eqn:Hf; [discriminate|].
    assert (Hin : In f (flat_map (fun '(rc, entry) =>
              match run_outcome name checker subs config rc entry with
              | Ok (Some f) => [f]
              | _ => []
              end) (combine (runcmds checker) entries))) by (rewrite Hf; now left).
    apply in_flat_map in Hin. destruct Hin as ([rc entry] & Hin & Hout).
    exists rc, entry. destruct (run_outcome _ _ _ _ rc entry) as [[f'|]|]; try contradiction.
    exists f'. auto.
  - intros (rc & entry & f & Hin & Hout). rewrite Hs.
    destruct (failures_of _ _ _ _ _ _) eqn:Hf; [|reflexivity].
    exfalso. assert (Hin' : In f (failures_of name checker subs config
                                     (runcmds checker) entries)).
    { unfold failures_of. apply in_flat_map. exists (rc, entry).
      split; [assumption|]. rewrite Hout. now left. }
    rewrite Hf in Hin'. contradiction.
Qed.

Lemma check_file_runs_all_witness :
  exists success handled log checker,
    Checker_init "f" (readfile example_fixture "f") = Ok checker
    /\ map fst log
       = map (fun rc => perform_substitution (args rc) [("%", "%"); ("s", "f")])
             (runcmds checker)
    /\ handled = failures_of "f" checker [("%", "%"); ("s", "f")] example_config
                             (runcmds checker) log
    /\ (success = false <->
        exists rc entry f,
          In (rc, entry) (combine (runcmds checker) log)
          /\ run_outcome "f" checker [("%", "%"); ("s", "f")] example_config rc entry
             = Ok (Some f)).
Proof.
  do 3 eexists.
  eapply (@check_file_runs_all unit (const_world (mkProc ("x" ++ String nl "") "" 0))
            example_fixture "f" [("%", "%"); ("s", "f")] example_config tt tt).
  lazy. reflexivity.
Defined.


(** ** Fixtures without RUN directives *)

(** C7 at the empty fixture: no RUN directive is found, and the look at
    the first line raises [IndexError] where the claim has the
    "No runlines" error. *)
Theorem empty_fixture_index_error (name : string) :
  group1s RUN_RE (readfile [] name) = []
  /\ Checker_init name (readfile [] name) = Raise IndexError.
Proof. split; reflexivity. Qed.

(** C7 at a one-line fixture without a final newline: the slice
    [[2:-1]] takes the last character of the command with it. *)
Lemma shebang_without_newline :
  exists c, Checker_init "f" (readfile ["#!/bin/sh"] "f") = Ok c
            /\ map args (runcmds c) = ["/bin/s %s"].
Proof. eexists. split; vm_compute; reflexivity. Qed.

Lemma slice_shebang (t : string) :
  slice_2_m1 ("#!" ++ t ++ String nl "") = t.
Proof.
  unfold slice_2_m1.
  replace (String.length ("#!" ++ t ++ String nl "") - 1 - 2) with (String.length t)
    by (simpl; rewrite slength_app; simpl; lia).
  simpl. apply take_app.
Qed.

(** Apart from these two inputs the fallback is as the claim has it:
    with no RUN directive, a first line [#!cmd] followed by a newline
    gives the one command [cmd %s], and any other first line gives
    the "No runlines" error. *)
Lemma no_run_directive (name : string) (line0 : Line) (lines : list Line) :
  group1s RUN_RE (line0 :: lines) = [] ->
  (forall t, text line0 = "#!" ++ t ++ String nl "" ->
     forall c, Checker_init name (line0 :: lines) = Ok c ->
       runcmds c = [mkRunCmd (t ++ " %s") line0])
  /\ (String.prefix "#!" (text line0) = false ->
      Checker_init name (line0 :: lines)
      = Raise (CheckerError "No runlines ('# RUN') found" None)).
Proof.
  intros H. unfold Checker_init. rewrite H. simpl. split.
  - intros t Ht c.
    assert (Hp : String.prefix "#!" (text line0) = true).
    { rewrite Ht. simpl. now destruct (t ++ String nl ""). }
    rewrite Hp. change (text line0 = "#!" ++ t ++ String nl "") in Ht.
    rewrite Ht, slice_shebang.
    destruct (mapM _ _); simpl; [|discriminate].
    destruct (mapM _ _); simpl; [|discriminate].
    now intros [= <-].
  - now intros ->.
Qed.

(** ** Invalid patterns *)

(** C8 at a payload that uses one group name in two spans: each span
    is accepted by [re.compile] on its own, the joined pattern is not,
    and the [re.error] of the last [re.compile] is let through. *)
Theorem duplicate_group_name_escapes (n : nat) (f checktype : string) :
  Re.split bracket_re "{{(?P<n>a)}}{{(?P<n>b)}}" = [""; "(?P<n>a)"; ""; "(?P<n>b)"; ""]
  /\ parses "(?P<n>a)" /\ parses "(?P<n>b)"
  /\ CheckCmd_parse (mkLine "{{(?P<n>a)}}{{(?P<n>b)}}" n f) checktype
     = Raise (ReError (Re.RedefinedGroup "n")).
Proof.
  repeat split; try (eexists; vm_compute; reflexivity); vm_compute; reflexivity.
Qed.

Lemma parse_pieces_invalid_span (line : Line) (pieces : list string) :
  forall even acc good bad rest,
    spans_of pieces even = (good ++ bad :: rest)%list ->
    Forall parses good -> invalid bad ->
    parse_pieces line pieces even acc
    = Raise (CheckerError ("Invalid regular expression: '" ++ bad ++ "'") (Some line)).
Proof.
  induction pieces as [|piece pieces IH]; intros even acc good bad rest Hs Hg Hb.
  - destruct good; discriminate.
  - simpl in *. destruct even.
    + eapply IH; eauto.
    + destruct good as [|g good]; simpl in Hs; injection Hs as -> Hs.
      * destruct Hb as [e ->]. reflexivity.
      * inversion Hg as [|? ? [r Hr] Hg']; subst. rewrite Hr. eapply IH; eauto.
Qed.

(** The half of C8 the code does: a span that is not a pattern makes
    compilation fail with the error that names the first such span and
    carries the line. *)
Lemma invalid_span_is_reported (line : Line) (checktype : string)
    (good : list string) (bad : string) (rest : list string) :
  spans_of (Re.split bracket_re (text line)) true = (good ++ bad :: rest)%list ->
  Forall parses good -> invalid bad ->
  CheckCmd_parse line checktype
  = Raise (CheckerError ("Invalid regular expression: '" ++ bad ++ "'") (Some line)).
Proof.
  intros Hs Hg Hb. unfold CheckCmd_parse.
  now rewrite (@parse_pieces_invalid_span line _ true [] _ _ _ Hs Hg Hb).
Qed.

(** ** Lines without a newline *)

Lemma contains_nl_app (a b : string) :
  contains_nl (a ++ b) = contains_nl a || contains_nl b.
Proof. induction a; simpl; [reflexivity|]. now rewrite IHa, orb_assoc. Qed.

Lemma needs_nl_sound (r : Re.regex) :
  needs_nl r = true ->
  forall n w s', Re.Lang r n w s' -> contains_nl w = true.
Proof.
  induction r; simpl; try discriminate; intros H n w s' HL.
  - subst w. simpl. now rewrite H.
  - destruct HL as (w1 & w2 & -> & L1 & L2). rewrite contains_nl_app.
    apply orb_true_iff in H. apply orb_true_iff. destruct H; eauto.
  - apply andb_true_iff in H. destruct H. destruct HL; eauto.
  - destruct HL as (w1 & w2 & -> & L1 & L2). rewrite contains_nl_app.
    apply orb_true_iff. eauto.
  - eauto.
  - eauto.
Qed.

Lemma no_nl_no_match (r : Re.regex) (t : string) :
  needs_nl r = true -> contains_nl t = false -> Re.match_ r t = None.
Proof.
  intros Hr Ht. destruct (Re.match_ r t) eqn:Hm; [|reflexivity].
  assert (Hne : Re.match_ r t <> None) by congruence.
  apply ReFacts.match_iff in Hne. destruct Hne as (w & s' & -> & HL).
  apply (needs_nl_sound _ Hr) in HL. rewrite contains_nl_app, HL in Ht. discriminate.
Qed.

Lemma ends_with_nl_snoc (s : string) : ends_with_nl (s ++ String nl "") = true.
Proof.
  induction s as [|c s IH]; [reflexivity|].
  simpl. destruct (s ++ String nl "") eqn:E; [destruct s; discriminate | assumption].
Qed.

Lemma file_iter_lines (s : string) :
  forall cur t, contains_nl cur = false ->
    In t (file_iter_from s cur) -> ends_with_nl t = false -> contains_nl t = false.
Proof.
  induction s as [|c s IH]; intros cur t Hc Hin He; simpl in Hin.
  - destruct cur; [contradiction|]. destruct Hin as [<- | []]. assumption.
  - destruct (Ascii.eqb c nl) eqn:E.
    + destruct Hin as [<- | Hin].
      * now rewrite ends_with_nl_snoc in He.
      * exact (IH "" t eq_refl Hin He).
    + refine (IH _ t _ Hin He). rewrite contains_nl_app. simpl. now rewrite Hc, E.
Qed.

Lemma readfile_texts (idx : nat) (f : list string) (name : string) (line : Line) :
  In line (enumerate_lines idx f name) -> In (text line) f.
Proof.
  revert idx. induction f as [|t f IH]; intros idx H; simpl in *; [assumption|].
  destruct H as [<- | H]; [now left | right; eauto].
Qed.

(** C10.  On a line of a fixture file that does not end with a newline
    none of the three directive patterns matches, so no RUN, CHECK or
    CHECKERR directive is taken from it. *)
Theorem no_directive_without_newline (content name : string) (line : Line) :
  In line (readfile (file_iter content) name) ->
  ends_with_nl (text line) = false ->
  Re.match_ RUN_RE (text line) = None
  /\ Re.match_ CHECK_STDOUT_RE (text line) = None
  /\ Re.match_ CHECK_STDERR_RE (text line) = None
  /\ group1s RUN_RE [line] = []
  /\ group1s CHECK_STDOUT_RE [line] = []
  /\ group1s CHECK_STDERR_RE [line] = [].
Proof.
  intros Hin He. apply readfile_texts in Hin.
  assert (Hn : contains_nl (text line) = false).
  { eapply file_iter_lines; eauto. reflexivity. }
  assert (H1 : Re.match_ RUN_RE (text line) = None)
    by (apply no_nl_no_match; [vm_compute; reflexivity | assumption]).
  assert (H2 : Re.match_ CHECK_STDOUT_RE (text line) = None)
    by (apply no_nl_no_match; [vm_compute; reflexivity | assumption]).
  assert (H3 : Re.match_ CHECK_STDERR_RE (text line) = None)
    by (apply no_nl_no_match; [vm_compute; reflexivity | assumption]).
  unfold group1s. rewrite H1, H2, H3. auto 6.
Qed.

Lemma no_directive_without_newline_witness :
  Re.match_ RUN_RE "# RUN: echo hi" = None
  /\ Re.match_ CHECK_STDOUT_RE "# RUN: echo hi" = None
  /\ Re.match_ CHECK_STDERR_RE "# RUN: echo hi" = None
  /\ group1s RUN_RE [mkLine "# RUN: echo hi" 2 "f"] = []
  /\ group1s CHECK_STDOUT_RE [mkLine "# RUN: echo hi" 2 "f"] = []
  /\ group1s CHECK_STDERR_RE [mkLine "# RUN: echo hi" 2 "f"] = [].
Proof.
  apply (@no_directive_without_newline
           ("echo hi" ++ String nl "# RUN: echo hi") "f" (mkLine "# RUN: echo hi" 2 "f")).
  - vm_compute. right. left. reflexivity.
  - reflexivity.
Defined.

(** ** Substitution *)

Lemma TOKEN_RE_eq :
  TOKEN_RE = Re.Cat (Re.Chr "%")
               (Re.Cat (Re.Group 1 None
                          (Re.Alt (Re.Cat (Re.Chr "%") Re.Eps)
                                  (Re.Cat (Re.Plus true (Re.In false ident_items)) Re.Eps)))
                       Re.Eps).
Proof. vm_compute. reflexivity. Qed.

Lemma eat_cons (p : ascii -> bool) q c t cs k :
  Re.eat p (Re.MState q (String c t) cs) k
  = if p c then k (Re.MState (S q) t cs) else None.
Proof. reflexivity. Qed.

Lemma star_loop_eat (p : ascii -> bool) (g : bool) (n : nat) :
  forall st k res,
    Re.star_loop (Re.eat p) g n st k = Some res ->
    exists w s', Re.rest st = w ++ s' /\ all_chars p w = true
                 /\ k (Re.MState (Re.pos st + String.length w) s' (Re.caps st)) = Some res.
Proof.
  induction n as [|n IH]; intros [q s cs] k res H.
  - simpl in H. exists "", s. simpl. rewrite Nat.add_0_r. auto.
  - simpl in H.
    assert (Hstop : k (Re.MState q s cs) = Some res ->
            exists w s', s = w ++ s' /\ all_chars p w = true
                         /\ k (Re.MState (q + String.length w) s' cs) = Some res).
    { intros Hk. exists "", s. simpl. rewrite Nat.add_0_r. auto. }
    assert (Hiter : Re.eat p (Re.MState q s cs) (fun st' =>
                 if String.length (Re.rest st') <? String.length s
                 then Re.star_loop (Re.eat p) g n st' k else None) = Some res ->
            exists w s', s = w ++ s' /\ all_chars p w = true
                         /\ k (Re.MState (q + String.length w) s' cs) = Some res).
    { unfold Re.eat at 1. simpl. destruct s as [|c t]; [discriminate|].
      destruct (p c) eqn:Hp; [|discriminate]. simpl.
      destruct (String.length t <? S (String.length t)); [|discriminate].
      intros Hi. apply IH in Hi. destruct Hi as (w & s' & E & Hw & Hk). simpl in *.
      exists (String c w), s'. simpl. rewrite Hp, Hw, E, Nat.add_succ_r. auto. }
    simpl. destruct g.
    + destruct (Re.eat p (Re.MState q s cs) _) as [r0|]; [apply Hiter | apply Hstop]; exact H.
    + destruct (k (Re.MState q s cs)) as [r0|]; [apply Hstop | apply Hiter]; exact H.
Qed.

(** What a match of the token pattern looks like: a percent sign, then
    the captured text, which is a second percent sign or a run of
    identifier characters. *)
Lemma token_match (q : nat) (s : string) (st : Re.mstate) :
  Re.m TOKEN_RE (Re.MState q s []) Some = Some st ->
  exists t, s = "%" ++ t ++ Re.rest st
            /\ Re.caps st = [(1, t)]
            /\ Re.pos st = q + 1 + String.length t
            /\ (t = "%" \/ is_ident_run t = true).
Proof.
  rewrite TOKEN_RE_eq. cbn [Re.m].
  destruct s as [|c s]; [discriminate|]. rewrite eat_cons.
  destruct (Ascii.eqb "%" c) eqn:Hc; [|discriminate].
  apply Ascii.eqb_eq in Hc. subst c.
  destruct s as [|d s']; [discriminate|]. rewrite !eat_cons.
  destruct (Ascii.eqb "%" d) eqn:Hd.
  - apply Ascii.eqb_eq in Hd. subst d. unfold Re.close_group. cbn [Re.pos Re.rest Re.caps].
    replace (S (S q) - S q) with 1 by lia. intros [= <-]. cbn [Re.pos Re.rest Re.caps].
    exists "%". split; [reflexivity|]. split; [|split; [simpl; lia | now left]].
    change (take 1 (String "%" s')) with (take (String.length "%") ("%" ++ s')).
    now rewrite take_app.
  - destruct (Re.set_mem false ident_items d) eqn:Hi; [|discriminate].
    intros H. apply star_loop_eat in H. destruct H as (w & s'' & E & Hw & Hk).
    cbv beta iota delta [Re.pos Re.rest Re.caps] in E. subst s'.
    injection Hk as <-.
    cbv beta iota delta [Re.close_group Re.pos Re.rest Re.caps].
    exists (String d w). split; [reflexivity|]. split; [|split].
    + replace (S (S (q + String.length w)) - S q) with (String.length (String d w))
        by (cbn [String.length]; lia).
      change (String d (w ++ s'')) with (String d w ++ s'').
      now rewrite take_app.
    + simpl. lia.
    + right.
      change (Re.set_mem false ident_items d
              && all_chars (Re.set_mem false ident_items) w = true).
      now rewrite Hi, Hw.
Qed.

Lemma search_from_match (r : Re.regex) (s : string) :
  forall p q st,
    Re.search_from r p s = Some (q, st) ->
    p <= q /\ q - p <= String.length s
    /\ Re.m r (Re.MState q (drop (q - p) s) []) Some = Some st.
Proof.
  induction s as [|c s IH]; intros p q st H; simpl in H.
  - destruct (Re.m r _ _) eqn:Hm; [|discriminate]. injection H as <- <-.
    rewrite Nat.sub_diag. simpl. auto.
  - destruct (Re.m r _ _) eqn:Hm.
    + injection H as <- <-. rewrite Nat.sub_diag. simpl. repeat split; auto. lia.
    + apply IH in H. destruct H as (H1 & H2 & H3).
      replace (q - p) with (S (q - S p)) by lia. simpl. repeat split; auto; lia.
Qed.

Lemma push_gap_hit (c : ascii) (ps : list Re.piece) (t : string) cs :
  In (Re.Hit t cs) (Re.push_gap c ps) -> In (Re.Hit t cs) ps.
Proof.
  destruct ps as [|[g|t' cs'] ps]; simpl; intros [H | H]; try discriminate; auto.
Qed.

(** Every hit of a scan is a match of the pattern somewhere in the
    subject. *)
Lemma scan_hit (r : Re.regex) (fuel : nat) :
  forall p s t cs,
    In (Re.Hit t cs) (Re.scan fuel r p s) ->
    exists q s0 st, Re.m r (Re.MState q s0 []) Some = Some st
                    /\ t = take (Re.pos st - q) s0 /\ cs = Re.caps st.
Proof.
  induction fuel as [|fuel IH]; intros p s t cs H; simpl in H.
  - destruct H as [H | []]. discriminate.
  - destruct (Re.search_from r p s) as [[q st]|] eqn:Hs.
    + apply search_from_match in Hs. destruct Hs as (_ & _ & Hm).
      assert (Hhere : Re.Hit (take (Re.pos st - q) (drop (q - p) s)) (Re.caps st)
                      = Re.Hit t cs ->
              exists q s0 st, Re.m r (Re.MState q s0 []) Some = Some st
                              /\ t = take (Re.pos st - q) s0 /\ cs = Re.caps st).
      { intros [= <- <-]. exists q, (drop (q - p) s), st. auto. }
      destruct (Re.pos st =? q).
      * destruct (Re.rest st).
        -- destruct H as [H | [H | [H | []]]]; try discriminate. auto.
        -- destruct H as [H | [H | H]]; try discriminate; auto.
           apply push_gap_hit in H. eauto.
      * destruct H as [H | [H | H]]; try discriminate; eauto.
    + destruct H as [H | []]. discriminate.
Qed.

(** A captured token is a percent sign followed by the text handed to
    [subber]. *)
Lemma captured_token (template t : string) (cs : list (nat * string)) :
  In (Re.Hit t cs) (Re.finditer TOKEN_RE template) ->
  t = "%" ++ group1 cs /\ (group1 cs = "%" \/ is_ident_run (group1 cs) = true).
Proof.
  intros H. apply scan_hit in H. destruct H as (q & s0 & st & Hm & -> & ->).
  apply token_match in Hm. destruct Hm as (t & -> & Hc & Hp & Ht).
  rewrite Hc, Hp. unfold group1. simpl. split; [|assumption].
  replace (q + 1 + String.length t - q) with (String.length ("%" ++ t))
    by (simpl; lia).
  change (String "%" (t ++ Re.rest st)) with (("%" ++ t) ++ Re.rest st).
  apply take_app.
Qed.

Lemma subber_loop_none (l : subs_t) (t : string) :
  (forall k v, In (k, v) l -> String.prefix k t = false) -> subber_loop l t = t.
Proof.
  induction l as [|[k v] l IH]; intros H; simpl; [reflexivity|].
  rewrite (H k v (or_introl eq_refl)). apply IH. intros; eapply H; right; eauto.
Qed.

Lemma insert_by_len_in (x y : string * string) (l : subs_t) :
  In y (insert_by_len x l) <-> y = x \/ In y l.
Proof.
  induction l as [|z l IH]; simpl.
  - intuition.
  - destruct (String.length (fst z) <=? String.length (fst x)); simpl.
    + intuition.
    + rewrite IH. intuition.
Qed.

Lemma sorted_by_len_in (y : string * string) (l : subs_t) :
  In y (sorted_by_len l) <-> In y l.
Proof.
  induction l as [|x l IH]; simpl; [tauto|].
  rewrite insert_by_len_in, IH. intuition.
Qed.

Lemma insert_by_len_sorted (x : string * string) (l : subs_t) :
  StronglySorted longer_first l -> StronglySorted longer_first (insert_by_len x l).
Proof.
  induction 1 as [|y l Hs IH Hy]; simpl.
  - repeat constructor.
  - destruct (String.length (fst y) <=? String.length (fst x)) eqn:E.
    + apply Nat.leb_le in E. constructor; [now constructor|].
      constructor; [exact E|]. eapply Forall_impl; [|exact Hy].
      unfold longer_first. intros; lia.
    + apply Nat.leb_gt in E. constructor; [assumption|].
      apply Forall_forall. intros z Hz. apply insert_by_len_in in Hz.
      destruct Hz as [-> | Hz]; [unfold longer_first; lia|].
      rewrite Forall_forall in Hy. auto.
Qed.

Lemma sorted_by_len_sorted (l : subs_t) : StronglySorted longer_first (sorted_by_len l).
Proof.
  induction l; simpl; [constructor | now apply insert_by_len_sorted].
Qed.

Lemma prefix_eq_len (k1 : string) :
  forall k2 t, String.prefix k1 t = true -> String.prefix k2 t = true ->
    String.length k1 = String.length k2 -> k1 = k2.
Proof.
  induction k1 as [|a k1 IH]; intros [|b k2] t H1 H2 HL; try discriminate; auto.
  destruct t as [|c t]; [discriminate|]. simpl in H1, H2.
  destruct (ascii_dec a c); [|discriminate]. destruct (ascii_dec b c); [|discriminate].
  subst. f_equal. simpl in HL. eapply IH; eauto.
Qed.

Lemma unique_value (l : subs_t) (k v v' : string) :
  NoDup (map fst l) -> In (k, v) l -> In (k, v') l -> v = v'.
Proof.
  induction l as [|[k0 v0] l IH]; simpl; intros Hn H1 H2; [contradiction|].
  inversion Hn as [|? ? Hnot Hn']; subst.
  destruct H1 as [E1 | H1], H2 as [E2 | H2]; auto.
  - congruence.
  - exfalso. apply Hnot. apply (in_map fst) in H2. now injection E1 as -> _.
  - exfalso. apply Hnot. apply (in_map fst) in H1. now injection E2 as -> _.
Qed.

(** [subber] on keys tried longest first: the longest key that is a
    prefix of the text is the one replaced, and what follows the key
    is kept. *)
Lemma subber_loop_longest (l : subs_t) (t key replacement : string) :
  StronglySorted longer_first l ->
  (forall k v v', In (k, v) l -> In (k, v') l -> v = v') ->
  In (key, replacement) l ->
  String.prefix key t = true ->
  (forall k v, In (k, v) l -> String.prefix k t = true ->
               String.length k <= String.length key) ->
  subber_loop l t = replacement ++ drop (String.length key) t.
Proof.
  induction 1 as [|[k v] l Hs IH Hk]; intros Hu Hin Hp Hmax; [contradiction|].
  simpl. destruct (String.prefix k t) eqn:E.
  - assert (Hle : String.length k <= String.length key)
      by (eapply Hmax; [left; reflexivity | assumption]).
    assert (Hge : String.length key <= String.length k).
    { destruct Hin as [[= -> ->] | Hin]; [lia|].
      rewrite Forall_forall in Hk. apply (Hk _ Hin). }
    assert (k = key) by (eapply prefix_eq_len; eauto; lia). subst k.
    now rewrite (Hu key v replacement (or_introl eq_refl) Hin).
  - destruct Hin as [[= -> ->] | Hin]; [congruence|].
    apply IH; auto.
    + intros k' v1 v2 H1 H2. eapply Hu; right; eauto.
    + intros k' v' H1 H2. eapply Hmax; [right|]; eauto.
Qed.

Lemma perform_substitution_pieces (template : string) (subs : subs_t) :
  perform_substitution template subs
  = String.concat "" (map (emitted subs) (Re.finditer TOKEN_RE template)).
Proof.
  reflexivity.
Qed.

(** C4.  The text that replaces a token of a template comes from the
    longest registered key that is a prefix of the captured text: the
    key is replaced by its replacement and what follows the key in the
    captured text is kept.  In particular [%subcommand] with the keys
    [s] and [sub] gives [Ycommand]. *)
Theorem longest_key_first (subs : subs_t) (template t : string)
    (cs : list (nat * string)) (key replacement : string) :
  NoDup (map fst subs) ->
  In (Re.Hit t cs) (Re.finditer TOKEN_RE template) ->
  In (key, replacement) subs ->
  String.prefix key (group1 cs) = true ->
  (forall k v, In (k, v) subs -> String.prefix k (group1 cs) = true ->
               String.length k <= String.length key) ->
  perform_substitution template subs
  = String.concat "" (map (emitted subs) (Re.finditer TOKEN_RE template))
  /\ t = "%" ++ group1 cs
  /\ emitted subs (Re.Hit t cs) = replacement ++ drop (String.length key) (group1 cs)
  /\ perform_substitution "%subcommand" [("s", "X"); ("sub", "Y")] = "Ycommand".
Proof.
  intros Hn Hhit Hin Hp Hmax. split; [apply perform_substitution_pieces|].
  split; [apply (captured_token _ _ _ Hhit)|]. split; [|vm_compute; reflexivity].
  simpl. apply subber_loop_longest.
  - apply sorted_by_len_sorted.
  - intros k v v' H1 H2. rewrite sorted_by_len_in in H1, H2.
    eapply unique_value; [exact Hn | exact H1 | exact H2].
  - now rewrite sorted_by_len_in.
  - exact Hp.
  - intros k v H. rewrite sorted_by_len_in in H. eauto.
Qed.

Lemma longest_key_first_witness :
  perform_substitution "run %subcommand" [("%", "%"); ("s", "X"); ("sub", "Y")]
  = String.concat "" (map (emitted [("%", "%"); ("s", "X"); ("sub", "Y")])
                          (Re.finditer TOKEN_RE "run %subcommand"))
  /\ "%subcommand" = "%" ++ group1 [(1, "subcommand")]
  /\ emitted [("%", "%"); ("s", "X"); ("sub", "Y")]
             (Re.Hit "%subcommand" [(1, "subcommand")])
     = "Y" ++ drop (String.length "sub") (group1 [(1, "subcommand")])
  /\ perform_substitution "%subcommand" [("s", "X"); ("sub", "Y")] = "Ycommand".
Proof.
  apply (@longest_key_first [("%", "%"); ("s", "X"); ("sub", "Y")] "run %subcommand").
  - repeat constructor; simpl; intuition discriminate.
  - vm_compute. right. left. reflexivity.
  - simpl. auto.
  - reflexivity.
  - intros k v [[= <- <-] | [[= <- <-] | [[= <- <-] | []]]]; simpl; intros; try lia;
      discriminate.
Defined.

(** C2, as the code has it.  A token whose identifier has no
    registered key as a prefix is replaced by the identifier alone:
    [subber] returns the captured text, which does not include the
    percent sign, and [re.sub] puts it in the place of the whole
    token. *)
Theorem unregistered_token_loses_percent (subs : subs_t) (template t : string)
    (cs : list (nat * string)) :
  In (Re.Hit t cs) (Re.finditer TOKEN_RE template) ->
  is_ident_run (group1 cs) = true ->
  (forall k v, In (k, v) subs -> String.prefix k (group1 cs) = false) ->
  perform_substitution template subs
  = String.concat "" (map (emitted subs) (Re.finditer TOKEN_RE template))
  /\ t = "%" ++ group1 cs
  /\ emitted subs (Re.Hit t cs) = group1 cs.
Proof.
  intros Hhit _ Hnone. split; [apply perform_substitution_pieces|].
  split; [apply (captured_token _ _ _ Hhit)|].
  simpl. apply subber_loop_none. intros k v H. rewrite sorted_by_len_in in H. eauto.
Qed.

Lemma unregistered_token_loses_percent_witness :
  perform_substitution "run %foo now" [("%", "%"); ("s", "f")]
  = String.concat "" (map (emitted [("%", "%"); ("s", "f")])
                          (Re.finditer TOKEN_RE "run %foo now"))
  /\ "%foo" = "%" ++ group1 [(1, "foo")]
  /\ emitted [("%", "%"); ("s", "f")] (Re.Hit "%foo" [(1, "foo")]) = group1 [(1, "foo")].
Proof.
  apply (@unregistered_token_loses_percent [("%", "%"); ("s", "f")] "run %foo now").
  - vm_compute. right. left. reflexivity.
  - reflexivity.
  - intros k v [[= <- <-] | [[= <- <-] | []]]; reflexivity.
Defined.

(** C2, as the specification words it, fails: [%foo] with only the
    default key becomes [foo]. *)
Lemma unsubstituted_counterexample : ~ unsubstituted_claim.
Proof.
  intros H. specialize (H [("%", "%")] "foo" eq_refl).
  assert (Hn : forall k v : string, In (k, v) [("%", "%")] -> String.prefix k "foo" = false).
  { intros k v [[= <- <-] | []]. reflexivity. }
  specialize (H Hn). vm_compute in H. discriminate H.
Qed.

(** ** The parser on a pattern followed by more text

    A pattern that is read to its end on its own is read the same way,
    and up to the same place, when a closing parenthesis and more text
    follow: the syntax of a piece of a check line is not changed by
    what the compiler puts around it. *)

Module ParserFacts.
Import Re.

#[local] Arguments Ascii.eqb : simpl never.
#[local] Arguments is_repeat_char : simpl never.

Lemma pbind_ok {A B} (x : presult A) (f : A -> presult B) (y : B) :
  pbind x f = POk y -> exists a, x = POk a /\ f a = POk y.
Proof. destruct x; simpl; try discriminate. eauto. Qed.

Lemma starts_with_app (p : ascii -> bool) (c : ascii) (s t : string) :
  starts_with p (String c s ++ t) = starts_with p (String c s).
Proof. reflexivity. Qed.

Lemma starts_with_true_app (p : ascii -> bool) (s t : string) :
  starts_with p s = true -> starts_with p (s ++ t) = true /\ drop 1 (s ++ t) = drop 1 s ++ t.
Proof. destruct s; simpl; [discriminate | auto]. Qed.

Lemma ok_tail_starts (p : ascii -> bool) (t : string) :
  ok_tail t -> p ")"%char = false -> starts_with p t = false.
Proof. destruct t; simpl; [reflexivity | now intros ->]. Qed.

Lemma set_atom_ext (s t : string) i s1 :
  set_atom s = POk (i, s1) -> set_atom (s ++ t) = POk (i, s1 ++ t).
Proof.
  destruct s as [|c s]; simpl; [discriminate|].
  destruct (Ascii.eqb c "\").
  - destruct s as [|e s]; simpl; [discriminate|].
    intros H. apply pbind_ok in H. destruct H as (a & -> & [= <- <-]). reflexivity.
  - now intros [= <- <-].
Qed.

Lemma set_atom_shorter (s : string) i s1 :
  set_atom s = POk (i, s1) -> String.length s1 < String.length s.
Proof.
  destruct s as [|c s]; simpl; [discriminate|].
  destruct (Ascii.eqb c "\").
  - destruct s as [|e s]; simpl; [discriminate|].
    intros H. apply pbind_ok in H. destruct H as (a & _ & [= _ <-]). lia.
  - intros [= _ <-]. lia.
Qed.

#[local] Arguments set_atom : simpl never.
#[local] Arguments mk_range : simpl never.

Lemma parse_set_items_ext (n : nat) :
  forall first s acc x s1,
    parse_set_items n first s acc = POk (x, s1) ->
    forall m t, n <= m ->
      parse_set_items m first (s ++ t) acc = POk (x, s1 ++ t).
Proof.
  induction n as [|n IH]; intros first s acc x s1 H m t Hm; [discriminate|].
  destruct m as [|m]; [lia|]. assert (Hm' : n <= m) by lia.
  simpl in H |- *. destruct s as [|c s]; [discriminate|].
  change (String c s ++ t) with (String c (s ++ t)). cbv beta iota.
  destruct (Ascii.eqb c "]" && negb first).
  { now injection H as <- <-. }
  apply pbind_ok in H. destruct H as ([i1 r1] & Ha & H).
  change (String c (s ++ t)) with (String c s ++ t).
  rewrite (set_atom_ext _ t Ha). simpl.
  destruct r1 as [|d r2].
  { destruct n; discriminate. }
  simpl. destruct (Ascii.eqb d "-").
  - destruct r2 as [|e r3]; [discriminate|]. simpl.
    destruct (Ascii.eqb e "]").
    + now injection H as <- <-.
    + apply pbind_ok in H. destruct H as ([i2 r4] & Hb & H).
      change (String e (r3 ++ t)) with (String e r3 ++ t).
      rewrite (set_atom_ext _ t Hb). simpl.
      destruct (mk_range i1 i2); simpl in *; try discriminate. now apply IH.
  - apply (IH _ _ _ _ _ H m t Hm').
Qed.

#[local] Arguments parse_set_items : simpl never.

Lemma parse_set_ext (s t : string) r s1 :
  parse_set s = POk (r, s1) -> parse_set (s ++ t) = POk (r, s1 ++ t).
Proof.
  unfold parse_set. destruct s as [|c s]; [discriminate|].
  change (String c s ++ t) with (String c (s ++ t)). cbv beta iota.
  destruct (Ascii.eqb c "^"); intros H; apply pbind_ok in H;
    destruct H as ([items r1] & Ha & [= <- <-]).
  - erewrite parse_set_items_ext; [reflexivity | exact Ha |].
    rewrite slength_app. lia.
  - change (String c (s ++ t)) with (String c s ++ t).
    erewrite parse_set_items_ext; [reflexivity | exact Ha |].
    rewrite slength_app. lia.
Qed.

Lemma parse_simple_ext (c : ascii) (s t : string) r a s1 :
  parse_simple c s = POk (r, a, s1) -> parse_simple c (s ++ t) = POk (r, a, s1 ++ t).
Proof.
  unfold parse_simple.
  destruct (Ascii.eqb c "\").
  { destruct s as [|e s]; simpl; [discriminate|].
    intros H. apply pbind_ok in H. destruct H as (x & -> & [= <- <- <-]). reflexivity. }
  destruct (Ascii.eqb c "[").
  { intros H. apply pbind_ok in H. destruct H as ([x r1] & Ha & [= <- <- <-]).
    now rewrite (parse_set_ext _ t Ha). }
  repeat match goal with
         | |- context [if ?b then _ else _] => destruct b
         end; try discriminate; now intros [= <- <- <-].
Qed.

Lemma parse_repeat_ext (anchor : bool) (a : regex) (s t : string) a' s1 :
  ok_tail t ->
  parse_repeat false anchor a s = POk (a', s1) ->
  parse_repeat false anchor a (s ++ t) = POk (a', s1 ++ t).
Proof.
  intros Ht. unfold parse_repeat, skipv. destruct s as [|q s].
  - intros [= <- <-]. simpl. destruct t as [|c t]; [reflexivity|].
    simpl in Ht. subst c. reflexivity.
  - change (String q s ++ t) with (String q (s ++ t)). cbv beta iota.
    destruct (is_repeat_char q); [|now intros [= <- <-]].
    destruct anchor; [discriminate|].
    destruct s as [|c s].
    + simpl. rewrite !(ok_tail_starts _ t Ht) by reflexivity.
      now intros [= <- <-].
    + change (String c s ++ t) with (String c (s ++ t)).
      change (starts_with (Ascii.eqb "?") (String c (s ++ t))) with (Ascii.eqb "?" c).
      change (starts_with (Ascii.eqb "?") (String c s)) with (Ascii.eqb "?" c).
      destruct (Ascii.eqb "?" c).
      * simpl. destruct s as [|d s].
        -- simpl. rewrite !(ok_tail_starts _ t Ht) by reflexivity.
           now intros [= <- <-].
        -- simpl. destruct (Ascii.eqb "+" d); [discriminate|].
           destruct (is_repeat_char d); [discriminate|]. now intros [= <- <-].
      * simpl. destruct (Ascii.eqb "+" c); [discriminate|].
        destruct (is_repeat_char c); [discriminate|]. now intros [= <- <-].
Qed.

Lemma read_name_ext (s t : string) nm s1 :
  read_name s = Some (nm, s1) -> read_name (s ++ t) = Some (nm, s1 ++ t).
Proof.
  revert nm. induction s as [|c s IH]; intros nm; simpl; [discriminate|].
  destruct (Ascii.eqb c ">"); [now intros [= <- <-]|].
  destruct (read_name s) as [[nm' r]|]; [|discriminate].
  intros [= <- <-]. now rewrite (IH nm' eq_refl).
Qed.

Lemma parse_group_header_ext (s t : string) k s1 :
  ok_tail t ->
  parse_group_header s = POk (k, s1) ->
  parse_group_header (s ++ t) = POk (k, s1 ++ t).
Proof.
  intros Ht. unfold parse_group_header. destruct s as [|c1 s].
  - intros [= <- <-]. simpl. destruct t as [|c t]; [reflexivity|].
    simpl in Ht. subst c. reflexivity.
  - change (String c1 s ++ t) with (String c1 (s ++ t)). cbv beta iota.
    destruct (Ascii.eqb c1 "?"); [|now intros [= <- <-]].
    destruct s as [|c2 s]; [discriminate|].
    change (String c2 s ++ t) with (String c2 (s ++ t)). cbv beta iota.
    destruct (Ascii.eqb c2 ":"); [now intros [= <- <-]|].
    destruct s as [|c3 s]; [now rewrite andb_false_r|].
    change (String c3 s ++ t) with (String c3 (s ++ t)). simpl.
    destruct (Ascii.eqb c2 "P" && Ascii.eqb "<" c3); [|discriminate].
    destruct (read_name s) as [[nm r]|] eqn:Hn; [|discriminate].
    rewrite (read_name_ext _ t Hn).
    destruct (negb (all_chars _ nm)); [discriminate|].
    destruct (negb (is_identifier nm)); [discriminate|]. now intros [= <- <-].
Qed.

Lemma parse_group_ext (f g : string -> presult (regex * string)) (s t : string) x :
  extends f g -> ok_tail t ->
  parse_group f s = POk (fst x, snd x) ->
  parse_group g (s ++ t) = POk (fst x, snd x ++ t).
Proof.
  intros Hfg Ht. unfold parse_group. intros H.
  apply pbind_ok in H. destruct H as ([k t1] & Hh & H).
  apply pbind_ok in H. destruct H as ([r0 t2] & Hb & H).
  rewrite (parse_group_header_ext _ t Ht Hh). simpl.
  rewrite (Hfg _ _ _ Hb t Ht). simpl.
  destruct t2 as [|c2 t2]; [discriminate|]. simpl in H |- *.
  destruct (Ascii.eqb ")" c2); [|discriminate].
  destruct x as [[a anchor] s2]. simpl in *. now injection H as <- <- <-.
Qed.

Lemma parse_atom_ext (f g : string -> presult (regex * string)) (c : ascii)
    (s t : string) a anchor s2 :
  extends f g -> ok_tail t ->
  parse_atom f c s = POk (a, anchor, s2) ->
  parse_atom g c (s ++ t) = POk (a, anchor, s2 ++ t).
Proof.
  intros Hfg Ht. unfold parse_atom. destruct (Ascii.eqb c "(").
  - apply (@parse_group_ext f g s t (a, anchor, s2) Hfg Ht).
  - apply parse_simple_ext.
Qed.

Lemma parse_alt_ext (f f' g g' : string -> presult (regex * string)) :
  extends f f' -> extends g g' -> extends (parse_alt f g) (parse_alt f' g').
Proof.
  intros Hf Hg s r s1 H t Ht. unfold parse_alt in *.
  apply pbind_ok in H. destruct H as ([r1 s2] & Hs & H).
  rewrite (Hg _ _ _ Hs t Ht). simpl.
  destruct s2 as [|c s2].
  - injection H as <- <-. simpl. now rewrite (ok_tail_starts _ t Ht).
  - simpl in H |- *. destruct (Ascii.eqb "|" c).
    + apply pbind_ok in H. destruct H as ([r2 s3] & Hr & [= <- <-]).
      now rewrite (Hf _ _ _ Hr t Ht).
    + now injection H as <- <-.
Qed.

Lemma parse_items_ext (f f' g g' : string -> presult (regex * string)) :
  extends f f' -> extends g g' ->
  extends (parse_items false f g) (parse_items false f' g').
Proof.
  intros Hf Hg s r s1 H t Ht. unfold parse_items, skipv in *.
  destruct s as [|c s].
  - injection H as <- <-. simpl. destruct t as [|c t]; [reflexivity|].
    simpl in Ht. subst c. reflexivity.
  - change (String c s ++ t) with (String c (s ++ t)). cbv beta iota.
    destruct (Ascii.eqb c "|" || Ascii.eqb c ")"); [now injection H as <- <-|].
    apply pbind_ok in H. destruct H as ([[a anchor] s2] & Ha & H).
    apply pbind_ok in H. destruct H as ([a' s3] & Hrep & H).
    apply pbind_ok in H. destruct H as ([r' s4] & Hrest & [= <- <-]).
    rewrite (@parse_atom_ext f f' c s t a anchor s2 Hf Ht Ha). simpl.
    rewrite (parse_repeat_ext _ _ _ t Ht Hrep). simpl.
    now rewrite (Hg _ _ _ Hrest t Ht).
Qed.

(** More fuel does not change what is read, and neither does an
    admissible text after the pattern. *)
Theorem parse_ext (n : nat) :
  forall m, n <= m ->
    extends (parse_sub n false) (parse_sub m false)
    /\ extends (parse_seq n false) (parse_seq m false).
Proof.
  induction n as [|n IH]; intros m Hm; [split; intros s r s1 H; discriminate|].
  destruct m as [|m]; [lia|]. destruct (IH m ltac:(lia)) as [IHsub IHseq].
  split; simpl.
  - now apply parse_alt_ext.
  - now apply parse_items_ext.
Qed.

(** *** The fuel is enough

    The recursion bound of [parse] is never reached: every step
    consumes a character before it goes on. *)

Lemma good_weaken {A} (x : presult (A * string)) (s s' : string) :
  good x s -> String.length s <= String.length s' -> good x s'.
Proof. intros [H1 H2] Hl. split; [assumption|]. intros a s1 E. apply H2 in E. lia. Qed.

Lemma good_lt_good {A} (x : presult (A * string)) (s : string) :
  good_lt x s -> good x s.
Proof. intros [H1 H2]. split; [assumption|]. intros a s1 E. apply H2 in E. lia. Qed.

Lemma class_escape_fuel (e : ascii) : class_escape e <> PFuel.
Proof. destruct e as [[] [] [] [] [] [] [] []]; vm_compute; discriminate. Qed.

Lemma parse_escape_fuel (e : ascii) : parse_escape e <> PFuel.
Proof. destruct e as [[] [] [] [] [] [] [] []]; vm_compute; discriminate. Qed.

Lemma mk_range_fuel (i1 i2 : setitem) : mk_range i1 i2 <> PFuel.
Proof.
  unfold mk_range. destruct i1, i2; try discriminate.
  destruct (code c <=? code c0); discriminate.
Qed.

Lemma set_atom_good (s : string) : good_lt (set_atom s) s \/ s = "".
Proof.
  destruct s as [|c s]; [now right|]. left. unfold set_atom.
  destruct (Ascii.eqb c "\").
  - destruct s as [|e s]; [split; discriminate|].
    pose proof (class_escape_fuel e).
    destruct (class_escape e); simpl; split; try discriminate; try congruence.
    intros ? ? [= <- <-]. simpl. lia.
  - split; [discriminate|]. intros ? ? [= <- <-]. simpl. lia.
Qed.

Lemma parse_set_items_good (n : nat) :
  forall first s acc, String.length s < n ->
    good_lt (parse_set_items n first s acc) s \/ s = "".
Proof.
  induction n as [|n IH]; intros first s acc Hn; [lia|].
  destruct s as [|c s]; [now right|]. left.
  unfold parse_set_items; fold parse_set_items.
  destruct (Ascii.eqb c "]" && negb first).
  { split; [discriminate|]. intros ? ? [= <- <-]. simpl. lia. }
  destruct (set_atom_good (String c s)) as [[Hf Hl] | E]; [|discriminate].
  destruct (set_atom (String c s)) as [[i1 s1]| | |] eqn:Ha;
    try (split; [discriminate | intros; discriminate]); [|congruence].
  specialize (Hl _ _ eq_refl). cbn [pbind]. cbv beta iota.
  assert (Hrec : forall s' acc', String.length s' <= String.length s1 ->
            good_lt (parse_set_items n false s' acc') (String c s)).
  { intros s' acc' Hs'. destruct (IH false s' acc' ltac:(simpl in *; lia)) as [[G1 G2] | ->].
    - split; [assumption|]. intros a s2 E. apply G2 in E. lia.
    - destruct n; [simpl in *; lia|]. split; simpl; [discriminate | intros; discriminate]. }
  destruct s1 as [|d s2]; [now apply Hrec|].
  destruct (Ascii.eqb d "-"); [|now apply Hrec].
  destruct s2 as [|e s3]; [split; [discriminate | intros; discriminate]|].
  destruct (Ascii.eqb e "]").
  { split; [discriminate|]. intros ? ? [= <- <-]. simpl in *. lia. }
  destruct (set_atom_good (String e s3)) as [[Hf2 Hl2] | E]; [|discriminate].
  destruct (set_atom (String e s3)) as [[i2 s4]| | |] eqn:Hb;
    try (split; [discriminate | intros; discriminate]); [|congruence].
  specialize (Hl2 _ _ eq_refl). cbn [pbind]. cbv beta iota.
  pose proof (mk_range_fuel i1 i2).
  destruct (mk_range i1 i2); cbn [pbind];
    try (split; [discriminate | intros; discriminate]); [|congruence].
  apply Hrec. simpl in *. lia.
Qed.

Lemma parse_set_good (s : string) : good (parse_set s) s.
Proof.
  unfold parse_set. destruct s as [|c s]; [split; [discriminate | intros; discriminate]|].
  destruct (Ascii.eqb c "^").
  - destruct (@parse_set_items_good (S (String.length s)) true s [] ltac:(lia))
      as [[G1 G2] | ->].
    + destruct (parse_set_items _ true s []) as [[items s']| | |];
        cbn [pbind]; split; try discriminate; try congruence.
      intros ? ? [= <- <-]. specialize (G2 _ _ eq_refl). simpl. lia.
    + split; simpl; [discriminate | intros; discriminate].
  - destruct (@parse_set_items_good (S (String.length (String c s))) true (String c s) []
                ltac:(lia)) as [[G1 G2] | E]; [|discriminate].
    destruct (parse_set_items _ true (String c s) []) as [[items s']| | |];
      cbn [pbind]; split; try discriminate; try congruence.
    intros ? ? [= <- <-]. specialize (G2 _ _ eq_refl). lia.
Qed.

Lemma parse_simple_good (c : ascii) (t : string) : good (parse_simple c t) t.
Proof.
  unfold parse_simple. destruct (Ascii.eqb c "\").
  { destruct t as [|e t]; [split; [discriminate | intros; discriminate]|].
    pose proof (parse_escape_fuel e).
    destruct (parse_escape e); cbn [pbind]; split; try discriminate; try congruence.
    intros ? ? [= <- <-]. simpl. lia. }
  destruct (Ascii.eqb c "[").
  { destruct (parse_set_good t) as [G1 G2].
    destruct (parse_set t) as [[r t']| | |]; cbn [pbind]; split;
      try discriminate; try congruence.
    intros ? ? [= <- <-]. now apply (G2 r). }
  repeat match goal with
         | |- context [if ?b then _ else _] => destruct b
         end; split; try discriminate; intros ? ? [= <- <-]; lia.
Qed.

Lemma skip_verbose_length (b : bool) (s : string) :
  String.length (skip_verbose b s) <= String.length s.
Proof.
  revert b. induction s as [|c s IH]; intros b; simpl; [lia|].
  destruct b; [specialize (IH (negb (Ascii.eqb c nl))); lia|].
  destruct (is_re_ws c); [specialize (IH false); lia|].
  destruct (Ascii.eqb c "#"); [specialize (IH true); lia | simpl; lia].
Qed.

Lemma skipv_length (vb : bool) (s : string) :
  String.length (skipv vb s) <= String.length s.
Proof. destruct vb; simpl; [apply skip_verbose_length | lia]. Qed.

Lemma drop_length (n : nat) (s : string) :
  String.length (drop n s) <= String.length s.
Proof.
  revert s. induction n as [|n IH]; intros [|c s]; simpl; try lia.
  specialize (IH s). lia.
Qed.

Lemma parse_repeat_good (vb anchor : bool) (a : regex) (s : string) :
  good (parse_repeat vb anchor a s) s.
Proof.
  unfold parse_repeat. pose proof (skipv_length vb s) as Hs.
  destruct (skipv vb s) as [|q t].
  { split; [discriminate|]. intros ? ? [= <- <-]. lia. }
  destruct (is_repeat_char q).
  2:{ split; [discriminate|]. intros ? ? [= <- <-]. lia. }
  destruct anchor; [split; [discriminate | intros; discriminate]|].
  assert (Ht : String.length (if starts_with (Ascii.eqb "?") t then drop 1 t else t)
               <= String.length t).
  { destruct (starts_with _ t); [apply drop_length | lia]. }
  repeat match goal with
         | |- context [if ?b then _ else _] =>
             lazymatch b with
             | starts_with (Ascii.eqb "?") t => fail
             | _ => destruct b
             end
         end; try (split; [discriminate | intros; discriminate]).
  - destruct (starts_with (Ascii.eqb "?") t); split; discriminate || (intros; discriminate).
  - split; [discriminate|]. intros ? ? [= <- <-]. simpl in Hs.
    apply (Nat.le_trans _ _ _ Ht). lia.
Qed.

Lemma read_name_length (s : string) nm s1 :
  read_name s = Some (nm, s1) -> String.length s1 < String.length s.
Proof.
  revert nm. induction s as [|c s IH]; intros nm; simpl; [discriminate|].
  destruct (Ascii.eqb c ">"); [intros [= <- <-]; lia|].
  destruct (read_name s) as [[nm' r]|]; [|discriminate].
  intros [= <- <-]. specialize (IH nm' eq_refl). lia.
Qed.

Lemma parse_group_header_good (t : string) : good (parse_group_header t) t.
Proof.
  unfold parse_group_header. destruct t as [|c1 t].
  { split; [discriminate|]. intros ? ? [= <- <-]. lia. }
  destruct (Ascii.eqb c1 "?").
  2:{ split; [discriminate|]. intros ? ? [= <- <-]. lia. }
  destruct t as [|c2 t]; [split; [discriminate | intros; discriminate]|].
  destruct (Ascii.eqb c2 ":").
  { split; [discriminate|]. intros ? ? [= <- <-]. simpl. lia. }
  destruct (Ascii.eqb c2 "P" && starts_with (Ascii.eqb "<") t);
    [|split; [discriminate | intros; discriminate]].
  destruct (read_name (drop 1 t)) as [[nm r]|] eqn:Hn;
    [|split; [discriminate | intros; discriminate]].
  apply read_name_length in Hn. pose proof (drop_length 1 t).
  destruct (negb (all_chars _ nm)); [split; [discriminate | intros; discriminate]|].
  destruct (negb (is_identifier nm)); [split; [discriminate | intros; discriminate]|].
  split; [discriminate|]. intros ? ? [= <- <-]. simpl. lia.
Qed.

Lemma parse_atom_good (psub : string -> presult (regex * string)) (c : ascii) (t : string) :
  (forall d, String.length d <= String.length t -> good (psub d) d) ->
  good (parse_atom psub c t) t.
Proof.
  intros Hsub. unfold parse_atom. destruct (Ascii.eqb c "("); [|apply parse_simple_good].
  unfold parse_group. destruct (parse_group_header_good t) as [G1 G2].
  destruct (parse_group_header t) as [[k t1]| | |]; cbn [pbind];
    try (split; [discriminate | intros; discriminate]); [|congruence].
  specialize (G2 _ _ eq_refl). destruct (Hsub t1 G2) as [S1 S2].
  destruct (psub t1) as [[r t2]| | |]; cbn [pbind];
    try (split; [discriminate | intros; discriminate]); [|congruence].
  specialize (S2 _ _ eq_refl). pose proof (drop_length 1 t2).
  destruct (starts_with _ t2); split; try discriminate.
  intros ? ? [= <- <-]. apply (Nat.le_trans _ _ _ H). lia.
Qed.

Lemma parse_alt_good (psub pseq : string -> presult (regex * string)) (s : string) :
  good (pseq s) s ->
  (forall d, String.length d < String.length s -> good (psub d) d) ->
  good (parse_alt psub pseq s) s.
Proof.
  intros [Q1 Q2] Hsub. unfold parse_alt.
  destruct (pseq s) as [[r s1]| | |]; cbn [pbind];
    try (split; [discriminate | intros; discriminate]); [|congruence].
  specialize (Q2 _ _ eq_refl).
  destruct s1 as [|c s2]; simpl.
  { split; [discriminate|]. intros ? ? [= <- <-]. simpl. lia. }
  destruct (Ascii.eqb "|" c).
  - destruct (Hsub s2 ltac:(simpl in Q2; lia)) as [S1 S2].
    destruct (psub s2) as [[r2 s3]| | |]; cbn [pbind];
      try (split; [discriminate | intros; discriminate]); [|congruence].
    specialize (S2 _ _ eq_refl). split; [discriminate|].
    intros ? ? [= <- <-]. simpl in Q2. lia.
  - split; [discriminate|]. now intros ? ? [= <- <-].
Qed.

Lemma parse_items_good (vb : bool) (psub pseq : string -> presult (regex * string))
    (s : string) :
  (forall d, String.length d < String.length s -> good (psub d) d) ->
  (forall d, String.length d < String.length s -> good (pseq d) d) ->
  good (parse_items vb psub pseq s) s.
Proof.
  intros Hsub Hseq. unfold parse_items. pose proof (skipv_length vb s) as Hs.
  destruct (skipv vb s) as [|c t].
  { split; [discriminate|]. intros ? ? [= <- <-]. simpl. lia. }
  destruct (Ascii.eqb c "|" || Ascii.eqb c ")").
  { split; [discriminate|]. now intros ? ? [= <- <-]. }
  simpl in Hs.
  destruct (@parse_atom_good psub c t) as [A1 A2].
  { intros d Hd. apply Hsub. lia. }
  destruct (parse_atom psub c t) as [[[a anchor] s1]| | |]; cbn [pbind];
    try (split; [discriminate | intros; discriminate]); [|congruence].
  specialize (A2 _ _ eq_refl).
  destruct (parse_repeat_good vb anchor a s1) as [R1 R2].
  destruct (parse_repeat vb anchor a s1) as [[a' s2]| | |]; cbn [pbind];
    try (split; [discriminate | intros; discriminate]); [|congruence].
  specialize (R2 _ _ eq_refl).
  destruct (Hseq s2 ltac:(lia)) as [S1 S2].
  destruct (pseq s2) as [[r s3]| | |]; cbn [pbind];
    try (split; [discriminate | intros; discriminate]); [|congruence].
  specialize (S2 _ _ eq_refl). split; [discriminate|].
  intros ? ? [= <- <-]. lia.
Qed.

Theorem parse_fuel (vb : bool) (n : nat) :
  (forall s, 2 * String.length s + 2 <= n -> good (parse_sub n vb s) s)
  /\ (forall s, 2 * String.length s + 1 <= n -> good (parse_seq n vb s) s).
Proof.
  induction n as [|n [IHsub IHseq]]; [split; intros s H; lia|].
  split; intros s H; simpl.
  - apply parse_alt_good; [apply IHseq; lia|]. intros d Hd. apply IHsub. lia.
  - apply parse_items_good; intros d Hd; [apply IHsub | apply IHseq]; lia.
Qed.

(** [re.compile] never stops for want of fuel. *)
Corollary parse_total (vb : bool) (p : string) : parse vb p <> PFuel.
Proof.
  unfold parse. destruct (parse_fuel vb (2 * String.length p + 2)) as [H _].
  now apply H.
Qed.

(** *** Escaped literals *)

Lemma escaped_special (c : ascii) :
  is_special c = true -> parse_escape c = POk (Chr c).
Proof.
  destruct c as [[] [] [] [] [] [] [] []]; vm_compute; intros H;
    first [discriminate H | reflexivity].
Qed.

Lemma plain_char_tests (c : ascii) :
  is_special c = false ->
  Ascii.eqb c "|" || Ascii.eqb c ")" || Ascii.eqb c "(" || is_repeat_char c
  || Ascii.eqb c "\" || Ascii.eqb c "[" || Ascii.eqb c "." || Ascii.eqb c "^"
  || Ascii.eqb c "$" || Ascii.eqb c "{" = false.
Proof.
  destruct c as [[] [] [] [] [] [] [] []]; vm_compute; intros H;
    first [discriminate H | reflexivity].
Qed.

Lemma plain_char (c : ascii) :
  is_special c = false ->
  (Ascii.eqb c "|" || Ascii.eqb c ")") = false
  /\ Ascii.eqb c "(" = false
  /\ is_repeat_char c = false
  /\ forall t, parse_simple c t = POk (Chr c, false, t).
Proof.
  intros H. apply plain_char_tests in H.
  repeat (apply orb_false_iff in H; destruct H as [H ?]).
  unfold parse_simple.
  repeat match goal with E : _ = false |- _ => rewrite E; clear E end.
  auto.
Qed.

Lemma parse_repeat_none (anchor : bool) (a : regex) (s : string) :
  starts_with is_repeat_char s = false -> parse_repeat false anchor a s = POk (a, s).
Proof.
  unfold parse_repeat, skipv. destruct s as [|q s]; [reflexivity|]. simpl.
  now intros ->.
Qed.

Lemma escape_head (s t : string) :
  ok_tail t -> starts_with is_repeat_char (escape s ++ t) = false.
Proof.
  intros Ht. destruct s as [|c s]; simpl.
  - now apply ok_tail_starts.
  - destruct (is_special c) eqn:E; simpl; [reflexivity|].
    now destruct (plain_char c E) as (_ & _ & -> & _).
Qed.

Lemma parse_escaped (s : string) :
  forall m t, String.length s < m -> ok_tail t ->
    parse_seq m false (escape s ++ t) = POk (lits s, t).
Proof.
  induction s as [|c s IH]; intros m t Hm Ht; (destruct m as [|m]; [simpl in Hm; lia|]).
  - simpl. unfold parse_items, skipv. destruct t as [|d t]; [reflexivity|].
    simpl in Ht. subst d. reflexivity.
  - assert (Hm' : String.length s < m) by (simpl in Hm; lia).
    cbn [parse_seq escape]. unfold parse_items, skipv.
    destruct (is_special c) eqn:E.
    + change (String "\" (String c (escape s)) ++ t)
        with (String "\" (String c (escape s ++ t))).
      cbv beta iota.
      change (Ascii.eqb "\" "|" || Ascii.eqb "\" ")") with false.
      unfold parse_atom. change (Ascii.eqb "\" "(") with false.
      unfold parse_simple. change (Ascii.eqb "\" "\") with true.
      cbv beta iota. rewrite (escaped_special c E). unfold pbind at 2. unfold pbind at 1.
      rewrite (parse_repeat_none _ _ _ (escape_head s t Ht)). unfold pbind at 1.
      rewrite (IH m t Hm' Ht). reflexivity.
    + change (String c (escape s) ++ t) with (String c (escape s ++ t)).
      cbv beta iota. destruct (plain_char c E) as (-> & Hp & _ & Hs).
      unfold parse_atom. rewrite Hp, Hs. unfold pbind at 1.
      rewrite (parse_repeat_none _ _ _ (escape_head s t Ht)). unfold pbind at 1.
      rewrite (IH m t Hm' Ht). reflexivity.
Qed.

Lemma slength_escape (s : string) : String.length s <= String.length (escape s).
Proof.
  induction s as [|c s IH]; simpl; [lia|]. destruct (is_special c); simpl; lia.
Qed.

(** A literal piece, once escaped, is read as the pattern of its
    characters. *)
Lemma escaped_reads_as (s : string) : reads_as (escape s) (lits s).
Proof.
  unfold reads_as, parse. pose proof (slength_escape s) as Hl.
  replace (2 * String.length (escape s) + 2)
    with (S (2 * String.length (escape s) + 1)) by lia.
  cbn [parse_sub]. unfold parse_alt.
  pose proof (@parse_escaped s (2 * String.length (escape s) + 1) "" ltac:(lia) I) as H.
  rewrite sapp_nil_r in H. rewrite H. reflexivity.
Qed.

(** *** The compiled check *)

Lemma sconcat_cons (x : string) (l : list string) :
  String.concat "" (x :: l) = x ++ String.concat "" l.
Proof. destruct l; simpl; [now rewrite sapp_nil_r | reflexivity]. Qed.

Lemma sconcat_app (l1 l2 : list string) :
  String.concat "" (l1 ++ l2) = String.concat "" l1 ++ String.concat "" l2.
Proof.
  induction l1 as [|x l1 IH]; [reflexivity|].
  change ((x :: l1) ++ l2)%list with (x :: (l1 ++ l2)%list).
  now rewrite !sconcat_cons, IH, sapp_assoc.
Qed.

Lemma full_re_source_eq (re_strings : list string) :
  full_re_source re_strings = "^\s*" ++ wrapped re_strings.
Proof.
  unfold full_re_source, wrapped.
  change (["^\s*"] ++ map (fun s => ("(?:" ++ s ++ ")")%string) re_strings
                   ++ ["\s*\n?$"])%list
    with ("^\s*" :: (map (fun s => ("(?:" ++ s ++ ")")%string) re_strings
                     ++ ["\s*\n?$"])%list).
  now rewrite sconcat_cons, sconcat_app.
Qed.

Lemma wrapped_cons (s0 : string) (re_strings : list string) :
  wrapped (s0 :: re_strings) = "(?:" ++ s0 ++ ")" ++ wrapped re_strings.
Proof.
  unfold wrapped. cbn [map]. rewrite sconcat_cons. simpl.
  now rewrite !sapp_assoc.
Qed.

Lemma wrapped_head (re_strings : list string) :
  starts_with is_repeat_char (wrapped re_strings) = false.
Proof. destruct re_strings; [reflexivity | now rewrite wrapped_cons]. Qed.

Lemma parse_tail (m : nat) :
  4 <= m -> parse_seq m false "\s*\n?$" = POk (tail_re, "").
Proof.
  intros H. do 4 (destruct m as [|m]; [lia|]). reflexivity.
Qed.

Lemma pbind_POk {A B} (a : A) (f : A -> presult B) : pbind (POk a) f = f a.
Proof. reflexivity. Qed.

(** One step of [parse_seq] on an atom and what follows it. *)
Lemma parse_seq_atom (m : nat) (c : ascii) (t : string) a anchor s1 r s3 :
  Ascii.eqb c "|" || Ascii.eqb c ")" = false ->
  parse_atom (parse_sub m false) c t = POk (a, anchor, s1) ->
  starts_with is_repeat_char s1 = false ->
  parse_seq m false s1 = POk (r, s3) ->
  parse_seq (S m) false (String c t) = POk (Cat a r, s3).
Proof.
  intros Hc Ha Hs Hr. cbn [parse_seq]. unfold parse_items, skipv.
  rewrite Hc, Ha, pbind_POk. cbv beta iota.
  rewrite (parse_repeat_none _ _ _ Hs), pbind_POk. cbv beta iota.
  now rewrite Hr.
Qed.

Lemma parse_group_noncapturing (psub : string -> presult (regex * string))
    (s0 t : string) (r0 : regex) :
  psub (s0 ++ ")" ++ t) = POk (r0, ")" ++ t) ->
  parse_atom psub "(" ("?:" ++ s0 ++ ")" ++ t) = POk (NGroup r0, false, t).
Proof.
  intros H. unfold parse_atom. change (Ascii.eqb "(" "(") with true. cbv beta iota.
  unfold parse_group.
  change (parse_group_header ("?:" ++ s0 ++ ")" ++ t))
    with (@POk (gkind * string) (GNon, s0 ++ ")" ++ t)).
  rewrite pbind_POk. cbv beta iota. rewrite H, pbind_POk. reflexivity.
Qed.

Lemma parse_wrapped (re_strings : list string) :
  forall rs m,
    Forall2 reads_as re_strings rs ->
    2 * String.length (wrapped re_strings) + 1 <= m ->
    parse_seq m false (wrapped re_strings) = POk (groups rs tail_re, "").
Proof.
  induction re_strings as [|s0 re_strings IH]; intros rs m Hr Hm.
  - inversion Hr; subst. apply parse_tail. simpl in Hm. lia.
  - inversion Hr as [|? r0 ? rs' H0 Hr']; subst.
    rewrite wrapped_cons in Hm |- *. rewrite !slength_app in Hm.
    change (String.length "(?:") with 3 in Hm. change (String.length ")") with 1 in Hm.
    destruct m as [|m]; [lia|].
    destruct (@parse_ext (2 * String.length s0 + 2) m ltac:(lia)) as [Hsub _].
    change ("(?:" ++ s0 ++ ")" ++ wrapped re_strings)
      with (String "(" ("?:" ++ s0 ++ ")" ++ wrapped re_strings)).
    apply parse_seq_atom with (anchor := false) (s1 := wrapped re_strings).
    + reflexivity.
    + apply parse_group_noncapturing.
      apply (Hsub _ _ _ H0 (")" ++ wrapped re_strings) eq_refl).
    + apply wrapped_head.
    + apply IH; [assumption | lia].
Qed.

Lemma repeat_char_tests (c : ascii) :
  is_repeat_char c = false -> Ascii.eqb "?" c = false /\ Ascii.eqb "+" c = false.
Proof.
  intros H. split.
  - destruct (Ascii.eqb_spec "?" c) as [<- | _]; [discriminate | reflexivity].
  - destruct (Ascii.eqb_spec "+" c) as [<- | _]; [discriminate | reflexivity].
Qed.

Lemma parse_repeat_star (a : regex) (s : string) :
  starts_with is_repeat_char s = false ->
  parse_repeat false false a (String "*" s) = POk (Star true a, s).
Proof.
  intros H. unfold parse_repeat, skipv. cbv beta iota.
  change (is_repeat_char "*") with true. cbv beta iota.
  destruct s as [|c s]; [reflexivity|]. simpl in H.
  destruct (repeat_char_tests c H) as [H1 H2]. simpl. rewrite H1. simpl.
  now rewrite H2, H.
Qed.

(** The pattern text of a check whose pieces are read as [rs] is read
    as the anchors around the groups of [rs]. *)
Theorem parse_full_re_source (re_strings : list string) (rs : list regex) :
  Forall2 reads_as re_strings rs ->
  parse false (full_re_source re_strings) = POk (skeleton rs, "").
Proof.
  intros Hr. unfold parse. rewrite full_re_source_eq.
  set (src := wrapped re_strings).
  change (String.length ("^\s*" ++ src)) with (4 + String.length src).
  replace (2 * (4 + String.length src) + 2)
    with (S (S (S (2 * String.length src + 7)))) by lia.
  cbn [parse_sub]. unfold parse_alt.
  change ("^\s*" ++ src) with (String "^" (String "\" (String "s" (String "*" src)))).
  rewrite (@parse_seq_atom (S (2 * String.length src + 7)) "^"
             (String "\" (String "s" (String "*" src)))
             Bol true (String "\" (String "s" (String "*" src)))
             (Cat (Star true WS) (groups rs tail_re)) "").
  - reflexivity.
  - reflexivity.
  - reflexivity.
  - reflexivity.
  - cbn [parse_seq]. unfold parse_items, skipv.
    change (Ascii.eqb "\" "|" || Ascii.eqb "\" ")") with false. cbv beta iota.
    change (parse_atom (parse_sub (2 * String.length src + 7) false) "\"
              (String "s" (String "*" src)))
      with (@POk (regex * bool * string) (WS, false, String "*" src)).
    rewrite pbind_POk. cbv beta iota.
    rewrite (parse_repeat_star WS src (wrapped_head re_strings)), pbind_POk.
    cbv beta iota. unfold src.
    now rewrite (parse_wrapped Hr (m := 2 * String.length (wrapped re_strings) + 7))
      by lia.
Qed.

(** What [re.compile] makes of the pattern text of a check. *)
Corollary compile_full_re_source (re_strings : list string) (rs : list regex) :
  Forall2 reads_as re_strings rs ->
  compile (full_re_source re_strings)
  = match first_redefined (group_names (skeleton rs)) [] with
    | Some name => PError (RedefinedGroup name)
    | None => POk (fst (number (skeleton rs) 1))
    end.
Proof.
  intros Hr. unfold compile, compile_with. now rewrite (parse_full_re_source Hr).
Qed.

Lemma compile_reads (p : string) (r : regex) :
  compile p = POk r -> exists r0, reads_as p r0.
Proof.
  unfold compile, compile_with, reads_as. intros H.
  apply pbind_ok in H. destruct H as ([r0 s0] & Hp & H).
  destruct s0; [eauto | discriminate].
Qed.

End ParserFacts.

(** ** What a compiled check accepts *)

Module CheckFacts.
Import Re ReFacts ParserFacts.

Lemma star_lang_iff (L1 L2 : nat -> string -> string -> Prop) :
  (forall n w s', L1 n w s' <-> L2 n w s') ->
  forall n w s', star_lang L1 n w s' <-> star_lang L2 n w s'.
Proof.
  intros H n w s'. split; induction 1; constructor; auto; now apply H.
Qed.

(** Numbering the groups does not change the language. *)
Lemma Lang_number (r : regex) :
  forall k n w s', Lang (fst (number r k)) n w s' <-> Lang r n w s'.
Proof.
  induction r; intros k n w s'; simpl; try tauto.
  - specialize (IHr1 k). destruct (number r1 k) as [a' n1].
    specialize (IHr2 n1). destruct (number r2 n1) as [b' n2]. simpl in *.
    split; intros (w1 & w2 & -> & H1 & H2); exists w1, w2;
      (split; [reflexivity|]); (split; [now apply IHr1 | now apply IHr2]).
  - specialize (IHr1 k). destruct (number r1 k) as [a' n1].
    specialize (IHr2 n1). destruct (number r2 n1) as [b' n2]. simpl in *.
    rewrite IHr1, IHr2. tauto.
  - specialize (IHr k). destruct (number r k) as [a' n1]. simpl in *.
    now apply star_lang_iff.
  - specialize (IHr k). destruct (number r k) as [a' n1]. simpl in *.
    split; intros (w1 & w2 & -> & H1 & H2); exists w1, w2;
      (split; [reflexivity|]); (split; [now apply IHr|]);
      eapply star_lang_iff; eauto; intros; symmetry; apply IHr.
  - specialize (IHr k). destruct (number r k) as [a' n1]. simpl in *.
    rewrite IHr. tauto.
  - specialize (IHr (S k)). destruct (number r (S k)) as [a' n1]. simpl in *.
    apply IHr.
  - specialize (IHr k). destruct (number r k) as [a' n1]. simpl in *. apply IHr.
Qed.

Lemma Lang_lits (t : string) :
  forall n w s', Lang (lits t) n w s' <-> w = t.
Proof.
  induction t as [|c t IH]; intros n w s'; simpl; [tauto|]. split.
  - intros (w1 & w2 & -> & -> & H). apply IH in H. now subst.
  - intros ->. exists (String c ""), t. repeat split. now apply IH.
Qed.

Lemma Lang_spaces (n : nat) (w s' : string) :
  star_lang (Lang WS) n w s' <-> all_chars isspace_char w = true.
Proof.
  split.
  - induction 1 as [|n w1 w2 s' Hne (c & -> & Hc) _ IH]; [reflexivity|].
    simpl. rewrite IH, andb_true_r. unfold set_mem in Hc. simpl in Hc.
    now rewrite orb_false_r in Hc.
  - revert n. induction w as [|c w IH]; intros n H; [constructor|].
    simpl in H. apply andb_true_iff in H. destruct H as [Hc Hw].
    change (String c w) with (String c "" ++ w). constructor.
    + discriminate.
    + exists c. split; [reflexivity|]. unfold set_mem. simpl.
      now rewrite Hc.
    + now apply IH.
Qed.

Lemma all_chars_app (p : ascii -> bool) (a b : string) :
  all_chars p (a ++ b) = all_chars p a && all_chars p b.
Proof. induction a; simpl; [reflexivity|]. now rewrite IHa, andb_assoc. Qed.

(** After the last piece: whitespace up to the end of the line. *)
Lemma Lang_tail (n : nat) (w s' : string) :
  Lang tail_re n w s' -> all_chars isspace_char (w ++ s') = true.
Proof.
  intros (w1 & w2 & -> & H1 & w3 & w4 & -> & H3 & w5 & w6 & -> & [-> H5] & ->).
  apply Lang_spaces in H1. simpl in H5.
  rewrite !all_chars_app, H1. simpl.
  destruct H3 as [-> | ->], H5 as [-> | ->]; reflexivity.
Qed.

Lemma Lang_tail_spaces (n : nat) (w : string) :
  all_chars isspace_char w = true -> Lang tail_re n w "".
Proof.
  intros H. exists w, "". rewrite sapp_nil_r. split; [reflexivity|]. split.
  - now apply Lang_spaces.
  - exists "", "". repeat split; simpl; auto.
    exists "", "". repeat split; simpl; auto.
Qed.

(** The groups of the pieces, then whatever comes after them. *)
Lemma Lang_groups (rs : list regex) (rest : regex) :
  forall n w s',
    Lang (groups rs rest) n w s' <->
    exists wb wt, w = wb ++ wt /\ Lang (groups rs Eps) n wb (wt ++ s')
                  /\ Lang rest (n + String.length wb) wt s'.
Proof.
  induction rs as [|r rs IH]; intros n w s'; simpl.
  - split.
    + intros H. exists "", w. simpl. now rewrite Nat.add_0_r.
    + intros (wb & wt & -> & -> & H). simpl in H. now rewrite Nat.add_0_r in H.
  - split.
    + intros (w1 & w2 & -> & H1 & H2). apply IH in H2.
      destruct H2 as (wb & wt & -> & Hb & Ht).
      exists (w1 ++ wb), wt. split; [now rewrite sapp_assoc|]. split.
      * exists w1, wb. split; [reflexivity|]. now rewrite sapp_assoc in H1.
      * now rewrite slength_app, Nat.add_assoc.
    + intros (wb & wt & -> & (w1 & w2 & -> & H1 & H2) & Ht).
      exists w1, (w2 ++ wt). split; [now rewrite sapp_assoc|]. split.
      * now rewrite sapp_assoc.
      * apply IH. exists w2, wt. split; [reflexivity|]. split; [assumption|].
        now rewrite slength_app, Nat.add_assoc in Ht.
Qed.

(** A line is matched by the pattern of a check exactly when it is
    whitespace, then a text the pieces match, then whitespace up to
    its end. *)
Theorem skeleton_matches (rs : list regex) (l : string) :
  (exists w s', l = w ++ s' /\ Lang (skeleton rs) 0 w s') <->
  (exists ws1 body ws2,
     l = ws1 ++ body ++ ws2
     /\ all_chars isspace_char ws1 = true /\ all_chars isspace_char ws2 = true
     /\ Lang (groups rs Eps) (String.length ws1) body ws2).
Proof.
  split.
  - intros (w & s' & -> & w0 & w1 & -> & [-> _] & ws1 & w2 & -> & Hs & Hg).
    apply Lang_spaces in Hs. apply Lang_groups in Hg.
    destruct Hg as (body & wt & -> & Hb & Ht). apply Lang_tail in Ht.
    exists ws1, body, (wt ++ s'). simpl in *. repeat split; auto.
    now rewrite !sapp_assoc.
  - intros (ws1 & body & ws2 & -> & H1 & H2 & Hb).
    exists (ws1 ++ body ++ ws2), "". split; [now rewrite sapp_nil_r|].
    exists "", (ws1 ++ body ++ ws2). split; [reflexivity|]. split; [now split|].
    exists ws1, (body ++ ws2). split; [reflexivity|]. split.
    + now apply Lang_spaces.
    + apply Lang_groups. exists body, ws2. split; [reflexivity|].
      rewrite sapp_nil_r. split; [assumption|]. now apply Lang_tail_spaces.
Qed.

(** *** Check lines without braces *)

Lemma bracket_re_eq :
  bracket_re = Cat (Chr "{") (Cat (Chr "{")
                 (Cat (Group 1 None (Cat (Star false Any) Eps))
                      (Cat (Chr "}") (Cat (Chr "}") Eps)))).
Proof. vm_compute. reflexivity. Qed.

Lemma bracket_match (q : nat) (b : string) (st : mstate) :
  m bracket_re (MState q b []) Some = Some st -> exists rest, b = "{{" ++ rest.
Proof.
  intros H. apply m_sound in H. destruct H as (w & s' & cs & E & HL & _).
  simpl in E. subst b. rewrite bracket_re_eq in HL.
  destruct HL as (w1 & w2 & -> & -> & w3 & w4 & -> & -> & _).
  exists (w4 ++ s'). reflexivity.
Qed.

Lemma search_from_none (r : regex) (s : string) :
  (forall a b q, s = a ++ b -> m r (MState q b []) Some = None) ->
  forall p, search_from r p s = None.
Proof.
  induction s as [|c s IH]; intros H p; simpl.
  - now rewrite (H "" "" p eq_refl).
  - rewrite (H "" (String c s) p eq_refl). apply IH.
    intros a b q ->. apply (H (String c a) b q). reflexivity.
Qed.

(** A check line without an opening pair of braces is one literal piece. *)
Lemma split_literal (t : string) :
  (forall a b, t <> a ++ "{{" ++ b) -> split bracket_re t = [t].
Proof.
  intros H. unfold split, finditer. cbn [scan]. rewrite search_from_none; [reflexivity|].
  intros a b q ->. destruct (m bracket_re _ _) eqn:Hm; [|reflexivity].
  apply bracket_match in Hm. destruct Hm as [rest ->]. now destruct (H a rest).
Qed.

Lemma group_names_lits (t : string) : group_names (lits t) = [].
Proof. induction t; simpl; auto. Qed.

Lemma number_lits (t : string) (k : nat) : number (lits t) k = (lits t, k).
Proof. revert k. induction t; intros k; simpl; [reflexivity|]. now rewrite IHt. Qed.

Lemma Lang_one_literal (t : string) (n : nat) (w s' : string) :
  Lang (groups [lits t] Eps) n w s' <-> w = t.
Proof.
  simpl. split.
  - intros (w1 & w2 & -> & H & ->). apply Lang_lits in H. subst.
    now rewrite sapp_nil_r.
  - intros ->. exists t, "". rewrite sapp_nil_r. repeat split. now apply Lang_lits.
Qed.

End CheckFacts.

(** *** From the check line to its pattern *)

Lemma parse_pieces_read (line : Line) (pieces : list string) :
  forall even acc re_strings,
    parse_pieces line pieces even acc = Ok re_strings ->
    exists news rs,
      re_strings = (acc ++ news)%list /\ Forall2 reads_as news rs
      /\ pieces_read pieces even rs.
Proof.
  induction pieces as [|piece pieces IH]; intros even acc re_strings H; simpl in H.
  - injection H as <-. exists [], []. rewrite app_nil_r. repeat split. constructor.
  - destruct even.
    + apply IH in H. destruct H as (news & rs & -> & Hr & Hp).
      exists (Re.escape piece :: news), (lits piece :: rs). rewrite <- app_assoc.
      repeat split; auto. constructor; [apply ParserFacts.escaped_reads_as | assumption].
    + destruct (Re.compile piece) as [r| | |] eqn:Hc; try discriminate.
      apply ParserFacts.compile_reads in Hc. destruct Hc as [r0 Hr0].
      apply IH in H. destruct H as (news & rs & -> & Hr & Hp).
      exists (piece :: news), (r0 :: rs). rewrite <- app_assoc.
      repeat split; auto.
Qed.

(** The pattern of a compiled check is the skeleton around the
    patterns of its pieces. *)
Theorem CheckCmd_parse_shape (line : Line) (checktype : string) (c : CheckCmd) :
  CheckCmd_parse line checktype = Ok c ->
  exists rs,
    pieces_read (Re.split bracket_re (text line)) true rs
    /\ regex c = fst (Re.number (skeleton rs) 1).
Proof.
  unfold CheckCmd_parse. intros H.
  destruct (parse_pieces line _ true []) as [re_strings|e] eqn:Hp; [|discriminate].
  simpl in H. apply parse_pieces_read in Hp. destruct Hp as (news & rs & -> & Hr & Hp).
  simpl in H. rewrite (ParserFacts.compile_full_re_source Hr) in H.
  destruct (Re.first_redefined _ _); [discriminate|]. injection H as <-.
  exists rs. split; [assumption | reflexivity].
Qed.

Lemma accepts_iff (c : CheckCmd) (l : string) :
  accepts c l = true <-> exists w s', l = w ++ s' /\ Re.Lang (regex c) 0 w s'.
Proof.
  unfold accepts. rewrite <- ReFacts.match_iff. destruct (Re.match_ _ _); split; congruence.
Qed.

(** A literal check line always compiles, to the skeleton around the
    pattern of its characters. *)
Lemma literal_check_compiles (line : Line) (checktype : string) :
  Re.split bracket_re (text line) = [text line] ->
  CheckCmd_parse line checktype
  = Ok (mkCheckCmd line checktype (skeleton [lits (text line)])).
Proof.
  intros H. unfold CheckCmd_parse. rewrite H. simpl.
  assert (Hr : Forall2 reads_as [Re.escape (text line)] [lits (text line)]).
  { repeat constructor. apply ParserFacts.escaped_reads_as. }
  rewrite (ParserFacts.compile_full_re_source Hr). unfold skeleton. simpl.
  rewrite CheckFacts.group_names_lits, CheckFacts.number_lits. reflexivity.
Qed.


(** C5.  The pattern of a compiled check is anchored to the whole
    line: it accepts a line exactly when the line is whitespace,
    then a text matched by the pieces of the check one after the
    other, then whitespace up to the end of the line (a final newline
    is whitespace), so nothing of the line is left unmatched.  In
    particular a check line that is one literal piece accepts exactly
    the lines that are this text with whitespace around it. *)
Theorem whole_line_anchored (line : Line) (checktype : string) (c : CheckCmd) :
  CheckCmd_parse line checktype = Ok c ->
  exists rs,
    pieces_read (Re.split bracket_re (text line)) true rs
    /\ (forall l,
          accepts c l = true <->
          exists ws1 body ws2,
            l = ws1 ++ body ++ ws2
            /\ all_chars isspace_char ws1 = true
            /\ all_chars isspace_char ws2 = true
            /\ Re.Lang (groups rs Re.Eps) (String.length ws1) body ws2)
    /\ (Re.split bracket_re (text line) = [text line] ->
        forall l,
          accepts c l = true <->
          exists ws1 ws2,
            l = ws1 ++ text line ++ ws2
            /\ all_chars isspace_char ws1 = true
            /\ all_chars isspace_char ws2 = true).
Proof.
  intros H. destruct (CheckCmd_parse_shape _ _ H) as (rs & Hp & Hr).
  assert (Hacc : forall l,
          accepts c l = true <->
          exists ws1 body ws2,
            l = ws1 ++ body ++ ws2
            /\ all_chars isspace_char ws1 = true
            /\ all_chars isspace_char ws2 = true
            /\ Re.Lang (groups rs Re.Eps) (String.length ws1) body ws2).
  { intros l. rewrite accepts_iff, Hr, <- CheckFacts.skeleton_matches.
    split; intros (w & s' & -> & HL); exists w, s'; (split; [reflexivity|]);
      now apply CheckFacts.Lang_number in HL || apply CheckFacts.Lang_number. }
  exists rs. split; [assumption|]. split; [assumption|].
  intros Hlit l. rewrite Hlit in Hp. destruct rs as [|r [|r' rs]]; simpl in Hp;
    try tauto. destruct Hp as [-> _]. rewrite Hacc. split.
  - intros (ws1 & body & ws2 & -> & H1 & H2 & Hb).
    apply CheckFacts.Lang_one_literal in Hb. subst body. eauto.
  - intros (ws1 & ws2 & -> & H1 & H2). exists ws1, (text line), ws2.
    repeat split; auto. now apply CheckFacts.Lang_one_literal.
Qed.

Lemma whole_line_anchored_witness :
  accepts (check_of "a.b*c" 1) ("  a.b*c " ++ String nl "") = true.
Proof.
  destruct (@whole_line_anchored (mkLine "a.b*c" 1 "f") "CHECK" (check_of "a.b*c" 1)
              eq_refl) as (rs & _ & _ & Hlit).
  apply Hlit; [vm_compute; reflexivity|].
  exists "  ", (" " ++ String nl ""). repeat split.
Defined.

(** * Further properties of the code *)

(** ** [TestRun.check]: what a success means *)

Lemma drain_empties_nil (lines : list Line) :
  drain_empties lines = [] <-> Forall (fun l => is_empty_space l = true) lines.
Proof.
  induction lines as [|l lines IH]; simpl.
  - split; [constructor | reflexivity].
  - destruct (is_empty_space l) eqn:E.
    + rewrite IH. split; [now constructor | now inversion 1].
    + split; [discriminate | inversion 1; congruence].
Qed.

Lemma check_finish_none self lq cq a :
  check_finish self (lq, cq, a) = None <->
  mismatches a = [] /\ drain_empties lq = [] /\ cq = [].
Proof.
  unfold check_finish. destruct (mismatches a) as [|[l c] ms].
  - destruct (drain_empties lq).
    + destruct cq; [tauto|]. split; [discriminate | intros (_ & _ & H); discriminate].
    + split; [discriminate | intros (_ & H & _); discriminate].
  - split; [discriminate | intros (H & _); discriminate].
Qed.

Lemma check_loop_success self (lines : list Line) :
  forall checks a,
    check_finish self (check_loop lines checks a) = None ->
    mismatches a = [] /\ aligned lines checks.
Proof.
  induction lines as [|line lines IH]; intros checks a H.
  - cbn [check_loop] in H. apply check_finish_none in H. destruct H as (Hm & _ & ->).
    split; [assumption|]. constructor. constructor.
  - destruct checks as [|check checks].
    + rewrite check_loop_no_checks in H. apply check_finish_none in H.
      destruct H as (Hm & Hd & _).
      split; [assumption|]. constructor. now apply drain_empties_nil.
    + cbn [check_loop] in H. destruct (matches check line) eqn:Hmatch.
      * apply IH in H. destruct H as [Hm Ha]. simpl in Hm. split; [assumption|].
        now apply aligned_match.
      * destruct (is_empty_space line) eqn:He.
        -- apply IH in H. destruct H as [Hm Ha]. split; [assumption|].
           now apply aligned_blank.
        -- apply IH in H. destruct H as [Hm _]. simpl in Hm.
           apply app_eq_nil in Hm. destruct Hm as [_ Hm]. discriminate.
Qed.

(** X1.  A success of [TestRun.check] is an alignment: every check was
    matched by an output line of its own, in the order of the checks,
    and every output line that matched no check is blank. *)
Theorem check_success_aligned (self : TestRun) (lines : list Line)
    (checks : list CheckCmd) :
  TestRun_check self lines checks = None -> aligned lines checks.
Proof.
  intros H. now apply (@check_loop_success self lines checks (mkAcc [] [] [] [] [])).
Qed.

Lemma check_success_aligned_witness :
  aligned [out_line "a" 1; out_line "" 2; out_line "b" 3] [check_of "a" 1; check_of "b" 2].
Proof.
  apply (@check_success_aligned example_run). vm_compute. reflexivity.
Defined.

Lemma aligned_nil_blank (lines : list Line) (checks : list CheckCmd) :
  aligned lines checks -> checks = [] ->
  Forall (fun l => is_empty_space l = true) lines.
Proof.
  induction 1 as [lines H | | l lines checks Hb _ IH]; intros E;
    [assumption | discriminate | constructor; auto].
Qed.

Lemma aligned_check_loop self (lines : list Line) (checks : list CheckCmd) :
  aligned lines checks ->
  (forall l c, In l lines -> In c checks ->
               is_empty_space l = true -> matches c l = false) ->
  forall a, mismatches a = [] ->
    check_finish self (check_loop lines checks a) = None.
Proof.
  induction 1 as [lines H | l lines c checks Hm _ IH | l lines checks Hb Ha IH];
    intros Hno a Hmis.
  - rewrite check_loop_no_checks. apply check_finish_none.
    repeat split; auto. now apply drain_empties_nil.
  - simpl. rewrite Hm. apply IH; [|assumption].
    intros l' c' Hl Hc. apply Hno; now right.
  - destruct checks as [|c checks].
    + rewrite check_loop_no_checks. apply check_finish_none.
      repeat split; auto. apply drain_empties_nil. constructor; [assumption|].
      now apply (aligned_nil_blank Ha).
    + simpl. rewrite (Hno l c (or_introl eq_refl) (or_introl eq_refl) Hb), Hb.
      apply IH; [|assumption]. intros l' c' Hl Hc. apply Hno; [now right | assumption].
Qed.

(** X2.  When no check accepts a blank line of the output, the greedy loop
    of [TestRun.check] finds an alignment whenever there is one: the
    check succeeds on every output that can be aligned with the
    checks. *)
Theorem aligned_check_succeeds (self : TestRun) (lines : list Line)
    (checks : list CheckCmd) :
  (forall l c, In l lines -> In c checks ->
               is_empty_space l = true -> matches c l = false) ->
  aligned lines checks ->
  TestRun_check self lines checks = None.
Proof.
  intros Hno Ha. now apply aligned_check_loop.
Qed.

Lemma aligned_check_succeeds_witness :
  TestRun_check example_run [out_line "" 1; out_line "a" 2; out_line " " 3]
                [check_of "a" 1] = None.
Proof.
  apply aligned_check_succeeds.
  - intros l c [<- | [<- | [<- | []]]] [<- | []] H; try reflexivity; discriminate H.
  - apply aligned_blank; [reflexivity|]. apply aligned_match; [reflexivity|].
    apply aligned_done. repeat constructor.
Defined.

(** ** [TestRun.check]: what a failure holds *)

Lemma check_loop_context (lines : list Line) :
  forall checks a,
    let '(lq, cq, a') := check_loop lines checks a in
    exists used,
      usedlines a' = (usedlines a ++ used)%list
      /\ text1 a' = (text1 a ++ map escaped_text used)%list
      /\ (leftover_lines used ++ leftover_lines lq)%list = leftover_lines lines
      /\ (usedchecks a' ++ cq)%list = (usedchecks a ++ checks)%list
      /\ List.length (text2 a') + List.length cq
         = List.length (text2 a) + List.length checks.
Proof.
  induction lines as [|line lines IH]; intros checks a.
  - simpl. exists []. rewrite !app_nil_r. auto.
  - destruct checks as [|check checks].
    + simpl. exists []. rewrite !app_nil_r. auto.
    + simpl. destruct (matches check line).
      * match goal with |- context [check_loop lines checks ?acc] =>
          specialize (IH checks acc); destruct (check_loop lines checks acc)
            as [[lq cq] a'] end.
        destruct IH as (used & H1 & H2 & H3 & H4 & H5). simpl in *.
        exists (line :: used). rewrite <- app_assoc in H1, H2, H4. simpl in *.
        rewrite length_app in H5. simpl in H5.
        repeat split; auto; [|lia].
        destruct (is_empty_space line); simpl; now rewrite H3.
      * destruct (is_empty_space line) eqn:He.
        -- specialize (IH (check :: checks) a).
           destruct (check_loop lines (check :: checks) a) as [[lq cq] a'].
           destruct IH as (used & H1 & H2 & H3 & H4 & H5).
           exists used. simpl. auto.
        -- match goal with |- context [check_loop lines checks ?acc] =>
             specialize (IH checks acc); destruct (check_loop lines checks acc)
               as [[lq cq] a'] end.
           destruct IH as (used & H1 & H2 & H3 & H4 & H5). simpl in *.
           exists (line :: used). rewrite <- app_assoc in H1, H2, H4. simpl in *.
           rewrite length_app in H5. simpl in H5. rewrite He. simpl.
           repeat split; auto; [|lia]. now rewrite H3.
Qed.

Lemma check_finish_some self lq cq a f :
  check_finish self (lq, cq, a) = Some f ->
  testrun f = self
  /\ error_annotation_lines f = None
  /\ diff f = ((text1 a ++ map escaped_text (leftover_lines (drain_empties lq)))%list,
               (text2 a ++ map (fun i => escaped_text (check_line i)) cq)%list)
  /\ fail_lines f = (usedlines a ++ leftover_lines (drain_empties lq))%list
  /\ fail_checks f = (usedchecks a ++ cq)%list.
Proof.
  unfold check_finish, leftover_lines.
  destruct (mismatches a) as [|[l c] ms]; [|intros [= <-]; simpl; auto].
  destruct (drain_empties lq) as [|l lq']; [|intros [= <-]; simpl; auto].
  destruct cq as [|c cq]; [discriminate|]. intros [= <-]; simpl; auto.
Qed.

Lemma leftover_idem (lines : list Line) :
  leftover_lines (leftover_lines lines) = leftover_lines lines.
Proof.
  induction lines as [|l lines IH]; simpl; [reflexivity|].
  destruct (is_empty_space l) eqn:E; simpl; [assumption | now rewrite E, IH].
Qed.

Lemma leftover_app (l1 l2 : list Line) :
  leftover_lines (l1 ++ l2) = (leftover_lines l1 ++ leftover_lines l2)%list.
Proof. apply filter_app. Qed.

(** X3.  The context a failure of [TestRun.check] carries for its report:
    all the checks, in order; output lines that include every line
    that is not blank, in order; and, for the comparison of the two,
    one text for each of these lines (its escaped text) and one text
    for each check, so that a position in a sequence compared is a
    position in the lines or in the checks kept. *)
Theorem check_failure_context (self : TestRun) (lines : list Line)
    (checks : list CheckCmd) (f : TestFailure) :
  TestRun_check self lines checks = Some f ->
  testrun f = self
  /\ fail_checks f = checks
  /\ leftover_lines (fail_lines f) = leftover_lines lines
  /\ fst (diff f) = map escaped_text (fail_lines f)
  /\ List.length (snd (diff f)) = List.length (fail_checks f).
Proof.
  unfold TestRun_check. intros H.
  pose proof (check_loop_context lines checks (mkAcc [] [] [] [] [])) as C.
  destruct (check_loop lines checks _) as [[lq cq] a'].
  destruct C as (used & H1 & H2 & H3 & H4 & H5). simpl in *.
  apply check_finish_some in H. destruct H as (Ht & _ & Hd & Hl & Hc).
  rewrite Hd, Hl, Hc, H4. simpl. repeat split; auto.
  - rewrite H1, leftover_app, leftover_idem, drain_empties_leftover. exact H3.
  - now rewrite H1, H2, map_app.
  - rewrite length_app, length_map. lia.
Qed.

Lemma check_failure_context_witness :
  let f := mkTestFailure (Some (out_line "x" 2)) (Some (check_of "b" 2)) example_run None
             (["a"; "x"], ["a"; "b"]) [out_line "a" 1; out_line "x" 2]
             [check_of "a" 1; check_of "b" 2] in
  testrun f = example_run
  /\ fail_checks f = [check_of "a" 1; check_of "b" 2]
  /\ leftover_lines (fail_lines f)
     = leftover_lines [out_line "a" 1; out_line "x" 2; out_line "" 3]
  /\ fst (diff f) = map escaped_text (fail_lines f)
  /\ List.length (snd (diff f)) = List.length (fail_checks f).
Proof.
  apply (@check_failure_context example_run). vm_compute. reflexivity.
Defined.

Lemma drain_empties_head (lines : list Line) (l : Line) (rest : list Line) :
  drain_empties lines = l :: rest -> In l lines /\ is_empty_space l = false.
Proof.
  induction lines as [|x lines IH]; simpl; [discriminate|].
  destruct (is_empty_space x) eqn:E.
  - intros H. apply IH in H. tauto.
  - intros [= -> _]. auto.
Qed.

Lemma check_loop_anchors (lines : list Line) :
  forall checks a,
    let '(lq, cq, a') := check_loop lines checks a in
    (forall l, In l lq -> In l lines)
    /\ (forall c, In c cq -> In c checks)
    /\ (forall l c, In (l, c) (mismatches a') ->
          In (l, c) (mismatches a)
          \/ (In l lines /\ In c checks
              /\ matches c l = false /\ is_empty_space l = false)).
Proof.
  induction lines as [|line lines IH]; intros checks a.
  - simpl. auto.
  - destruct checks as [|check checks]; [simpl; auto|]. simpl.
    destruct (matches check line) eqn:Hm.
    + match goal with |- context [check_loop lines checks ?acc] =>
        specialize (IH checks acc); destruct (check_loop lines checks acc)
          as [[lq cq] a'] end.
      simpl in IH. destruct IH as (H1 & H2 & H3). repeat split; auto.
      intros l c H. destruct (H3 l c H) as [|(? & ? & ? & ?)]; auto 10.
    + destruct (is_empty_space line) eqn:He.
      * specialize (IH (check :: checks) a).
        destruct (check_loop lines (check :: checks) a) as [[lq cq] a'].
        destruct IH as (H1 & H2 & H3). repeat split; auto.
        intros l c H. destruct (H3 l c H) as [|(? & ? & ? & ?)]; auto 10.
      * match goal with |- context [check_loop lines checks ?acc] =>
          specialize (IH checks acc); destruct (check_loop lines checks acc)
            as [[lq cq] a'] end.
        simpl in IH. destruct IH as (H1 & H2 & H3). repeat split; auto.
        intros l c H. destruct (H3 l c H) as [H' | (? & ? & ? & ?)]; auto 10.
        apply in_app_or in H'. destruct H' as [H' | [[= <- <-] | []]]; auto 10.
Qed.

Lemma anchor_not_blank (self : TestRun) (lines : list Line)
    (checks : list CheckCmd) (f : TestFailure) (l : Line) :
  TestRun_check self lines checks = Some f -> fail_line f = Some l ->
  is_empty_space l = false.
Proof.
  unfold TestRun_check.
  pose proof (check_loop_anchors lines checks (mkAcc [] [] [] [] [])) as H.
  destruct (check_loop lines checks _) as [[lq cq] a']. destruct H as (_ & _ & H3).
  unfold check_finish. destruct (mismatches a') as [|[l0 c0] ms] eqn:Hm.
  - destruct (drain_empties lq) as [|l1 lq'] eqn:Hd.
    + destruct cq as [|c cq]; [discriminate|]. intros [= <-]. discriminate.
    + intros [= <-] [= <-]. now apply drain_empties_head in Hd.
  - intros [= <-] [= <-].
    destruct (H3 l0 c0 (or_introl eq_refl)) as [[] | H]. tauto.
Qed.

(** X4.  A failure of [TestRun.check] is anchored at a line and a check that
    were compared and did not match, the line not being blank; or at an
    output line alone, which is not blank; or at a check alone.  It is
    never anchored at a blank line, and never at nothing. *)
Theorem check_failure_anchor (self : TestRun) (lines : list Line)
    (checks : list CheckCmd) (f : TestFailure) :
  TestRun_check self lines checks = Some f -> anchored_in lines checks f.
Proof.
  unfold TestRun_check, anchored_in.
  pose proof (check_loop_anchors lines checks (mkAcc [] [] [] [] [])) as H.
  destruct (check_loop lines checks _) as [[lq cq] a']. destruct H as (H1 & H2 & H3).
  unfold check_finish. destruct (mismatches a') as [|[l0 c0] ms] eqn:Hm.
  - destruct (drain_empties lq) as [|l1 lq'] eqn:Hd.
    + destruct cq as [|c cq]; [discriminate|]. intros [= <-]. simpl.
      apply H2. now left.
    + intros [= <-]. simpl. apply drain_empties_head in Hd. destruct Hd. auto.
  - intros [= <-]. simpl.
    destruct (H3 l0 c0 (or_introl eq_refl)) as [[] | H]. exact H.
Qed.

Lemma check_failure_anchor_witness :
  anchored_in [out_line "a" 1; out_line "x" 2; out_line "" 3]
              [check_of "a" 1; check_of "b" 2]
              (mkTestFailure (Some (out_line "x" 2)) (Some (check_of "b" 2)) example_run
                 None (["a"; "x"], ["a"; "b"]) [out_line "a" 1; out_line "x" 2]
                 [check_of "a" 1; check_of "b" 2]).
Proof.
  apply (@check_failure_anchor example_run). vm_compute. reflexivity.
Defined.

(** ** Literal checks on their own text *)

Lemma literal_pair_matches (c : CheckCmd) (l : Line) :
  literal_pair c l -> matches c l = true.
Proof.
  intros (line & checktype & Hc & Hs & Hl).
  rewrite (literal_check_compiles line checktype Hs) in Hc. injection Hc as <-.
  change (accepts (mkCheckCmd line checktype (skeleton [lits (text line)])) (text l) = true).
  apply accepts_iff. cbn [regex]. apply CheckFacts.skeleton_matches.
  exists "", (text line), (String nl ""). rewrite Hl. repeat split.
  now apply CheckFacts.Lang_one_literal.
Qed.

Lemma literal_check_loop self (checks : list CheckCmd) (lines blanks : list Line) :
  Forall2 literal_pair checks lines ->
  Forall (fun l => is_empty_space l = true) blanks ->
  forall a, mismatches a = [] ->
    check_finish self (check_loop (lines ++ blanks) checks a) = None.
Proof.
  intros H Hb. induction H as [|c l checks lines Hp _ IH]; intros a Ha.
  - simpl. rewrite check_loop_no_checks. apply check_finish_none.
    repeat split; auto. now apply drain_empties_nil.
  - simpl. rewrite (literal_pair_matches Hp). now apply IH.
Qed.

(** ** [split_by_newlines] *)

Lemma split_nl_concat (s : string) :
  forall cur,
    String.concat "" (map (fun s => s ++ String nl "") (split_nl s cur))
    = cur ++ s ++ String nl "".
Proof.
  induction s as [|c s IH]; intros cur; cbn [split_nl].
  - reflexivity.
  - destruct (Ascii.eqb c nl) eqn:E.
    + apply Ascii.eqb_eq in E. subst c. cbn [map].
      rewrite ParserFacts.sconcat_cons, IH, sapp_assoc. reflexivity.
    + rewrite IH, sapp_assoc. reflexivity.
Qed.

Lemma split_nl_no_nl (s : string) :
  forall cur, contains_nl cur = false ->
    Forall (fun t => contains_nl t = false) (split_nl s cur).
Proof.
  induction s as [|c s IH]; intros cur H; cbn [split_nl].
  - now repeat constructor.
  - destruct (Ascii.eqb c nl) eqn:E.
    + constructor; [assumption | now apply IH].
    + apply IH. rewrite contains_nl_app. simpl. now rewrite H, E.
Qed.

Lemma split_nl_length (s : string) :
  forall cur, List.length (split_nl s cur) = S (count_nl s).
Proof.
  induction s as [|c s IH]; intros cur; cbn [split_nl count_nl]; [reflexivity|].
  destruct (Ascii.eqb c nl); simpl; now rewrite IH.
Qed.

(** X5.  [split_by_newlines] loses nothing and adds one newline: its lines
    put together are the text with a newline added; every line ends
    with a newline and holds no other; and there is one line more
    than the text has newlines, so that a text ending with a newline
    gets a last line that is just a newline. *)
Theorem split_by_newlines_lines (s : string) :
  String.concat "" (split_by_newlines s) = s ++ String nl ""
  /\ Forall (fun l => exists t, l = t ++ String nl "" /\ contains_nl t = false)
            (split_by_newlines s)
  /\ List.length (split_by_newlines s) = S (count_nl s).
Proof.
  unfold split_by_newlines. split; [apply (split_nl_concat s "")|]. split.
  - apply Forall_map. eapply Forall_impl; [|apply (split_nl_no_nl s ""); reflexivity].
    intros t Ht. now exists t.
  - now rewrite length_map, split_nl_length.
Qed.

(** ** [TestRun.run] *)



Lemma annotate_same (o e : TestFailure) (errlines : list Line) (f : TestFailure) :
  annotate o e errlines = Ok f -> same_report f o.
Proof.
  unfold annotate, same_report. destruct (fail_line e).
  - destruct (last_text _); [|discriminate]. intros [= <-]. simpl. auto 10.
  - intros [= <-]. auto 10.
Qed.

Lemma run_reports (self : TestRun) (p : proc) :
  returncode p <> 127 ->
  (forall o, TestRun_check self (outlines_of p) (outchecks (checker self)) = Some o ->
     exists f, TestRun_run self p = Ok (Some f) /\ same_report f o)
  /\ (TestRun_check self (outlines_of p) (outchecks (checker self)) = None ->
      TestRun_run self p
      = Ok (TestRun_check self (errlines_of p) (errchecks (checker self)))).
Proof.
  intros H. destruct (@TestRun_run_returns self p H) as [r Hr]. revert Hr.
  unfold TestRun_run, outlines_of, errlines_of. apply Nat.eqb_neq in H. rewrite H.
  destruct (TestRun_check self _ (outchecks _)) as [o|].
  - intros Hr. split; [|discriminate]. intros o' [= <-].
    destruct (TestRun_check self _ (errchecks _)) as [e|].
    + destruct (annotate o e _) as [f|] eqn:Ha; [|discriminate].
      exists f. split; [reflexivity|]. exact (annotate_same _ _ _ Ha).
    + exists o. unfold same_report. auto 10.
  - intros _. split; [discriminate | reflexivity].
Qed.

(** X7.  What is wrong on stdout comes first: when the check of stdout
    fails, [TestRun.run] returns that failure (with, at most, an
    annotation from stderr), whatever the check of stderr gives; the
    result of the check of stderr is returned only when the check of
    stdout succeeds. *)
Theorem run_stdout_first (self : TestRun) (p : proc) :
  returncode p <> 127 ->
  (forall o, TestRun_check self (outlines_of p) (outchecks (checker self)) = Some o ->
     exists f, TestRun_run self p = Ok (Some f) /\ same_report f o)
  /\ (TestRun_check self (outlines_of p) (outchecks (checker self)) = None ->
      TestRun_run self p
      = Ok (TestRun_check self (errlines_of p) (errchecks (checker self)))).
Proof.
  intros H. destruct (@TestRun_run_returns self p H) as [r Hr]. revert Hr.
  unfold TestRun_run, outlines_of, errlines_of. apply Nat.eqb_neq in H. rewrite H.
  destruct (TestRun_check self _ (outchecks _)) as [o|].
  - intros Hr. split; [|discriminate]. intros o' [= <-].
    destruct (TestRun_check self _ (errchecks _)) as [e|].
    + destruct (annotate o e _) as [f|] eqn:Ha; [|discriminate].
      exists f. split; [reflexivity|]. exact (annotate_same _ _ _ Ha).
    + exists o. unfold same_report. auto 10.
  - intros _. split; [discriminate | reflexivity].
Qed.

Lemma run_stdout_first_witness :
  (forall o, TestRun_check example_run (outlines_of (mkProc "x" "" 0))
                           (outchecks (checker example_run)) = Some o ->
     exists f, TestRun_run example_run (mkProc "x" "" 0) = Ok (Some f)
               /\ same_report f o)
  /\ (TestRun_check example_run (outlines_of (mkProc "x" "" 0))
                    (outchecks (checker example_run)) = None ->
      TestRun_run example_run (mkProc "x" "" 0)
      = Ok (TestRun_check example_run (errlines_of (mkProc "x" "" 0))
                          (errchecks (checker example_run)))).
Proof.
  apply (@run_stdout_first example_run (mkProc "x" "" 0)). simpl. lia.
Defined.

Lemma enumerate_lines_split (ts : list string) (nm : string) (l : Line) :
  forall idx, In l (enumerate_lines idx ts nm) ->
    exists before after,
      enumerate_lines idx ts nm = (before ++ l :: after)%list
      /\ idx + List.length before + 1 = number l.
Proof.
  induction ts as [|t ts IH]; intros idx H; simpl in H; [contradiction|].
  destruct H as [<- | H].
  - exists [], (enumerate_lines (S idx) ts nm). simpl. split; [reflexivity | lia].
  - apply IH in H. destruct H as (before & after & E & Hn).
    exists (mkLine t (idx + 1) nm :: before), after. simpl. rewrite E.
    split; [reflexivity | lia].
Qed.

Lemma last_text_snoc (l : list Line) (x : Line) : last_text (l ++ [x]) = Some (text x).
Proof.
  induction l as [|y l IH]; [reflexivity|].
  simpl. destruct (l ++ [x])%list eqn:E; [now destruct l | assumption].
Qed.

Lemma blank_newline (l : Line) : text l = String nl "" -> is_empty_space l = true.
Proof. unfold is_empty_space. now intros ->. Qed.

(** X8.  The annotation of a failure on stdout.  When both checks fail and
    the failure on stderr is anchored at a line of stderr, the failure
    returned is annotated with the lines of stderr from that line on,
    without the last line if it is just a newline: the annotation
    starts with the anchoring line, so it is never empty. *)
Theorem run_annotation (self : TestRun) (p : proc) (f o e : TestFailure) (l : Line) :
  TestRun_run self p = Ok (Some f) ->
  TestRun_check self (outlines_of p) (outchecks (checker self)) = Some o ->
  TestRun_check self (errlines_of p) (errchecks (checker self)) = Some e ->
  fail_line e = Some l ->
  exists before rest tail,
    errlines_of p = (before ++ l :: rest ++ tail)%list
    /\ S (List.length before) = number l
    /\ error_annotation_lines f = Some (l :: rest)
    /\ ((tail = [] /\ last_text (l :: rest) <> Some (String nl ""))
        \/ exists x, tail = [x] /\ text x = String nl "").
Proof.
  intros H Ho He Hl. unfold TestRun_run in H.
  destruct (returncode p =? 127); [discriminate|].
  change (enumerate_lines 0 (split_by_newlines (proc_stdout p)) "stdout")
    with (outlines_of p) in H.
  change (enumerate_lines 0 (split_by_newlines (proc_stderr p)) "stderr")
    with (errlines_of p) in H.
  rewrite Ho, He in H. unfold annotate in H. rewrite Hl in H.
  pose proof (fail_line_member _ _ _ He Hl) as Hin.
  pose proof (anchor_not_blank _ _ _ He Hl) as Hnb.
  apply enumerate_lines_split in Hin. destruct Hin as (before & after & E & Hn).
  fold (errlines_of p) in E. rewrite E in *.
  assert (Hs : skipn (number l - 1) (before ++ l :: after) = l :: after).
  { replace (number l - 1) with (List.length before) by lia.
    now rewrite skipn_app, skipn_all, Nat.sub_diag. }
  rewrite Hs in H.
  exists before.
  destruct (@exists_last _ (l :: after)) as (front & x & Ef); [discriminate|].
  rewrite Ef, last_text_snoc in H. simpl in H.
  destruct (String.eqb (text x) (String nl "")) eqn:Ex.
  - apply String.eqb_eq in Ex. rewrite removelast_last in H. injection H as <-.
    destruct front as [|y front]; simpl in Ef.
    + injection Ef as -> _. apply blank_newline in Ex. congruence.
    + injection Ef as <- ->. exists front, [x].
      split; [reflexivity|]. split; [lia|]. split; [reflexivity|]. right. eauto.
  - injection H as <-. exists after, []. rewrite app_nil_r.
    split; [reflexivity|]. split; [lia|]. split; [simpl; now rewrite Ef|].
    left. split; [reflexivity|].
    rewrite Ef, last_text_snoc. intros [= Et]. rewrite Et in Ex. discriminate.
Qed.

Lemma run_annotation_witness :
  exists before rest tail,
    errlines_of example_proc
    = (before ++ mkLine ("oops" ++ String nl "") 2 "stderr" :: rest ++ tail)%list
    /\ S (List.length before) = 2
    /\ error_annotation_lines example_annotated
       = Some (mkLine ("oops" ++ String nl "") 2 "stderr" :: rest)
    /\ ((tail = []
         /\ last_text (mkLine ("oops" ++ String nl "") 2 "stderr" :: rest)
            <> Some (String nl ""))
        \/ exists x, tail = [x] /\ text x = String nl "").
Proof.
  apply (@run_annotation example_checked_run example_proc example_annotated
           (mkTestFailure (Some (mkLine ("x" ++ String nl "") 1 "stdout"))
              (Some (check_of "a" 2)) example_checked_run None (["x"], ["a"])
              [mkLine ("x" ++ String nl "") 1 "stdout"] [check_of "a" 2])
           (mkTestFailure (Some (mkLine ("oops" ++ String nl "") 2 "stderr")) None
              example_checked_run None (["b"; "oops"], ["b"])
              [mkLine ("b" ++ String nl "") 1 "stderr";
               mkLine ("oops" ++ String nl "") 2 "stderr"] [check_of "b" 3]));
    vm_compute; reflexivity.
Defined.

(** *** A fixture without checks *)

Lemma check_no_checks (self : TestRun) (lines : list Line) :
  TestRun_check self lines [] = None <->
  Forall (fun l => is_empty_space l = true) lines.
Proof.
  unfold TestRun_check. rewrite check_loop_no_checks, check_finish_none.
  rewrite drain_empties_nil. simpl. tauto.
Qed.

Lemma enumerate_lines_blank (ts : list string) (nm : string) :
  forall idx,
    Forall (fun l => is_empty_space l = true) (enumerate_lines idx ts nm) <->
    Forall (fun t => all_chars isspace_char t = true) ts.
Proof.
  induction ts as [|t ts IH]; intros idx; simpl.
  - split; constructor.
  - split; inversion 1; subst; constructor; auto; now apply (IH (S idx)).
Qed.

Lemma split_nl_blank (s : string) :
  forall cur,
    Forall (fun t => all_chars isspace_char t = true)
           (map (fun s => s ++ String nl "") (split_nl s cur)) <->
    all_chars isspace_char (cur ++ s) = true.
Proof.
  induction s as [|c s IH]; intros cur; cbn [split_nl map].
  - rewrite sapp_nil_r. split.
    + inversion 1 as [|? ? H1 _]; subst.
      rewrite CheckFacts.all_chars_app in H1. now apply andb_true_iff in H1.
    + intros H. constructor; [|constructor].
      rewrite CheckFacts.all_chars_app, H. reflexivity.
  - destruct (Ascii.eqb c nl) eqn:E.
    + apply Ascii.eqb_eq in E. subst c. cbn [map]. split.
      * inversion 1 as [|? ? H1 H2]; subst. apply (IH "") in H2. simpl in H2.
        rewrite CheckFacts.all_chars_app in *. simpl.
        apply andb_true_iff in H1. destruct H1 as [-> _]. now rewrite H2.
      * intros H. rewrite CheckFacts.all_chars_app in H. simpl in H.
        apply andb_true_iff in H. destruct H as [H1 H2]. constructor.
        -- now rewrite CheckFacts.all_chars_app, H1.
        -- now apply (IH "").
    + rewrite IH, sapp_assoc. reflexivity.
Qed.

Lemma lines_blank (s nm : string) :
  Forall (fun l => is_empty_space l = true)
         (enumerate_lines 0 (split_by_newlines s) nm) <->
  all_chars isspace_char s = true.
Proof.
  rewrite enumerate_lines_blank. unfold split_by_newlines. now rewrite split_nl_blank.
Qed.

(** X9.  A run with no check on either output passes exactly when the
    command prints nothing but whitespace on stdout and on stderr: any
    other output is a failure, there being no check left for it. *)
Theorem run_without_checks (self : TestRun) (p : proc) :
  outchecks (checker self) = [] -> errchecks (checker self) = [] ->
  returncode p <> 127 ->
  (TestRun_run self p = Ok None <->
   all_chars isspace_char (proc_stdout p) = true
   /\ all_chars isspace_char (proc_stderr p) = true).
Proof.
  intros Ho He H. destruct (@run_reports self p H) as [H1 H2].
  rewrite Ho in H1, H2. rewrite He in H2.
  rewrite <- (lines_blank (proc_stdout p) "stdout"), <- (lines_blank (proc_stderr p) "stderr").
  fold (outlines_of p) (errlines_of p). rewrite <- !(check_no_checks self).
  destruct (TestRun_check self (outlines_of p) []) as [o|].
  - destruct (H1 o eq_refl) as (f & -> & _). split; [discriminate | intros [? _]; discriminate].
  - rewrite (H2 eq_refl). split; [intros [= ->]; auto | intros [_ ->]; reflexivity].
Qed.

Lemma run_without_checks_witness :
  TestRun_run example_run (mkProc (" " ++ String nl "") "" 0) = Ok None <->
  all_chars isspace_char (proc_stdout (mkProc (" " ++ String nl "") "" 0)) = true
  /\ all_chars isspace_char (proc_stderr (mkProc (" " ++ String nl "") "" 0)) = true.
Proof.
  apply (@run_without_checks example_run (mkProc (" " ++ String nl "") "" 0));
    [reflexivity | reflexivity | simpl; lia].
Defined.

(** *** A command that prints the texts of its checks *)

Lemma split_nl_app (t s : string) :
  forall cur, contains_nl t = false -> split_nl (t ++ s) cur = split_nl s (cur ++ t).
Proof.
  induction t as [|c t IH]; intros cur H; simpl.
  - now rewrite sapp_nil_r.
  - simpl in H. apply orb_false_iff in H. destruct H as [Hc Ht].
    rewrite Hc, IH, sapp_assoc by assumption. reflexivity.
Qed.

Lemma split_nl_texts (ts : list string) :
  Forall (fun t => contains_nl t = false) ts ->
  split_nl (String.concat "" (map (fun t => t ++ String nl "") ts)) ""
  = (ts ++ [""])%list.
Proof.
  induction 1 as [|t ts Ht _ IH]; [reflexivity|].
  cbn [map]. rewrite ParserFacts.sconcat_cons, sapp_assoc, split_nl_app by assumption.
  simpl. now rewrite IH.
Qed.

Lemma enumerate_lines_app (ts1 ts2 : list string) (nm : string) :
  forall idx,
    enumerate_lines idx (ts1 ++ ts2) nm
    = (enumerate_lines idx ts1 nm
       ++ enumerate_lines (idx + List.length ts1) ts2 nm)%list.
Proof.
  induction ts1 as [|t ts1 IH]; intros idx; simpl.
  - now rewrite Nat.add_0_r.
  - rewrite IH. replace (idx + S (List.length ts1)) with (S idx + List.length ts1) by lia.
    reflexivity.
Qed.

Lemma literal_pairs (checks : list CheckCmd) (ts : list string) (nm : string) :
  Forall2 literal_check checks ts ->
  forall idx,
    Forall2 literal_pair checks
            (enumerate_lines idx (map (fun s => s ++ String nl "") ts) nm).
Proof.
  induction 1 as [|c t checks ts (line & ty & Hc & Hs & Ht) _ IH]; intros idx; simpl.
  - constructor.
  - constructor; [|apply IH]. exists line, ty. subst t. auto.
Qed.

(** X10.  A fixture passes on its own texts.  When the checks on stdout come
    from check lines that hold no pattern span, and the command prints
    the texts of these check lines, one per line and in order, and
    nothing but whitespace on stderr, which has no check, then
    [TestRun.run] reports no failure, whatever characters the texts
    are made of. *)
Theorem literal_run_passes (self : TestRun) (p : proc) (ts : list string) :
  Forall2 literal_check (outchecks (checker self)) ts ->
  Forall (fun t => contains_nl t = false) ts ->
  errchecks (checker self) = [] ->
  proc_stdout p = String.concat "" (map (fun t => t ++ String nl "") ts) ->
  all_chars isspace_char (proc_stderr p) = true ->
  returncode p <> 127 ->
  TestRun_run self p = Ok None.
Proof.
  intros Hc Hn He Hout Herr H. destruct (@run_reports self p H) as [_ H2].
  rewrite H2.
  - rewrite He. f_equal. apply check_no_checks. now apply lines_blank.
  - unfold outlines_of, split_by_newlines. rewrite Hout, split_nl_texts by assumption.
    rewrite map_app, enumerate_lines_app. apply literal_check_loop; [|repeat constructor|reflexivity].
    now apply literal_pairs.
Qed.

Lemma literal_run_passes_witness :
  TestRun_run
    (TestRun_init "f" (mkRunCmd "true" (mkLine "true" 1 "f"))
       (mkChecker "f" [] [check_of "a+b (c)" 1; check_of "$x" 2] [])
       [("%", "%")] example_config)
    (mkProc ("a+b (c)" ++ String nl "$x" ++ String nl "") "" 0) = Ok None.
Proof.
  apply (@literal_run_passes _ _ ["a+b (c)"; "$x"]).
  - constructor; [|constructor; [|constructor]].
    + exists (mkLine "a+b (c)" 1 "f"), "CHECK". vm_compute. auto.
    + exists (mkLine "$x" 2 "f"), "CHECK". vm_compute. auto.
  - repeat constructor.
  - reflexivity.
  - reflexivity.
  - reflexivity.
  - simpl. lia.
Defined.

(** ** Substitution, token by token *)

Lemma span_take (p : ascii -> bool) (s : string) :
  take (String.length (span p s)) s = span p s.
Proof.
  induction s as [|c s IH]; [reflexivity|]. simpl. destruct (p c); [|reflexivity].
  unfold take in *. simpl. now rewrite IH.
Qed.

Lemma span_app (p : ascii -> bool) (k b : string) :
  all_chars p k = true ->
  match b with EmptyString => True | String c _ => p c = false end ->
  span p (k ++ b) = k.
Proof.
  intros Hk Hb. induction k as [|c k IH]; simpl.
  - destruct b as [|c b]; [reflexivity|]. simpl. now rewrite Hb.
  - simpl in Hk. apply andb_true_iff in Hk. destruct Hk as [-> Hk]. now rewrite IH.
Qed.

(** A greedy star of a character test, before a continuation that
    never fails, takes the longest run there is. *)
Lemma star_loop_greedy (p : ascii -> bool) (n : nat) :
  forall q s cs k,
    String.length s <= n -> (forall st, k st <> None) ->
    Re.star_loop (Re.eat p) true n (Re.MState q s cs) k
    = k (Re.MState (q + String.length (span p s))
                   (drop (String.length (span p s)) s) cs).
Proof.
  induction n as [|n IH]; intros q s cs k Hn Hk.
  - destruct s; [|simpl in Hn; lia]. simpl. now rewrite Nat.add_0_r.
  - cbn [Re.star_loop]. destruct s as [|c t].
    + simpl. now rewrite Nat.add_0_r.
    + rewrite eat_cons. cbn [span]. destruct (p c) eqn:Hp.
      * cbn [Re.rest String.length].
        replace (String.length t <? S (String.length t)) with true
          by (symmetry; apply Nat.ltb_lt; lia).
        rewrite IH; [|simpl in Hn; lia | assumption].
        cbn [String.length drop]. rewrite Nat.add_succ_r. cbn [Nat.add].
        destruct (k _) eqn:E; [reflexivity | now apply Hk in E].
      * simpl. now rewrite Nat.add_0_r.
Qed.

Lemma ident_not_percent (c : ascii) : is_ident_char c = true -> Ascii.eqb "%" c = false.
Proof.
  intros H. destruct (Ascii.eqb "%" c) eqn:E; [|reflexivity].
  apply Ascii.eqb_eq in E. subst c. discriminate H.
Qed.

(** What the token pattern matches at the start of a text: two percent
    signs, or a percent sign and the longest run of identifier
    characters after it. *)
Lemma token_eval (q : nat) (s : string) :
  Re.m TOKEN_RE (Re.MState q s []) Some
  = match s with
    | String c1 (String c2 t) =>
        if Ascii.eqb "%" c1 then
          if Ascii.eqb "%" c2 then Some (Re.MState (S (S q)) t [(1, "%")])
          else if is_ident_char c2 then
            Some (Re.MState (S (S q) + String.length (span is_ident_char t))
                            (drop (String.length (span is_ident_char t)) t)
                            [(1, String c2 (span is_ident_char t))])
          else None
        else None
    | _ => None
    end.
Proof.
  rewrite TOKEN_RE_eq. cbn [Re.m]. destruct s as [|c1 s]; [reflexivity|].
  rewrite eat_cons. destruct (Ascii.eqb "%" c1); [|destruct s; reflexivity].
  destruct s as [|c2 t]; [reflexivity|]. rewrite !eat_cons.
  destruct (Ascii.eqb "%" c2) eqn:E2.
  - apply Ascii.eqb_eq in E2. subst c2. unfold Re.close_group.
    cbn [Re.pos Re.rest Re.caps]. replace (S (S q) - S q) with 1 by lia.
    change (take 1 (String "%" t)) with (take (String.length "%") ("%" ++ t)).
    now rewrite take_app.
  - change (Re.set_mem false ident_items c2) with (is_ident_char c2).
    destruct (is_ident_char c2); [|reflexivity].
    cbn [Re.rest]. rewrite star_loop_greedy; [|lia | intros st; discriminate].
    unfold Re.close_group. cbn [Re.pos Re.rest Re.caps].
    change (Re.set_mem false ident_items) with is_ident_char.
    replace (S (S q) + String.length (span is_ident_char t) - S q)
      with (S (String.length (span is_ident_char t))) by lia.
    change (take (S (String.length (span is_ident_char t))) (String c2 t))
      with (String c2 (take (String.length (span is_ident_char t)) t)).
    now rewrite span_take.
Qed.

Lemma token_shift (q : nat) (s : string) :
  Re.m TOKEN_RE (Re.MState q s []) Some
  = option_map (fun st => Re.MState (q + Re.pos st) (Re.rest st) (Re.caps st))
               (Re.m TOKEN_RE (Re.MState 0 s []) Some).
Proof.
  rewrite !token_eval. destruct s as [|c1 [|c2 t]]; try reflexivity.
  destruct (Ascii.eqb "%" c1); [|reflexivity].
  destruct (Ascii.eqb "%" c2); simpl.
  - do 2 f_equal. lia.
  - destruct (is_ident_char c2); simpl; [|reflexivity]. do 2 f_equal. lia.
Qed.

Lemma search_from_token (s : string) :
  forall p,
    Re.search_from TOKEN_RE p s
    = option_map (fun '(i, st) =>
                    (p + i, Re.MState (p + Re.pos st) (Re.rest st) (Re.caps st)))
                 (Re.search_from TOKEN_RE 0 s).
Proof.
  induction s as [|c s IH]; intros p; cbn [Re.search_from]; rewrite (token_shift p).
  - destruct (Re.m TOKEN_RE (Re.MState 0 "" []) Some) as [[q0 r0 c0]|]; simpl;
      [|reflexivity]. now rewrite Nat.add_0_r.
  - destruct (Re.m TOKEN_RE (Re.MState 0 (String c s) []) Some) as [[q0 r0 c0]|]; simpl.
    + now rewrite Nat.add_0_r.
    + rewrite (IH (S p)), (IH 1).
      destruct (Re.search_from TOKEN_RE 0 s) as [[i [q0 r0 c0]]|]; simpl; [|reflexivity].
      do 2 f_equal; [lia | f_equal; lia].
Qed.

Lemma search_token_facts (s : string) (i : nat) (st : Re.mstate) :
  Re.search_from TOKEN_RE 0 s = Some (i, st) ->
  i < Re.pos st /\ String.length (Re.rest st) < String.length s.
Proof.
  intros H. apply search_from_match in H. destruct H as (_ & Hi & Hm).
  rewrite Nat.sub_0_r in *. apply token_match in Hm.
  destruct Hm as (t & E & _ & Hp & _). split; [lia|].
  pose proof (ParserFacts.drop_length i s) as Hd. rewrite E in Hd.
  rewrite slength_app, slength_app in Hd. simpl in Hd. lia.
Qed.

(** The pieces a scan for tokens cuts a text into depend neither on
    the offset the text is found at nor on the fuel, once there is
    enough of it. *)
Lemma scan_token_indep (fuel : nat) :
  forall s p fuel' p',
    String.length s < fuel -> String.length s < fuel' ->
    map (fun pc => match pc with
                   | Re.Gap t => inl t
                   | Re.Hit _ cs => inr cs
                   end) (Re.scan fuel TOKEN_RE p s)
    = map (fun pc => match pc with
                     | Re.Gap t => inl t
                     | Re.Hit _ cs => inr cs
                     end) (Re.scan fuel' TOKEN_RE p' s).
Proof.
  induction fuel as [|fuel IH]; intros s p fuel' p' H H'; [lia|].
  destruct fuel' as [|fuel']; [lia|]. cbn [Re.scan].
  rewrite (search_from_token s p), (search_from_token s p').
  destruct (Re.search_from TOKEN_RE 0 s) as [[i [q0 r0 c0]]|] eqn:Hs; [|reflexivity].
  apply search_token_facts in Hs. cbn [Re.pos Re.rest] in Hs. destruct Hs as [Hlt Hlen].
  cbn [option_map Re.pos Re.rest Re.caps].
  replace (p + q0 =? p + i) with false by (symmetry; apply Nat.eqb_neq; lia).
  replace (p' + q0 =? p' + i) with false by (symmetry; apply Nat.eqb_neq; lia).
  cbn [map]. replace (p + i - p) with i by lia. replace (p' + i - p') with i by lia.
  do 2 f_equal. apply IH; lia.
Qed.

Lemma emitted_factors (subs : subs_t) (l : list Re.piece) :
  map (emitted subs) l
  = map (fun x => match x with
                  | inl t => t
                  | inr cs => subber_loop (sorted_by_len subs) (group1 cs)
                  end)
        (map (fun pc => match pc with
                        | Re.Gap t => inl t
                        | Re.Hit _ cs => inr cs
                        end) l).
Proof. rewrite map_map. apply map_ext. now intros [t | t cs]. Qed.

Lemma sub_scan_indep (subs : subs_t) (s : string) (fuel fuel' p p' : nat) :
  String.length s < fuel -> String.length s < fuel' ->
  String.concat "" (map (emitted subs) (Re.scan fuel TOKEN_RE p s))
  = String.concat "" (map (emitted subs) (Re.scan fuel' TOKEN_RE p' s)).
Proof.
  intros H H'. rewrite !emitted_factors.
  now rewrite (@scan_token_indep fuel s p fuel' p' H H').
Qed.

Lemma search_skip (a s : string) :
  no_percent a = true ->
  forall p, Re.search_from TOKEN_RE p (a ++ s)
            = Re.search_from TOKEN_RE (p + String.length a) s.
Proof.
  induction a as [|c a IH]; intros H p.
  - simpl. now rewrite Nat.add_0_r.
  - unfold no_percent in H. simpl in H. apply andb_true_iff in H. destruct H as [Hc Ha].
    apply negb_true_iff in Hc. rewrite Ascii.eqb_sym in Hc.
    change (String c a ++ s) with (String c (a ++ s)). cbn [Re.search_from].
    rewrite token_eval, Hc.
    replace (match a ++ s with String _ _ => None | EmptyString => None end)
      with (@None Re.mstate) by (now destruct (a ++ s)).
    rewrite (IH Ha (S p)). simpl. now rewrite Nat.add_succ_r.
Qed.

Lemma take_app_plus (a b : string) (i : nat) :
  take (String.length a + i) (a ++ b) = a ++ take i b.
Proof.
  unfold take. induction a as [|c a IH]; simpl; [reflexivity | now rewrite IH].
Qed.

Lemma scan_plain_prefix (subs : subs_t) (a b : string) (fuel p : nat) :
  no_percent a = true -> String.length (a ++ b) < fuel ->
  String.concat "" (map (emitted subs) (Re.scan fuel TOKEN_RE p (a ++ b)))
  = a ++ String.concat "" (map (emitted subs) (Re.finditer TOKEN_RE b)).
Proof.
  intros Ha Hf. destruct fuel as [|fuel]; [lia|]. rewrite slength_app in Hf.
  unfold Re.finditer. cbn [Re.scan].
  rewrite (@search_skip a b Ha p), (search_from_token b (p + String.length a)).
  destruct (Re.search_from TOKEN_RE 0 b) as [[i [q0 r0 c0]]|] eqn:Hs.
  - apply search_token_facts in Hs. cbn [Re.pos Re.rest] in Hs. destruct Hs as [Hlt Hlen].
    cbn [option_map Re.pos Re.rest Re.caps].
    replace (p + String.length a + q0 =? p + String.length a + i) with false
      by (symmetry; apply Nat.eqb_neq; lia).
    replace (q0 =? i) with false by (symmetry; apply Nat.eqb_neq; lia).
    cbn [map]. rewrite !ParserFacts.sconcat_cons. cbn [emitted].
    replace (p + String.length a + i - p) with (String.length a + i) by lia.
    rewrite take_app_plus, Nat.sub_0_r, sapp_assoc. do 3 f_equal.
    apply sub_scan_indep; lia.
  - reflexivity.
Qed.

Lemma substitution_plain (subs : subs_t) (a b : string) :
  no_percent a = true ->
  perform_substitution (a ++ b) subs = a ++ perform_substitution b subs.
Proof.
  intros Ha. rewrite !perform_substitution_pieces. unfold Re.finditer at 1.
  apply scan_plain_prefix; [assumption | lia].
Qed.

(** X11.  Text without a percent sign is kept as it is, and what follows it
    is substituted as if it stood alone; in particular a template
    without a percent sign is the command that is run. *)
Theorem substitution_keeps_text (subs : subs_t) (a b : string) :
  no_percent a = true ->
  perform_substitution (a ++ b) subs = a ++ perform_substitution b subs
  /\ perform_substitution a subs = a.
Proof.
  intros Ha. split; [now apply substitution_plain|].
  rewrite <- (sapp_nil_r a) at 1. rewrite substitution_plain by assumption.
  now rewrite sapp_nil_r.
Qed.

Lemma substitution_keeps_text_witness :
  perform_substitution ("ls -l " ++ "%s") [("%", "%"); ("s", "f.txt")]
  = "ls -l " ++ perform_substitution "%s" [("%", "%"); ("s", "f.txt")]
  /\ perform_substitution "ls -l " [("%", "%"); ("s", "f.txt")] = "ls -l ".
Proof.
  apply substitution_keeps_text. reflexivity.
Defined.

Lemma token_at_start (k b : string) :
  k = "%" \/ (is_ident_run k = true /\ delimited b = true) ->
  Re.m TOKEN_RE (Re.MState 0 ("%" ++ k ++ b) []) Some
  = Some (Re.MState (S (String.length k)) b [(1, k)]).
Proof.
  intros [-> | [Hk Hb]]; rewrite token_eval; [reflexivity|].
  destruct k as [|c k]; [discriminate|]. simpl in Hk.
  apply andb_true_iff in Hk. destruct Hk as [Hc Hk].
  change ("%" ++ String c k ++ b) with (String "%" (String c (k ++ b))).
  cbv beta iota. rewrite Ascii.eqb_refl, (ident_not_percent _ Hc), Hc.
  rewrite span_app, drop_app; [reflexivity | assumption |].
  destruct b as [|d b]; [exact I|]. now apply negb_true_iff in Hb.
Qed.

Lemma token_step (subs : subs_t) (k b : string) :
  k = "%" \/ (is_ident_run k = true /\ delimited b = true) ->
  perform_substitution ("%" ++ k ++ b) subs
  = subber_loop (sorted_by_len subs) k ++ perform_substitution b subs.
Proof.
  intros H. rewrite !perform_substitution_pieces. unfold Re.finditer at 1.
  assert (Hfuel : String.length b < String.length ("%" ++ k ++ b))
    by (simpl; rewrite slength_app; lia).
  revert Hfuel. generalize (String.length ("%" ++ k ++ b)). intros fuel Hfuel.
  cbn [Re.scan]. change ("%" ++ k ++ b) with (String "%" (k ++ b)) at 1.
  cbn [Re.search_from]. change (String "%" (k ++ b)) with ("%" ++ k ++ b).
  rewrite (@token_at_start k b H). cbn [Re.pos Re.rest Re.caps Nat.eqb map].
  rewrite !ParserFacts.sconcat_cons. cbn [emitted]. unfold group1. simpl Re.group.
  change (take (0 - 0) ("%" ++ k ++ b)) with "". simpl append at 1. f_equal.
  unfold Re.finditer. apply sub_scan_indep; lia.
Qed.

Lemma prefix_refl (k : string) : String.prefix k k = true.
Proof.
  induction k as [|c k IH]; [reflexivity|]. simpl.
  destruct (ascii_dec c c); [assumption | congruence].
Qed.

Lemma prefix_length (k : string) :
  forall t, String.prefix k t = true -> String.length k <= String.length t.
Proof.
  induction k as [|c k IH]; intros t H; [simpl; lia|].
  destruct t as [|d t]; simpl in H; [discriminate|].
  destruct (ascii_dec c d); [|discriminate]. apply IH in H. simpl. lia.
Qed.

Lemma drop_all (k : string) : drop (String.length k) k = "".
Proof. induction k; simpl; auto. Qed.

(** X12.  A token that is a registered key is replaced by the value of the
    key, and what follows the token is substituted as if it stood
    alone.  The token is a percent sign and the key, the key being a
    percent sign itself or a run of identifier characters after which
    the identifier ends. *)
Theorem substitution_of_key (subs : subs_t) (k v b : string) :
  NoDup (map fst subs) ->
  In (k, v) subs ->
  k = "%" \/ (is_ident_run k = true /\ delimited b = true) ->
  perform_substitution ("%" ++ k ++ b) subs = v ++ perform_substitution b subs.
Proof.
  intros Hn Hin Hk. rewrite (@token_step subs k b Hk). f_equal.
  rewrite (@subber_loop_longest (sorted_by_len subs) k k v).
  - now rewrite drop_all, sapp_nil_r.
  - apply sorted_by_len_sorted.
  - intros k' v1 v2 H1 H2. rewrite sorted_by_len_in in H1, H2.
    eapply unique_value; [exact Hn | exact H1 | exact H2].
  - now rewrite sorted_by_len_in.
  - apply prefix_refl.
  - intros k' v' _ Hp. now apply prefix_length.
Qed.

Lemma substitution_of_key_witness :
  perform_substitution ("%" ++ "s" ++ " %%") [("%", "%"); ("s", "f.txt")]
  = "f.txt" ++ perform_substitution " %%" [("%", "%"); ("s", "f.txt")].
Proof.
  apply substitution_of_key.
  - repeat constructor; simpl; intuition discriminate.
  - simpl. auto.
  - right. split; reflexivity.
Defined.

(** ** Escaping *)

Lemma esc_printable (c : ascii) : all_chars printable (esc c) = true.
Proof. destruct c as [[] [] [] [] [] [] [] []]; vm_compute; reflexivity. Qed.

(** X13.  Escaped text holds no control character: every newline, tab and
    other control character of a line is shown as an escape sequence
    made of printable characters. *)
Theorem escape_string_printable (s : string) :
  all_chars printable (escape_string s) = true.
Proof.
  induction s as [|c s IH]; [reflexivity|]. simpl.
  now rewrite CheckFacts.all_chars_app, esc_printable, IH.
Qed.




(** ** Reading the fixture *)

Lemma enumerate_lines_texts (ts : list string) (nm : string) :
  forall idx, map text (enumerate_lines idx ts nm) = ts.
Proof. induction ts as [|t ts IH]; intros idx; simpl; [reflexivity | now rewrite IH]. Qed.

Lemma enumerate_lines_nth (ts : list string) (nm : string) :
  forall idx i l, nth_error (enumerate_lines idx ts nm) i = Some l ->
    number l = idx + i + 1 /\ file l = nm.
Proof.
  induction ts as [|t ts IH]; intros idx [|i] l H; simpl in H; try discriminate.
  - injection H as <-. simpl. split; [lia | reflexivity].
  - apply IH in H. destruct H as [-> ->]. split; [lia | reflexivity].
Qed.

(** X15.  [Line.readfile] keeps the texts of the file in order and numbers
    them from 1: the line at position [i] (from 0) has number [i + 1]
    and the name of the file. *)
Theorem readfile_numbers (f : list string) (name : string) :
  map text (readfile f name) = f
  /\ forall i l, nth_error (readfile f name) i = Some l ->
       number l = i + 1 /\ file l = name.
Proof.
  split; [apply enumerate_lines_texts|]. intros i l H.
  now apply enumerate_lines_nth in H.
Qed.

(** ** RUN directives *)

Lemma shlex_loop_grows (s : string) :
  forall st tok acc l,
    shlex_loop s st tok acc = Some l ->
    List.length acc <= List.length l
    /\ (List.length l = List.length acc ->
        st = ShSkip /\ all_chars is_sh_ws s = true /\ l = acc).
Proof.
  induction s as [|c s IH]; intros st tok acc l H.
  - destruct st; simpl in H; try discriminate; injection H as <-.
    + split; [lia | auto].
    + rewrite length_app. simpl. split; lia.
  - cbn [shlex_loop] in H. cbn [all_chars].
    destruct st as [| | | |[|]];
      repeat match type of H with
             | (if ?b then _ else _) = _ => destruct b eqn:?
             end;
      apply IH in H; try rewrite length_app in H; simpl in H;
      destruct H as [H1 H2];
      (split; [lia|]); intros E; try lia;
      destruct (H2 E) as (Hs & Ha & Hl); try discriminate.
    repeat split; auto.
Qed.

Lemma shlex_loop_blank (s : string) (acc : list string) :
  all_chars is_sh_ws s = true -> forall tok, shlex_loop s ShSkip tok acc = Some acc.
Proof.
  induction s as [|c s IH]; intros H tok; [reflexivity|].
  simpl in H. apply andb_true_iff in H. destruct H as [Hc Hs].
  cbn [shlex_loop]. rewrite Hc. now apply IH.
Qed.

Lemma shlex_split_empty (s : string) :
  shlex_split s = Some [] <-> all_chars is_sh_ws s = true.
Proof.
  unfold shlex_split. split.
  - intros H. apply shlex_loop_grows in H. destruct H as [_ H].
    now destruct (H eq_refl) as (_ & Ha & _).
  - intros H. now apply shlex_loop_blank.
Qed.

(** X16.  [RunCmd.parse] rejects a RUN directive as invalid exactly when its
    text holds no word, that is, nothing but spaces, tabs, carriage
    returns and newlines; a directive it accepts keeps the text as it
    is, quotes and all, for the shell to split again. *)
Theorem RunCmd_parse_invalid (line : Line) :
  (RunCmd_parse line = Raise (CheckerError "Invalid RUN command" (Some line))
   <-> all_chars is_sh_ws (text line) = true)
  /\ (forall rc, RunCmd_parse line = Ok rc -> rc = mkRunCmd (text line) line).
Proof.
  unfold RunCmd_parse. rewrite <- shlex_split_empty. split.
  - destruct (shlex_split (text line)) as [[|w ws]|]; split; congruence.
  - intros rc. destruct (shlex_split (text line)) as [[|w ws]|]; congruence.
Qed.

(** ** The checker of a fixture keeps the order of the file *)

Lemma mapM_Forall2 (A B : Type) (f : A -> result B) (l : list A) :
  forall r, mapM f l = Ok r -> Forall2 (fun a b => f a = Ok b) l r.
Proof.
  induction l as [|a l IH]; intros r H; simpl in H.
  - injection H as <-. constructor.
  - destruct (f a) as [b|e] eqn:Hf; [|discriminate]. simpl in H.
    destruct (mapM f l) as [bs|e]; [|discriminate]. simpl in H. injection H as <-.
    constructor; auto.
Qed.

Lemma CheckCmd_parse_line (line : Line) (checktype : string) (c : CheckCmd) :
  CheckCmd_parse line checktype = Ok c -> check_line c = line /\ check_type c = checktype.
Proof.
  unfold CheckCmd_parse. destruct (parse_pieces _ _ _ _); [|discriminate]. simpl.
  destruct (Re.compile _); try discriminate. intros [= <-]. auto.
Qed.

Lemma parsed_checks (checktype : string) (sls : list Line) (cs : list CheckCmd) :
  mapM (fun sl => CheckCmd_parse sl checktype) sls = Ok cs ->
  map check_line cs = sls /\ Forall (fun c => check_type c = checktype) cs.
Proof.
  intros H. apply mapM_Forall2 in H.
  induction H as [|sl c sls cs Hc _ [IH1 IH2]]; [split; constructor|].
  apply CheckCmd_parse_line in Hc. destruct Hc as [Hl Ht]. simpl.
  rewrite Hl, IH1. split; [reflexivity | now constructor].
Qed.

Lemma parsed_runs (sls : list Line) (rcs : list RunCmd) :
  mapM RunCmd_parse sls = Ok rcs ->
  rcs = map (fun sl => mkRunCmd (text sl) sl) sls.
Proof.
  intros H. apply mapM_Forall2 in H.
  induction H as [|sl rc sls rcs Hc _ IH]; [reflexivity|].
  simpl. rewrite <- IH. f_equal. unfold RunCmd_parse in Hc.
  destruct (shlex_split (text sl)) as [[|w ws]|]; congruence.
Qed.

(** X17.  The checker of a fixture holds its directives in the order of the
    file.  The checks on stdout are made, one by one and in order, of
    the payloads of the lines the CHECK pattern matches, each check
    remembering its payload with the number and the file of the line
    it stands on; likewise for the checks on stderr; and when the
    fixture has RUN directives, the commands are their payloads, in
    order, the first line of the fixture playing no part.  A checker
    always has a command to run. *)
Theorem Checker_keeps_order (name : string) (lines : list Line) (ck : Checker) :
  Checker_init name lines = Ok ck ->
  checker_name ck = name
  /\ map check_line (outchecks ck) = group1s CHECK_STDOUT_RE lines
  /\ Forall (fun c => check_type c = "CHECK") (outchecks ck)
  /\ map check_line (errchecks ck) = group1s CHECK_STDERR_RE lines
  /\ Forall (fun c => check_type c = "CHECKERR") (errchecks ck)
  /\ (group1s RUN_RE lines <> [] ->
      runcmds ck = map (fun sl => mkRunCmd (text sl) sl) (group1s RUN_RE lines))
  /\ runcmds ck <> [].
Proof.
  unfold Checker_init. intros H.
  destruct (mapM RunCmd_parse _) as [rcs|e] eqn:Hr; [|discriminate]. simpl in H.
  apply parsed_runs in Hr.
  destruct (match rcs with [] => _ | _ => _ end) as [rcs'|e] eqn:Hf; [|discriminate].
  simpl in H.
  destruct (mapM _ (group1s CHECK_STDOUT_RE lines)) as [oc|e] eqn:Ho; [|discriminate].
  simpl in H.
  destruct (mapM _ (group1s CHECK_STDERR_RE lines)) as [ec|e] eqn:He; [|discriminate].
  simpl in H. injection H as <-. simpl.
  apply parsed_checks in Ho. apply parsed_checks in He.
  destruct Ho as [Ho1 Ho2], He as [He1 He2].
  split; [reflexivity|]. split; [assumption|]. split; [assumption|].
  split; [assumption|]. split; [assumption|]. split.
  - intros Hne. destruct rcs as [|rc rcs].
    + destruct (group1s RUN_RE lines); [congruence | discriminate].
    + injection Hf as <-. exact Hr.
  - destruct rcs as [|rc rcs]; [|injection Hf as <-; discriminate].
    destruct lines as [|line0 lines']; [discriminate|].
    destruct (String.prefix "#!" (text line0)); [|discriminate].
    injection Hf as <-. discriminate.
Qed.

Lemma Checker_keeps_order_witness :
  checker_name example_parsed = "f"
  /\ map check_line (outchecks example_parsed)
     = group1s CHECK_STDOUT_RE (readfile example_fixture "f")
  /\ Forall (fun c => check_type c = "CHECK") (outchecks example_parsed)
  /\ map check_line (errchecks example_parsed)
     = group1s CHECK_STDERR_RE (readfile example_fixture "f")
  /\ Forall (fun c => check_type c = "CHECKERR") (errchecks example_parsed)
  /\ (group1s RUN_RE (readfile example_fixture "f") <> [] ->
      runcmds example_parsed
      = map (fun sl => mkRunCmd (text sl) sl)
            (group1s RUN_RE (readfile example_fixture "f")))
  /\ runcmds example_parsed <> [].
Proof.
  apply (@Checker_keeps_order "f" (readfile example_fixture "f") example_parsed).
  vm_compute. reflexivity.
Defined.

(** ** Directives at the start of a line *)

Lemma RUN_RE_eq : RUN_RE = directive_re "RUN:".
Proof. vm_compute. reflexivity. Qed.

Lemma CHECK_STDOUT_RE_eq : CHECK_STDOUT_RE = directive_re "CHECK:".
Proof. vm_compute. reflexivity. Qed.

Lemma CHECK_STDERR_RE_eq : CHECK_STDERR_RE = directive_re "CHECKERR:".
Proof. vm_compute. reflexivity. Qed.

(** A greedy star of a character test stops after the longest run
    when what follows the star in the pattern matches there. *)
Lemma star_loop_greedy_first (p : ascii -> bool) (n : nat) :
  forall q s cs k res,
    String.length s <= n ->
    k (Re.MState (q + String.length (span p s))
                 (drop (String.length (span p s)) s) cs) = Some res ->
    Re.star_loop (Re.eat p) true n (Re.MState q s cs) k = Some res.
Proof.
  induction n as [|n IH]; intros q s cs k res Hn Hk.
  - destruct s; [|simpl in Hn; lia]. simpl in *. now rewrite Nat.add_0_r in Hk.
  - cbn [Re.star_loop]. destruct s as [|c t].
    + simpl in *. now rewrite Nat.add_0_r in Hk.
    + rewrite eat_cons. cbn [span] in Hk. destruct (p c) eqn:Hp.
      * cbn [Re.rest String.length].
        replace (String.length t <? S (String.length t)) with true
          by (symmetry; apply Nat.ltb_lt; lia).
        cbn [String.length drop] in Hk. rewrite Nat.add_succ_r in Hk.
        rewrite (IH (S q) t cs k res); [reflexivity | simpl in Hn; lia | exact Hk].
      * simpl in *. now rewrite Nat.add_0_r in Hk.
Qed.

Lemma ws_test (c : ascii) :
  Re.set_mem false [Re.IClass false Re.CSpace] c = isspace_char c.
Proof. unfold Re.set_mem. simpl. now destruct (isspace_char c). Qed.

Lemma all_chars_ext (p p' : ascii -> bool) (s : string) :
  (forall c, p c = p' c) -> all_chars p s = all_chars p' s.
Proof. intros H. induction s as [|c s IH]; simpl; [reflexivity | now rewrite H, IH]. Qed.

Lemma no_nl_chars (p : string) :
  contains_nl p = false -> all_chars (fun d => negb (Ascii.eqb d nl)) p = true.
Proof.
  induction p as [|c p IH]; simpl; [reflexivity|]. intros H.
  apply orb_false_iff in H. destruct H as [-> H]. now rewrite IH.
Qed.

Lemma payload_match (p : string) (q : nat) (cs : list (nat * string)) :
  contains_nl p = false ->
  Re.m payload_re (Re.MState q (p ++ String nl "") cs) Some
  = Some (Re.MState (S (q + String.length p)) "" ((1, p) :: cs)).
Proof.
  intros Hp. unfold payload_re. cbn [Re.m Re.rest].
  apply star_loop_greedy_first; [lia|].
  rewrite span_app; [|now apply no_nl_chars | reflexivity].
  rewrite drop_app. unfold Re.close_group. cbn [Re.pos Re.rest Re.caps].
  rewrite eat_cons, Ascii.eqb_refl.
  cbn [Re.pos Re.rest Re.caps].
  replace (q + String.length p - q) with (String.length p) by lia.
  now rewrite take_app.
Qed.

Lemma gap_match (ws2 p : string) (q : nat) (cs : list (nat * string)) :
  ws2 <> "" -> all_chars isspace_char ws2 = true ->
  starts_nonspace p = true -> contains_nl p = false ->
  Re.m (Re.Cat (Re.Plus true WS) payload_re) (Re.MState q (ws2 ++ p ++ String nl "") cs) Some
  = Some (Re.MState (S (q + String.length ws2 + String.length p)) "" ((1, p) :: cs)).
Proof.
  intros Hne Hws Hs Hp. destruct ws2 as [|w ws2]; [congruence|].
  simpl in Hws. apply andb_true_iff in Hws. destruct Hws as [Hw Hws].
  unfold WS. cbn [Re.m]. change (String w ws2 ++ p ++ String nl "")
    with (String w (ws2 ++ p ++ String nl "")).
  rewrite eat_cons, ws_test, Hw. cbn [Re.rest].
  apply star_loop_greedy_first; [lia|].
  rewrite span_app.
  - rewrite drop_app. fold payload_re.
    rewrite (@payload_match p _ _ Hp). simpl. do 2 f_equal. lia.
  - rewrite (all_chars_ext _ isspace_char); [assumption | apply ws_test].
  - destruct p as [|c p]; [discriminate|]. simpl in Hs. cbn [append]. rewrite ws_test.
    now apply negb_true_iff in Hs.
Qed.

Lemma chars_then_match (kw : string) (rest : Re.regex) :
  forall q t cs k,
    Re.m (chars_then kw rest) (Re.MState q (kw ++ t) cs) k
    = Re.m rest (Re.MState (q + String.length kw) t cs) k.
Proof.
  induction kw as [|c kw IH]; intros q t cs k; simpl.
  - now rewrite Nat.add_0_r.
  - unfold Re.eat. simpl. rewrite Ascii.eqb_refl, IH. now rewrite Nat.add_succ_r.
Qed.

Lemma directive_match (kw ws1 ws2 p : string) :
  starts_nonspace kw = true ->
  all_chars isspace_char ws1 = true ->
  ws2 <> "" -> all_chars isspace_char ws2 = true ->
  starts_nonspace p = true -> contains_nl p = false ->
  exists st,
    Re.match_ (directive_re kw) ("#" ++ ws1 ++ kw ++ ws2 ++ p ++ String nl "") = Some st
    /\ Re.caps st = [(1, p)].
Proof.
  intros Hkw Hws1 Hne Hws2 Hs Hp.
  exists (Re.MState (S (1 + String.length ws1 + String.length kw
                        + String.length ws2 + String.length p)) "" [(1, p)]).
  split; [|reflexivity].
  unfold Re.match_, directive_re.
  change ("#" ++ ws1 ++ kw ++ ws2 ++ p ++ String nl "")
    with (String "#" (ws1 ++ kw ++ ws2 ++ p ++ String nl "")).
  cbn [Re.m Re.pos Nat.eqb]. rewrite !eat_cons. unfold Re.set_mem at 1. simpl xorb.
  cbv beta iota. rewrite Ascii.eqb_refl. unfold WS at 1. cbn [Re.rest].
  apply star_loop_greedy_first; [lia|].
  rewrite span_app.
  - rewrite drop_app, chars_then_match, (@gap_match ws2 p _ _ Hne Hws2 Hs Hp). reflexivity.
  - rewrite (all_chars_ext _ isspace_char); [assumption | apply ws_test].
  - destruct kw as [|c kw]; [discriminate|]. simpl in Hkw. cbn [append]. rewrite ws_test.
    now apply negb_true_iff in Hkw.
Qed.

Lemma directive_group1s (re : Re.regex) (kw ws1 ws2 p : string) (n : nat) (f : string) :
  re = directive_re kw ->
  starts_nonspace kw = true ->
  all_chars isspace_char ws1 = true ->
  ws2 <> "" -> all_chars isspace_char ws2 = true ->
  starts_nonspace p = true -> contains_nl p = false ->
  group1s re [directive_line kw ws1 ws2 p n f] = [mkLine p n f].
Proof.
  intros -> Hkw Hws1 Hne Hws2 Hs Hp.
  destruct (@directive_match kw ws1 ws2 p Hkw Hws1 Hne Hws2 Hs Hp) as (st & Hm & Hc).
  unfold directive_line. cbn [group1s text]. rewrite Hm, Hc. reflexivity.
Qed.

(** X18.  A directive at the start of a line gives its payload as written.
    On a line made of a number sign, whitespace or none, the keyword,
    some whitespace and a payload that starts with a character that
    is not whitespace and runs up to the newline, each of the three
    directive patterns finds the line of its keyword and captures the
    payload whole, with the number and the file of the line, whatever
    else the payload holds (number signs and keywords included). *)
Theorem directive_payload (ws1 ws2 p : string) (n : nat) (f : string) :
  all_chars isspace_char ws1 = true ->
  ws2 <> "" -> all_chars isspace_char ws2 = true ->
  starts_nonspace p = true -> contains_nl p = false ->
  group1s RUN_RE [directive_line "RUN:" ws1 ws2 p n f] = [mkLine p n f]
  /\ group1s CHECK_STDOUT_RE [directive_line "CHECK:" ws1 ws2 p n f] = [mkLine p n f]
  /\ group1s CHECK_STDERR_RE [directive_line "CHECKERR:" ws1 ws2 p n f] = [mkLine p n f].
Proof.
  intros Hws1 Hne Hws2 Hs Hp.
  split; [|split]; apply directive_group1s;
    auto using RUN_RE_eq, CHECK_STDOUT_RE_eq, CHECK_STDERR_RE_eq.
Qed.

Lemma directive_payload_witness :
  group1s RUN_RE [directive_line "RUN:" " " "  " "echo # RUN: x" 3 "f"]
  = [mkLine "echo # RUN: x" 3 "f"]
  /\ group1s CHECK_STDOUT_RE [directive_line "CHECK:" " " "  " "echo # RUN: x" 3 "f"]
     = [mkLine "echo # RUN: x" 3 "f"]
  /\ group1s CHECK_STDERR_RE [directive_line "CHECKERR:" " " "  " "echo # RUN: x" 3 "f"]
     = [mkLine "echo # RUN: x" 3 "f"].
Proof.
  apply directive_payload; try reflexivity. discriminate.
Defined.

(** *** Which lines carry a directive *)

Lemma Lang_any_star (n : nat) (w s' : string) :
  Re.star_lang (Re.Lang Re.Any) n w s' <-> contains_nl w = false.
Proof.
  split.
  - induction 1 as [|n w1 w2 s' Hne (c & -> & Hc) _ IH]; [reflexivity|].
    simpl. now rewrite Hc, IH.
  - revert n. induction w as [|c w IH]; intros n H; [constructor|].
    simpl in H. apply orb_false_iff in H. destruct H as [Hc Hw].
    change (String c w) with (String c "" ++ w). constructor.
    + discriminate.
    + exists c. auto.
    + now apply IH.
Qed.

Lemma Lang_chars_then (kw : string) (R : Re.regex) :
  forall n w s',
    Re.Lang (chars_then kw R) n w s' <->
    exists w2, w = kw ++ w2 /\ Re.Lang R (n + String.length kw) w2 s'.
Proof.
  induction kw as [|c kw IH]; intros n w s'; simpl.
  - rewrite Nat.add_0_r. split; [eauto | now intros (w2 & -> & H)].
  - split.
    + intros (w1 & w2 & -> & -> & H). apply IH in H. destruct H as (w3 & -> & H).
      exists w3. split; [reflexivity|]. simpl in H.
      now replace (n + S (String.length kw)) with (n + 1 + String.length kw) by lia.
    + intros (w2 & -> & H). exists (String c ""), (kw ++ w2). repeat split.
      apply IH. exists w2. split; [reflexivity|]. simpl.
      now replace (n + 1 + String.length kw) with (n + S (String.length kw)) by lia.
Qed.

Lemma Lang_payload (n : nat) (w s' : string) :
  Re.Lang payload_re n w s' <-> exists p, w = p ++ String nl "" /\ contains_nl p = false.
Proof.
  unfold payload_re. simpl. split.
  - intros (w1 & w2 & -> & (p & e & -> & Hp & ->) & (w3 & w4 & -> & -> & ->)).
    apply Lang_any_star in Hp. exists p. now rewrite !sapp_nil_r.
  - intros (p & -> & Hp). exists p, (String nl ""). split; [reflexivity|]. split.
    + exists p, "". rewrite sapp_nil_r. repeat split. now apply Lang_any_star.
    + exists (String nl ""), "". repeat split.
Qed.

Lemma Lang_plus_ws (n : nat) (w s' : string) :
  Re.Lang (Re.Plus true WS) n w s' <-> w <> "" /\ all_chars isspace_char w = true.
Proof.
  unfold WS. cbn [Re.Lang]. split.
  - intros (w1 & w2 & -> & (c & -> & Hc) & Hs).
    apply CheckFacts.Lang_spaces in Hs. rewrite ws_test in Hc. simpl.
    split; [discriminate | now rewrite Hc, Hs].
  - intros [Hne Hw]. destruct w as [|c w]; [congruence|]. simpl in Hw.
    apply andb_true_iff in Hw. destruct Hw as [Hc Hw].
    exists (String c ""), w. split; [reflexivity|]. split.
    + exists c. now rewrite ws_test.
    + now apply CheckFacts.Lang_spaces.
Qed.

Lemma Lang_comment_prefix (n : nat) (w s' : string) :
  Re.Lang (Re.Opt true
             (Re.NGroup (Re.Cat (Re.In true [Re.IChar "#"])
                                (Re.Cat (Re.Star true Re.Any) Re.Eps)))) n w s'
  <-> comment_prefix w = true.
Proof.
  simpl. split.
  - intros [-> | (w1 & w2 & -> & (c & -> & Hc) & (w3 & w4 & -> & Hs & ->))];
      [reflexivity|].
    apply Lang_any_star in Hs. rewrite sapp_nil_r. simpl.
    unfold Re.set_mem in Hc. simpl in Hc. rewrite orb_false_r in Hc.
    rewrite Hs. now destruct (Ascii.eqb c "#").
  - destruct w as [|c w]; [now left|]. intros H. right. simpl in H.
    apply andb_true_iff in H. destruct H as [Hc Hw]. apply negb_true_iff in Hw.
    exists (String c ""), w. split; [reflexivity|]. split.
    + exists c. split; [reflexivity|]. unfold Re.set_mem. simpl.
      rewrite orb_false_r. now destruct (Ascii.eqb c "#").
    + exists w, "". rewrite sapp_nil_r. repeat split. now apply Lang_any_star.
Qed.

Lemma directive_re_carries (kw t : string) :
  Re.match_ (directive_re kw) t <> None <-> carries kw t.
Proof.
  rewrite ReFacts.match_iff. unfold directive_re, carries.
  cbn [Re.Lang]. split.
  - intros (w & s' & -> & w0 & w1 & -> & [-> _] & pre & w2 & -> & Hpre
            & w3 & w4 & -> & -> & ws1 & w5 & -> & Hws1 & Hk).
    apply Lang_comment_prefix in Hpre.
    apply CheckFacts.Lang_spaces in Hws1.
    apply Lang_chars_then in Hk. destruct Hk as (w6 & -> & ws2 & w7 & -> & Hws2 & Hp).
    apply (Lang_plus_ws _ ws2) in Hws2. destruct Hws2 as [Hne Hws2].
    apply Lang_payload in Hp. destruct Hp as (p & -> & Hp).
    exists pre, ws1, ws2, p, s'. repeat split; auto.
    repeat first [rewrite sapp_assoc | progress simpl]. reflexivity.
  - intros (pre & ws1 & ws2 & p & rest & -> & Hpre & Hws1 & Hne & Hws2 & Hp).
    exists (pre ++ "#" ++ ws1 ++ kw ++ ws2 ++ p ++ String nl ""), rest.
    split; [repeat first [rewrite sapp_assoc | progress simpl]; reflexivity|].
    exists "", (pre ++ "#" ++ ws1 ++ kw ++ ws2 ++ p ++ String nl "").
    split; [reflexivity|]. split; [auto|].
    exists pre, ("#" ++ ws1 ++ kw ++ ws2 ++ p ++ String nl ""). split; [reflexivity|].
    split; [now apply Lang_comment_prefix|].
    exists "#", (ws1 ++ kw ++ ws2 ++ p ++ String nl ""). split; [reflexivity|].
    split; [reflexivity|].
    exists ws1, (kw ++ ws2 ++ p ++ String nl ""). split; [reflexivity|].
    split; [now apply CheckFacts.Lang_spaces|].
    apply Lang_chars_then. exists (ws2 ++ p ++ String nl ""). split; [reflexivity|].
    exists ws2, (p ++ String nl ""). split; [reflexivity|].
    split; [now apply (Lang_plus_ws _ ws2) | apply Lang_payload; eauto].
Qed.

(** X19.  Which lines carry a directive.  Each of the three directive
    patterns matches a text exactly when the text has a number sign
    that is its first character or comes after a first character that
    is not a number sign, with no newline in between, and, after the
    number sign, whitespace or none, the keyword with its colon,
    some whitespace, and a payload that ends with a newline.  So a
    directive after a comment that starts the line is not seen. *)
Theorem directive_lines (t : string) :
  (Re.match_ RUN_RE t <> None <-> carries "RUN:" t)
  /\ (Re.match_ CHECK_STDOUT_RE t <> None <-> carries "CHECK:" t)
  /\ (Re.match_ CHECK_STDERR_RE t <> None <-> carries "CHECKERR:" t).
Proof.
  rewrite RUN_RE_eq, CHECK_STDOUT_RE_eq, CHECK_STDERR_RE_eq.
  repeat split; now apply directive_re_carries.
Qed.

(** ** Substitutions from the command line *)

Lemma split_eq_some (s key val : string) :
  split_eq s = Some (key, val) -> s = key ++ "=" ++ val /\ no_equal key = true.
Proof.
  revert key. induction s as [|c s IH]; intros key H; simpl in H; [discriminate|].
  destruct (Ascii.eqb c "=") eqn:E.
  - injection H as <- <-. apply Ascii.eqb_eq in E. subst c. now split.
  - destruct (split_eq s) as [[k v]|]; [|discriminate]. injection H as <- <-.
    destruct (IH k eq_refl) as [-> Hk]. split; [reflexivity|].
    unfold no_equal in *. simpl. now rewrite E, Hk.
Qed.

Lemma split_eq_app (key val : string) :
  no_equal key = true -> split_eq (key ++ "=" ++ val) = Some (key, val).
Proof.
  unfold no_equal. induction key as [|c key IH]; intros H; [reflexivity|].
  simpl in H. apply andb_true_iff in H. destruct H as [Hc Hk].
  apply negb_true_iff in Hc. specialize (IH Hk).
  change (String c key ++ "=" ++ val) with (String c (key ++ "=" ++ val)).
  cbn [split_eq]. now rewrite Hc, IH.
Qed.

Lemma split_eq_none (s : string) : split_eq s = None <-> no_equal s = true.
Proof.
  unfold no_equal. induction s as [|c s IH]; simpl; [tauto|].
  destruct (Ascii.eqb c "="); simpl; [split; discriminate|].
  rewrite <- IH. destruct (split_eq s) as [[k v]|]; split; congruence.
Qed.

Lemma dict_set_keys (d : subs_t) (key val : string) :
  map fst (dict_set d key val)
  = if existsb (String.eqb key) (map fst d) then map fst d
    else (map fst d ++ [key])%list.
Proof.
  induction d as [|[k v] d IH]; simpl; [reflexivity|].
  rewrite (String.eqb_sym key k). destruct (String.eqb k key) eqn:E; simpl.
  - reflexivity.
  - rewrite IH. now destruct (existsb _ _).
Qed.

Lemma dict_set_NoDup (d : subs_t) (key val : string) :
  NoDup (map fst d) -> NoDup (map fst (dict_set d key val)).
Proof.
  intros H. rewrite dict_set_keys. destruct (existsb _ _) eqn:E; [assumption|].
  apply NoDup_app; [assumption | repeat constructor; easy |].
  intros k Hk [Ek | []]. subst k.
  assert (Hex : existsb (String.eqb key) (map fst d) = true).
  { apply existsb_exists. exists key. split; [assumption | apply String.eqb_refl]. }
  congruence.
Qed.


Lemma dict_set_in (d : subs_t) (key val k v : string) :
  NoDup (map fst d) ->
  (In (k, v) (dict_set d key val) <->
   (k = key /\ v = val) \/ (k <> key /\ In (k, v) d)).
Proof.
  induction d as [|[k0 v0] d IH]; intros Hn; simpl.
  - split.
    + intros [[= <- <-] | []]. now left.
    + intros [[-> ->] | [_ []]]. now left.
  - inversion Hn as [|? ? Hnot Hn']; subst. destruct (String.eqb k0 key) eqn:E.
    + apply String.eqb_eq in E. subst k0. simpl. split.
      * intros [[= <- <-] | H]; [now left|]. right. split; [|now right].
        intros ->. apply Hnot. now apply (in_map fst) in H.
      * intros [[-> ->] | [Hne [[= Hk _] | H]]]; [now left | congruence | now right].
    + apply String.eqb_neq in E. simpl. rewrite (IH Hn'). split.
      * intros [[= <- <-] | [H | [H1 H2]]]; auto.
      * intros [[-> ->] | [Hne [[= <- <-] | H]]]; auto.
Qed.

Lemma parse_subs_loop_returns (subs : list string) :
  forall result d,
    parse_subs_loop subs result = Returns d ->
    NoDup (map fst result) ->
    Forall well_formed_sub subs
    /\ NoDup (map fst d)
    /\ (forall k v, In (k, v) d ->
          In (k, v) result \/ In (k ++ "=" ++ v) subs)
    /\ (forall before key val after,
          subs = (before ++ (key ++ "=" ++ val)%string :: after)%list ->
          no_equal key = true ->
          Forall (fun s => key_of s <> Some key) after ->
          In (key, val) d)
    /\ (forall k v, In (k, v) result ->
          Forall (fun s => key_of s <> Some k) subs -> In (k, v) d).
Proof.
  induction subs as [|sub subs IH]; intros result d H Hn.
  - injection H as <-. repeat split; auto.
    intros before key val after E. now destruct before.
  - cbn [parse_subs_loop] in H. destruct (split_eq sub) as [[key val]|] eqn:Hs;
      [|discriminate].
    destruct (String.eqb key "") eqn:Ek; [discriminate|].
    destruct (String.eqb val "") eqn:Ev; [discriminate|].
    apply String.eqb_neq in Ek, Ev.
    apply IH in H; [|now apply dict_set_NoDup].
    destruct H as (Hwf & Hnd & Hin & Hlast & Hkeep).
    pose proof (split_eq_some _ Hs) as [Esub Hkey].
    split; [|split; [assumption|split; [|split]]].
    + constructor; [|assumption]. now exists key, val.
    + intros k v Hd. destruct (Hin k v Hd) as [Hr | Hr]; [|right; now right].
      apply dict_set_in in Hr; [|assumption].
      destruct Hr as [[-> ->] | [_ Hr]]; [right; left; now symmetry | now left].
    + intros before k v after E Hk Hafter. destruct before as [|b before].
      * cbn [app] in E. injection E as E1 E2. subst subs.
        rewrite E1 in Hs. change (split_eq (k ++ "=" ++ v) = Some (key, val)) in Hs.
        rewrite (@split_eq_app k v Hk) in Hs. injection Hs as <- <-.
        apply Hkeep; [|assumption]. apply dict_set_in; [assumption | now left].
      * cbn [app] in E. injection E as _ E2. now apply (Hlast before k v after).
    + intros k v Hr Hall. inversion Hall as [|? ? Hk Hall']; subst.
      apply Hkeep; [|assumption]. apply dict_set_in; [assumption|]. right.
      split; [|assumption]. intros ->. apply Hk. unfold key_of. now rewrite Hs.
Qed.

(** X20.  The dict [parse_subs] returns.  Its keys are distinct; each of its
    items comes from an argument [key=value]; and the value of a key
    is the one of the last argument with this key, the key of an
    argument being the text before its first equal sign. *)
Theorem parse_subs_mapping (subs : list string) (d : subs_t) :
  parse_subs subs = Returns d ->
  NoDup (map fst d)
  /\ (forall k v, In (k, v) d -> In (k ++ "=" ++ v) subs)
  /\ (forall before key val after,
        subs = (before ++ (key ++ "=" ++ val)%string :: after)%list ->
        no_equal key = true ->
        Forall (fun s => key_of s <> Some key) after ->
        In (key, val) d).
Proof.
  intros H. apply parse_subs_loop_returns in H; [|constructor].
  destruct H as (_ & Hnd & Hin & Hlast & _). repeat split; auto.
  intros k v Hd. now destruct (Hin k v Hd).
Qed.

Lemma parse_subs_mapping_witness :
  NoDup (map fst [("a", "3"); ("b", "2=x")])
  /\ (forall k v, In (k, v) [("a", "3"); ("b", "2=x")] ->
        In (k ++ "=" ++ v) ["a=1"; "b=2=x"; "a=3"])
  /\ (forall before key val after,
        ["a=1"; "b=2=x"; "a=3"] = (before ++ (key ++ "=" ++ val)%string :: after)%list ->
        no_equal key = true ->
        Forall (fun s => key_of s <> Some key) after ->
        In (key, val) [("a", "3"); ("b", "2=x")]).
Proof.
  apply (@parse_subs_mapping ["a=1"; "b=2=x"; "a=3"]). reflexivity.
Defined.

Lemma parse_subs_loop_exits (subs : list string) :
  forall result,
    (exists d, parse_subs_loop subs result = Returns d)
    \/ (exists before sub after reason,
          subs = (before ++ sub :: after)%list
          /\ Forall well_formed_sub before
          /\ ~ well_formed_sub sub
          /\ parse_subs_loop subs result
             = SysExit 1 ("Invalid substitution " ++ sub ++ ": " ++ reason
                          ++ String nl "")
          /\ (reason = "equal sign not found" /\ no_equal sub = true
              \/ reason = "empty key" /\ String.prefix "=" sub = true
              \/ reason = "empty value"
                 /\ exists key, sub = key ++ "=" /\ no_equal key = true /\ key <> "")).
Proof.
  induction subs as [|sub subs IH]; intros result; [left; simpl; eauto|].
  cbn [parse_subs_loop]. destruct (split_eq sub) as [[key val]|] eqn:Hs.
  - pose proof (split_eq_some _ Hs) as [Esub Hkey].
    destruct (String.eqb key "") eqn:Ek.
    { apply String.eqb_eq in Ek. subst key. right.
      exists [], sub, subs, "empty key". simpl. repeat split; auto.
      - intros (k & v & E & Hk & Hne & _). rewrite E, (@split_eq_app k v Hk) in Hs.
        injection Hs as -> _. congruence.
      - right. left. split; [reflexivity|]. rewrite Esub. simpl. now destruct val. }
    destruct (String.eqb val "") eqn:Ev.
    { apply String.eqb_eq in Ev. subst val. apply String.eqb_neq in Ek. right.
      exists [], sub, subs, "empty value". simpl. repeat split; auto.
      - intros (k & v & E & Hk & _ & Hne). rewrite E, (@split_eq_app k v Hk) in Hs.
        injection Hs as _ ->. congruence.
      - right. right. split; [reflexivity|]. exists key. auto. }
    apply String.eqb_neq in Ek, Ev.
    destruct (IH (dict_set result key val))
      as [[d Hd] | (before & s & after & reason & E & Hb & Hn & Hx & Hr)].
    + left. eauto.
    + right. exists (sub :: before), s, after, reason. subst subs.
      repeat split; auto. constructor; [|assumption]. now exists key, val.
  - right. exists [], sub, subs, "equal sign not found". simpl. repeat split; auto.
    + intros (k & v & E & Hk & _). now rewrite E, (@split_eq_app k v Hk) in Hs.
    + left. split; [reflexivity|]. now apply split_eq_none.
Qed.

(** X21.  When [parse_subs] exits.  It returns a dict exactly when every
    argument is a key without an equal sign, an equal sign and a
    value, neither of them empty.  Otherwise it exits with status 1
    at the first argument that is not, after printing what is wrong
    with it: no equal sign, nothing before the first equal sign, or
    nothing after it. *)
Theorem parse_subs_exits (subs : list string) :
  ((exists d, parse_subs subs = Returns d) <-> Forall well_formed_sub subs)
  /\ (~ Forall well_formed_sub subs ->
      exists before sub after reason,
        subs = (before ++ sub :: after)%list
        /\ Forall well_formed_sub before
        /\ ~ well_formed_sub sub
        /\ parse_subs subs
           = SysExit 1 ("Invalid substitution " ++ sub ++ ": " ++ reason
                        ++ String nl "")
        /\ (reason = "equal sign not found" /\ no_equal sub = true
            \/ reason = "empty key" /\ String.prefix "=" sub = true
            \/ reason = "empty value"
               /\ exists key, sub = key ++ "=" /\ no_equal key = true /\ key <> "")).
Proof.
  unfold parse_subs.
  assert (Hiff : (exists d, parse_subs_loop subs [] = Returns d)
                 <-> Forall well_formed_sub subs).
  { split.
    - intros [d H]. apply parse_subs_loop_returns in H; [tauto | constructor].
    - intros Hwf. destruct (parse_subs_loop_exits subs [])
        as [H | (before & s & after & reason & E & _ & Hn & _)]; [assumption|].
      subst subs. apply Forall_app in Hwf. destruct Hwf as [_ Hwf].
      now inversion Hwf. }
  split; [exact Hiff|]. intros Hn.
  destruct (parse_subs_loop_exits subs []) as [H | H]; [|exact H].
  now apply Hiff in H.
Qed.

Lemma parse_subs_exits_witness :
  exists before sub after reason,
    ["a=1"; "b"; "=2"] = (before ++ sub :: after)%list
    /\ Forall well_formed_sub before
    /\ ~ well_formed_sub sub
    /\ parse_subs ["a=1"; "b"; "=2"]
       = SysExit 1 ("Invalid substitution " ++ sub ++ ": " ++ reason ++ String nl "")
    /\ (reason = "equal sign not found" /\ no_equal sub = true
        \/ reason = "empty key" /\ String.prefix "=" sub = true
        \/ reason = "empty value"
           /\ exists key, sub = key ++ "=" /\ no_equal key = true /\ key <> "").
Proof.
  apply (proj2 (parse_subs_exits ["a=1"; "b"; "=2"])).
  intros H. apply (proj1 (parse_subs_exits ["a=1"; "b"; "=2"])) in H.
  destruct H as [d H]. vm_compute in H. discriminate H.
Defined.

(** ** [main] *)

Lemma dict_update_NoDup (other : subs_t) :
  forall d, NoDup (map fst d) -> NoDup (map fst (dict_update d other)).
Proof.
  unfold dict_update. induction other as [|[k v] other IH]; intros d H; simpl;
    [assumption|]. apply IH. now apply dict_set_NoDup.
Qed.

Lemma dict_update_in (other : subs_t) :
  forall d k v,
    NoDup (map fst d) -> NoDup (map fst other) ->
    (In (k, v) other \/ (In (k, v) d /\ ~ In k (map fst other))) ->
    In (k, v) (dict_update d other).
Proof.
  induction other as [|[k0 v0] other IH]; intros d k v Hd Ho H.
  - simpl. destruct H as [[] | [H _]]. exact H.
  - inversion Ho as [|? ? Hnot Ho']; subst.
    change (In (k, v) (dict_update (dict_set d k0 v0) other)).
    apply IH; [now apply dict_set_NoDup | assumption |].
    destruct H as [[[= <- <-] | H] | [H Hn]].
    + right. split; [|assumption]. apply dict_set_in; [assumption | now left].
    + now left.
    + right. simpl in Hn. split; [|tauto].
      apply dict_set_in; [assumption|]. right. split; [|assumption].
      intros ->. tauto.
Qed.

(** X22.  The substitutions [main] uses for a fixture.  Their keys are
    distinct, as the longest-key rule of the substitution needs; [s]
    stands for the path of the fixture, also when an argument gave
    [s] another value; every other argument stands as given; and
    [%] stands for a percent sign unless an argument gave it a value. *)
Theorem main_file_subs (user_args : list string) (user : subs_t) (path : string) :
  parse_subs user_args = Returns user ->
  NoDup (map fst (file_subs (dict_update [("%", "%")] user) path))
  /\ In ("s", path) (file_subs (dict_update [("%", "%")] user) path)
  /\ (forall k v, k <> "s" -> In (k, v) user ->
        In (k, v) (file_subs (dict_update [("%", "%")] user) path))
  /\ (~ In "%" (map fst user) ->
      In ("%", "%") (file_subs (dict_update [("%", "%")] user) path)).
Proof.
  intros H. apply parse_subs_loop_returns in H; [|constructor].
  destruct H as (_ & Hnd & _).
  assert (Hd0 : NoDup (map fst [("%", "%")])) by (repeat constructor; easy).
  pose proof (dict_update_NoDup user _ Hd0) as Hdef.
  unfold file_subs. split; [now apply dict_set_NoDup|]. split; [|split].
  - apply dict_set_in; [assumption | now left].
  - intros k v Hk Hin. apply dict_set_in; [assumption|]. right. split; [assumption|].
    apply dict_update_in; auto.
  - intros Hn. apply dict_set_in; [assumption|]. right. split; [discriminate|].
    apply dict_update_in; auto. right. split; [now left | assumption].
Qed.

Lemma main_file_subs_witness :
  NoDup (map fst (file_subs (dict_update [("%", "%")] [("s", "x"); ("sh", "/bin/sh")]) "f"))
  /\ In ("s", "f") (file_subs (dict_update [("%", "%")] [("s", "x"); ("sh", "/bin/sh")]) "f")
  /\ (forall k v, k <> "s" -> In (k, v) [("s", "x"); ("sh", "/bin/sh")] ->
        In (k, v) (file_subs (dict_update [("%", "%")] [("s", "x"); ("sh", "/bin/sh")]) "f"))
  /\ (~ In "%" (map fst [("s", "x"); ("sh", "/bin/sh")]) ->
      In ("%", "%") (file_subs (dict_update [("%", "%")] [("s", "x"); ("sh", "/bin/sh")]) "f")).
Proof.
  apply (@main_file_subs ["s=x"; "sh=/bin/sh"]). reflexivity.
Defined.

Lemma check_testrun (self : TestRun) (lines : list Line) (checks : list CheckCmd)
    (f : TestFailure) :
  TestRun_check self lines checks = Some f -> testrun f = self.
Proof.
  unfold TestRun_check. destruct (check_loop lines checks _) as [[lq cq] a].
  intros H. now apply check_finish_some in H.
Qed.

Lemma run_testrun (self : TestRun) (p : proc) (f : TestFailure) :
  TestRun_run self p = Ok (Some f) -> testrun f = self.
Proof.
  unfold TestRun_run. destruct (returncode p =? 127); [discriminate|].
  destruct (TestRun_check self _ (outchecks _)) as [o|] eqn:Ho.
  - apply check_testrun in Ho.
    destruct (TestRun_check self _ (errchecks _)) as [e|].
    + destruct (annotate o e _) as [o'|] eqn:Ha; [|discriminate].
      intros [= <-]. apply annotate_same in Ha. unfold same_report in Ha.
      destruct Ha as (_ & _ & -> & _). exact Ho.
    + now intros [= <-].
  - intros [= He]. now apply check_testrun in He.
Qed.

Section MainFacts.
Variable W : Type.
Variable spawn : W -> string -> proc * W.
Variable open_ : W -> string -> option (list string).

Lemma run_all_result (nm : string) (ck : Checker) (sb : subs_t) (cfg : Config)
    (cmds : list RunCmd) :
  forall w success handled success' handled' w',
    run_all spawn nm ck sb cfg cmds w success handled = (Ok (success', handled'), w') ->
    exists extra,
      handled' = (handled ++ extra)%list
      /\ success' = success && match extra with [] => true | _ => false end
      /\ Forall (fun f => name (testrun f) = nm) extra.
Proof.
  induction cmds as [|rc cmds IH]; intros w success handled success' handled' w' H.
  - simpl in H. injection H as <- <- <-. exists []. rewrite app_nil_r, andb_true_r. auto.
  - simpl in H. destruct (spawn w _) as [p w1].
    destruct (TestRun_run _ p) as [[f|]|e] eqn:Hr; [| |discriminate].
    + apply IH in H. destruct H as (extra & -> & -> & Hf).
      exists (f :: extra). rewrite <- app_assoc. simpl. rewrite andb_false_r.
      repeat split; auto.
      constructor; [|assumption]. apply run_testrun in Hr. now rewrite Hr.
    + apply IH in H. destruct H as (extra & -> & -> & Hf). exists extra. auto.
Qed.

Lemma check_file_result (fd : list string) (path : string) (sb : subs_t)
    (cfg : Config) (w w' : W) (success : bool) (handled : list TestFailure) :
  check_file spawn fd path sb cfg w = (Ok (success, handled), w') ->
  (success = true <-> handled = [])
  /\ Forall (fun f => name (testrun f) = path) handled.
Proof.
  unfold check_file. destruct (Checker_init path _) as [ck|e]; [|discriminate].
  intros H. apply run_all_result in H. destruct H as (extra & -> & -> & Hf).
  simpl. split; [|assumption]. destruct extra; split; congruence.
Qed.

Lemma main_loop_result (def_subs : subs_t) (cfg : Config) (paths : list string) :
  forall w fc rep n rep' w',
    main_loop spawn open_ def_subs cfg paths w fc rep = (Exited n, rep', w') ->
    exists extra,
      rep' = (rep ++ extra)%list
      /\ fc <= n /\ n - fc <= List.length paths /\ n - fc <= List.length extra
      /\ (n = fc <-> extra = [])
      /\ Forall (fun f => In (name (testrun f)) paths) extra.
Proof.
  induction paths as [|path paths IH]; intros w fc rep n rep' w' H.
  - simpl in H. injection H as <- <- <-. exists []. rewrite app_nil_r.
    repeat split; auto; lia.
  - cbn [main_loop] in H. unfold check_path in H.
    destruct (open_ w path) as [fd|]; [|discriminate].
    destruct (check_file spawn fd path _ cfg w) as [[[success handled]|e] w1] eqn:Hc;
      [|discriminate].
    apply check_file_result in Hc. destruct Hc as [Hs Hn].
    apply IH in H. destruct H as (extra & -> & Hle & Hlen & Hex & Hz & Hf).
    exists (handled ++ extra)%list. rewrite <- app_assoc, length_app.
    assert (Hf' : Forall (fun f => In (name (testrun f)) (path :: paths))
                         (handled ++ extra)).
    { apply Forall_app. split.
      - eapply Forall_impl; [|exact Hn]. intros f <-. now left.
      - eapply Forall_impl; [|exact Hf]. intros f Hin. now right. }
    destruct success.
    + assert (handled = []) as -> by now apply Hs. simpl in *.
      split; [reflexivity|]. split; [lia|]. split; [lia|]. split; [lia|].
      split; [exact Hz | exact Hf'].
    + assert (handled <> []) by (intros E; apply Hs in E; discriminate).
      destruct handled as [|f handled]; [congruence|]. simpl in *.
      split; [reflexivity|]. split; [lia|]. split; [lia|]. split; [lia|].
      split; [|exact Hf']. split; [intros; lia | discriminate].
Qed.

(** X23.  The exit status of [main].  When [main] gets to its end, the status
    it exits with is zero exactly when no failure was reported; it is
    at most the number of fixtures and at most the number of failures
    reported; and every failure reported is one of a fixture named on
    the command line. *)
Theorem main_exit_status (args : Args) (isatty : bool) (w w' : W) (n : nat)
    (reported : list TestFailure) :
  main spawn open_ args isatty w = (Exited n, reported, w') ->
  (n = 0 <-> reported = [])
  /\ n <= List.length (arg_file args)
  /\ n <= List.length reported
  /\ Forall (fun f => In (name (testrun f)) (arg_file args)) reported.
Proof.
  unfold main. destruct (parse_subs _) as [user|status printed]; [|discriminate].
  intros H. apply main_loop_result in H.
  destruct H as (extra & -> & _ & Hlen & Hex & Hz & Hf). simpl.
  rewrite Nat.sub_0_r in *. auto.
Qed.
End MainFacts.

Lemma main_exit_status_witness :
  (example_status = 0 <-> example_reported = [])
  /\ example_status <= List.length (arg_file example_args)
  /\ example_status <= List.length example_reported
  /\ Forall (fun f => In (name (testrun f)) (arg_file example_args)) example_reported.
Proof.
  apply (@main_exit_status unit (const_world (mkProc ("x" ++ String nl "") "" 0))
           example_open example_args false tt tt).
  vm_compute. reflexivity.
Defined.

(** ** Compiling a check line whose spans are patterns *)




(** ** The command of a fixture without RUN directives *)

Lemma no_percent_app (a b : string) :
  no_percent (a ++ b) = no_percent a && no_percent b.
Proof. apply CheckFacts.all_chars_app. Qed.

(** X25.  A fixture with no RUN directive whose first line is [#!] and a
    command without a percent sign runs this command on the fixture:
    the one command of its checker, after substitution, is the
    command of the first line, a space and the value of [s], which
    [main] sets to the path of the fixture. *)
Theorem shebang_runs_fixture (name : string) (line0 : Line) (lines : list Line)
    (cmd path : string) (ck : Checker) (subs : subs_t) (config : Config) :
  group1s RUN_RE (line0 :: lines) = [] ->
  text line0 = "#!" ++ cmd ++ String nl "" ->
  no_percent cmd = true ->
  Checker_init name (line0 :: lines) = Ok ck ->
  NoDup (map fst subs) -> In ("s", path) subs ->
  map (fun rc => subbed_command (TestRun_init name rc ck subs config)) (runcmds ck)
  = [cmd ++ " " ++ path].
Proof.
  intros Hrun Ht Hcmd Hck Hn Hs.
  destruct (@no_run_directive name line0 lines Hrun) as [Hsh _].
  rewrite (Hsh cmd Ht ck Hck). simpl. f_equal.
  assert (Hps : perform_substitution "%s" subs = path).
  { change "%s" with ("%" ++ "s" ++ "").
    rewrite (@token_step subs "s" ""); [|right; split; reflexivity].
    rewrite (@subber_loop_longest (sorted_by_len subs) "s" "s" path).
    - simpl. now rewrite !sapp_nil_r.
    - apply sorted_by_len_sorted.
    - intros k' v1 v2 H1 H2. rewrite sorted_by_len_in in H1, H2.
      eapply unique_value; [exact Hn | exact H1 | exact H2].
    - now rewrite sorted_by_len_in.
    - reflexivity.
    - intros k' v' _ Hp. now apply prefix_length. }
  change (cmd ++ " %s") with (cmd ++ " " ++ "%s").
  rewrite <- sapp_assoc, substitution_plain
    by (rewrite no_percent_app, Hcmd; reflexivity).
  now rewrite Hps, sapp_assoc.
Qed.

Lemma shebang_runs_fixture_witness :
  map (fun rc => subbed_command
                   (TestRun_init "f" rc example_shebang_checker
                                 [("%", "%"); ("s", "t/f.sh")] example_config))
      (runcmds example_shebang_checker)
  = ["/bin/sh -e" ++ " " ++ "t/f.sh"].
Proof.
  apply (@shebang_runs_fixture "f" (mkLine ("#!/bin/sh -e" ++ String nl "") 1 "f")
           [mkLine ("echo a" ++ String nl "") 2 "f";
            mkLine ("# CHECK: a" ++ String nl "") 3 "f"]).
  - vm_compute. reflexivity.
  - reflexivity.
  - reflexivity.
  - vm_compute. reflexivity.
  - repeat constructor; simpl; intuition discriminate.
  - simpl. auto.
Defined.

(** ** The two sequences of a failure, pair by pair *)

Lemma hack_differs (etext ltext : string) :
  (if negb (String.eqb etext ltext) then etext else " " ++ etext) <> ltext.
Proof.
  destruct (String.eqb etext ltext) eqn:E; simpl.
  - apply String.eqb_eq in E. subst. intros H.
    apply (f_equal String.length) in H. simpl in H. lia.
  - now apply String.eqb_neq in E.
Qed.

Lemma check_loop_pairs (lines : list Line) :
  forall checks a,
    let '(lq, cq, a') := check_loop lines checks a in
    exists (pairs : list (Line * CheckCmd)) (shown : list string),
      usedlines a' = (usedlines a ++ map fst pairs)%list
      /\ usedchecks a' = (usedchecks a ++ map snd pairs)%list
      /\ text1 a' = (text1 a ++ map (fun p => escaped_text (fst p)) pairs)%list
      /\ text2 a' = (text2 a ++ shown)%list
      /\ Forall2 (fun s p => s = escaped_text (fst p) <-> matches (snd p) (fst p) = true)
                 shown pairs
      /\ (lq = [] \/ cq = []).
Proof.
  induction lines as [|line lines IH]; intros checks a.
  - simpl. exists [], []. rewrite !app_nil_r. repeat split; auto.
  - destruct checks as [|check checks].
    + simpl. exists [], []. rewrite !app_nil_r. repeat split; auto.
    + simpl. destruct (matches check line) eqn:Hm.
      * match goal with |- context [check_loop lines checks ?acc] =>
          specialize (IH checks acc); destruct (check_loop lines checks acc)
            as [[lq cq] a'] end.
        destruct IH as (pairs & shown & H1 & H2 & H3 & H4 & H5 & H6). simpl in *.
        exists ((line, check) :: pairs), (escaped_text line :: shown).
        rewrite <- app_assoc in H1, H2, H3, H4. simpl in *.
        repeat split; auto. constructor; [|assumption]. simpl. tauto.
      * destruct (is_empty_space line) eqn:He.
        -- apply IH.
        -- match goal with |- context [check_loop lines checks ?acc] =>
             specialize (IH checks acc); destruct (check_loop lines checks acc)
               as [[lq cq] a'] end.
           destruct IH as (pairs & shown & H1 & H2 & H3 & H4 & H5 & H6). simpl in *.
           eexists ((line, check) :: pairs), (_ :: shown).
           rewrite <- app_assoc in H1, H2, H3, H4. simpl in *.
           repeat split; eauto. constructor; [|assumption]. simpl. rewrite Hm.
           split; [|discriminate]. intros E. now apply hack_differs in E.
Qed.

(** X26.  The two sequences a failure of [TestRun.check] holds for its
    report go pair by pair: for every line and check that were
    compared, in order, the text entered for the line is its escaped
    text, and the text entered for the check is the same text
    exactly when the line matched the check, so a pair that did not
    match is never shown as equal; after the pairs come the lines
    that were left, or the checks that were left, never both. *)
Theorem check_diff_pairs (self : TestRun) (lines : list Line)
    (checks : list CheckCmd) (f : TestFailure) :
  TestRun_check self lines checks = Some f ->
  exists (pairs : list (Line * CheckCmd)) (shown : list string)
         (rest_lines : list Line) (rest_checks : list CheckCmd),
    fail_lines f = (map fst pairs ++ rest_lines)%list
    /\ fail_checks f = (map snd pairs ++ rest_checks)%list
    /\ fst (diff f)
       = (map (fun p => escaped_text (fst p)) pairs ++ map escaped_text rest_lines)%list
    /\ snd (diff f)
       = (shown ++ map (fun c => escaped_text (check_line c)) rest_checks)%list
    /\ Forall2 (fun s p => s = escaped_text (fst p) <-> matches (snd p) (fst p) = true)
               shown pairs
    /\ (rest_lines = [] \/ rest_checks = []).
Proof.
  unfold TestRun_check. intros H.
  pose proof (check_loop_pairs lines checks (mkAcc [] [] [] [] [])) as C.
  destruct (check_loop lines checks _) as [[lq cq] a'].
  destruct C as (pairs & shown & H1 & H2 & H3 & H4 & H5 & H6). simpl in *.
  apply check_finish_some in H. destruct H as (_ & _ & Hd & Hl & Hc).
  exists pairs, shown, (leftover_lines (drain_empties lq)), cq.
  rewrite Hd, Hl, Hc, H1, H2, H3, H4. simpl. repeat split; auto.
  destruct H6 as [-> | ->]; auto.
Qed.

Lemma check_diff_pairs_witness :
  exists (pairs : list (Line * CheckCmd)) (shown : list string)
         (rest_lines : list Line) (rest_checks : list CheckCmd),
    fail_lines example_mismatch = (map fst pairs ++ rest_lines)%list
    /\ fail_checks example_mismatch = (map snd pairs ++ rest_checks)%list
    /\ fst (diff example_mismatch)
       = (map (fun p => escaped_text (fst p)) pairs ++ map escaped_text rest_lines)%list
    /\ snd (diff example_mismatch)
       = (shown ++ map (fun c => escaped_text (check_line c)) rest_checks)%list
    /\ Forall2 (fun s p => s = escaped_text (fst p) <-> matches (snd p) (fst p) = true)
               shown pairs
    /\ (rest_lines = [] \/ rest_checks = []).
Proof.
  apply (@check_diff_pairs example_run
           [out_line "a" 1; out_line "x" 2; out_line "" 3]
           [check_of "a" 1; check_of "b" 2]).
  vm_compute. reflexivity.
Defined.

(** ** Where a failure of a run points *)

Lemma enumerate_lines_at (ts : list string) (nm : string) (l : Line) :
  forall idx, In l (enumerate_lines idx ts nm) ->
    idx < number l /\ file l = nm
    /\ nth_error ts (number l - 1 - idx) = Some (text l).
Proof.
  induction ts as [|t ts IH]; intros idx H; simpl in H; [contradiction|].
  destruct H as [<- | H].
  - simpl. replace (idx + 1 - 1 - idx) with 0 by lia.
    split; [lia|]. split; reflexivity.
  - apply IH in H. destruct H as (Hlt & Hf & Hn).
    replace (number l - 1 - idx) with (S (number l - 1 - S idx)) by lia.
    split; [lia|]. split; [assumption | exact Hn].
Qed.

(** X27.  The line a failure of [TestRun.run] is anchored at is a line of
    the output of the command: it names the stream, stdout or stderr,
    and its number is the position, counted from 1, of its text among
    the lines of that stream. *)
Theorem run_failure_line (self : TestRun) (p : proc) (f : TestFailure) (l : Line) :
  TestRun_run self p = Ok (Some f) ->
  fail_line f = Some l ->
  1 <= number l
  /\ ((file l = "stdout"
       /\ nth_error (split_by_newlines (proc_stdout p)) (number l - 1) = Some (text l))
      \/ (file l = "stderr"
          /\ nth_error (split_by_newlines (proc_stderr p)) (number l - 1)
             = Some (text l))).
Proof.
  intros H Hl.
  assert (Hin : In l (outlines_of p) \/ In l (errlines_of p)).
  { assert (Hrc : returncode p <> 127).
    { intros E. unfold TestRun_run in H. rewrite E in H. discriminate. }
    destruct (@run_reports self p Hrc) as [H1 H2].
    destruct (TestRun_check self (outlines_of p) (outchecks (checker self)))
      as [o|] eqn:Ho.
    - destruct (H1 o eq_refl) as (f' & Hf & Hsame). rewrite Hf in H.
      injection H as ->. destruct Hsame as (Hsl & _). rewrite Hsl in Hl.
      left. exact (fail_line_member _ _ _ Ho Hl).
    - rewrite (H2 eq_refl) in H. injection H as H.
      right. exact (fail_line_member _ _ _ H Hl). }
  destruct Hin as [Hin | Hin]; apply enumerate_lines_at in Hin;
    destruct Hin as (Hlt & Hf & Hn); rewrite Nat.sub_0_r in Hn;
    (split; [lia|]); [left | right]; auto.
Qed.

Lemma run_failure_line_witness :
  1 <= number (mkLine ("x" ++ String nl "") 1 "stdout")
  /\ ((file (mkLine ("x" ++ String nl "") 1 "stdout") = "stdout"
       /\ nth_error (split_by_newlines (proc_stdout example_proc))
                    (number (mkLine ("x" ++ String nl "") 1 "stdout") - 1)
          = Some (text (mkLine ("x" ++ String nl "") 1 "stdout")))
      \/ (file (mkLine ("x" ++ String nl "") 1 "stdout") = "stderr"
          /\ nth_error (split_by_newlines (proc_stderr example_proc))
                       (number (mkLine ("x" ++ String nl "") 1 "stdout") - 1)
             = Some (text (mkLine ("x" ++ String nl "") 1 "stdout")))).
Proof.
  apply (@run_failure_line example_checked_run example_proc example_annotated);
    vm_compute; reflexivity.
Defined.

(** ** What [check_file] raises *)



